(** * stimulus-pdf-viewer: rendering queue, coordinate transformer, find controller

    A shallow embedding of three parts of the viewer:
    - [lib/core/rendering_queue.js] together with the page records of
      [CoreViewer] ([renderPage], [setScale], [_onScroll]);
    - [CoordinateTransformer] (screen/PDF conversion, selection rectangles
      to quads, freehand strokes to quads);
    - [lib/find_controller.js] (match list, navigation, re-sorting).

    JavaScript numbers are modelled by canonical rationals [Qc] (exact
    arithmetic, Leibniz equality), page numbers and indices by [Z], the
    [Map] of page records by [gmap Z PageData]. *)

From Stdlib Require Import ZArith QArith Qcanon List Lia Lqa Permutation Sorted Ascii String.
From Stdlib Require Import Recdef.
From stdpp Require Import gmap strings list fin_maps numbers.

Local Open Scope Z_scope.

(** ** Part 1: the rendering queue and the page records of the viewer *)

Module Render.

(** [RenderingStates] of rendering_queue.js. *)
Inductive RenderingState := INITIAL | RUNNING | PAUSED | FINISHED.

#[global] Instance RenderingState_eq_dec : EqDecision RenderingState.
Proof. solve_decision. Defined.

(** One entry of [CoreViewer.pages]. [renderedScale] is [None] while the
    field is still undefined; [pageLoaded] says whether [pageData.page]
    holds a page proxy already. *)
Record PageData := mkPageData {
  renderingState : RenderingState;
  renderedScale : option Qc;
  pageLoaded : bool
}.

(** The object returned by [getVisiblePages] / passed by callers. *)
Record VisiblePages := mkVisible {
  first : option Z;
  last : option Z;
  scrollDirection : string
}.

(** What a suspended [renderPage] activation is waiting for.
    [Returned]: [renderPage] took one of its early returns, the awaiting
    caller resumes on the next tick.  [Fetching]: waiting for
    [pdfDocument.getPage].  [Drawing sc]: the display scale [sc] has been
    read, canvas and text layer are being produced. *)
Inductive Phase := Returned | Fetching | Drawing (sc : Qc).

#[global] Instance Phase_eq_dec : EqDecision Phase.
Proof. solve_decision. Defined.

Record Task := mkTask { t_page : Z; t_phase : Phase }.

(** Viewer plus queue.  [visible] is what [getVisiblePages()] answers at
    the moment (scroll position and layout belong to the browser);
    [inflight] lists the [renderHighestPriority] activations suspended at
    [await this.pdfViewer.renderPage(..)]; [renderLog] records, in order,
    the pages that [renderPage] switched to [RUNNING]. *)
Record System := mkSystem {
  pages : gmap Z PageData;
  pageCount : Z;
  displayScale : Qc;
  visible : VisiblePages;
  hasViewer : bool;
  highestPriorityPage : option Z;
  idleTimeout : bool;
  idleCalls : nat;
  inflight : list Task;
  renderLog : list Z
}.

Definition with_pages (f : gmap Z PageData -> gmap Z PageData) (s : System) : System :=
  mkSystem (f (pages s)) (pageCount s) (displayScale s) (visible s) (hasViewer s)
           (highestPriorityPage s) (idleTimeout s) (idleCalls s) (inflight s) (renderLog s).

Definition with_highest (h : option Z) (s : System) : System :=
  mkSystem (pages s) (pageCount s) (displayScale s) (visible s) (hasViewer s)
           h (idleTimeout s) (idleCalls s) (inflight s) (renderLog s).

Definition with_idleTimeout (b : bool) (s : System) : System :=
  mkSystem (pages s) (pageCount s) (displayScale s) (visible s) (hasViewer s)
           (highestPriorityPage s) b (idleCalls s) (inflight s) (renderLog s).

Definition with_inflight (ts : list Task) (s : System) : System :=
  mkSystem (pages s) (pageCount s) (displayScale s) (visible s) (hasViewer s)
           (highestPriorityPage s) (idleTimeout s) (idleCalls s) ts (renderLog s).

Definition with_visible (vp : VisiblePages) (s : System) : System :=
  mkSystem (pages s) (pageCount s) (displayScale s) vp (hasViewer s)
           (highestPriorityPage s) (idleTimeout s) (idleCalls s) (inflight s) (renderLog s).

Definition with_displayScale (sc : Qc) (s : System) : System :=
  mkSystem (pages s) (pageCount s) sc (visible s) (hasViewer s)
           (highestPriorityPage s) (idleTimeout s) (idleCalls s) (inflight s) (renderLog s).

Definition log_render (p : Z) (s : System) : System :=
  mkSystem (pages s) (pageCount s) (displayScale s) (visible s) (hasViewer s)
           (highestPriorityPage s) (idleTimeout s) (idleCalls s) (inflight s)
           (renderLog s ++ [p]).

Definition count_idle (s : System) : System :=
  mkSystem (pages s) (pageCount s) (displayScale s) (visible s) (hasViewer s)
           (highestPriorityPage s) false (S (idleCalls s)) (inflight s) (renderLog s).

(** [_isPageRendered]. *)
Definition isPageRendered (s : System) (pageNumber : Z) : bool :=
  match pages s !! pageNumber with
  | None => false
  | Some pageData =>
      match renderingState pageData with
      | RUNNING => true
      | FINISHED => bool_decide (renderedScale pageData = Some (displayScale s))
      | _ => false
      end
  end.

(** [for (let page = first; page <= last; page++)]: [n] bounds the number
    of iterations, the caller passes the length of the range. *)
Fixpoint scanUp (s : System) (n : nat) (page last : Z) : option Z :=
  match n with
  | O => None
  | S n' =>
      if page <=? last
      then if negb (isPageRendered s page) then Some page
           else scanUp s n' (page + 1) last
      else None
  end.

(** [for (let page = last; page >= first; page--)]. *)
Fixpoint scanDown (s : System) (n : nat) (page first : Z) : option Z :=
  match n with
  | O => None
  | S n' =>
      if page >=? first
      then if negb (isPageRendered s page) then Some page
           else scanDown s n' (page - 1) first
      else None
  end.

Definition preRenderCount : Z := 2.

(** [for (let i = 1; i <= preRenderCount; i++)] after the visible area. *)
Fixpoint scanAfter (s : System) (n : nat) (i last : Z) : option Z :=
  match n with
  | O => None
  | S n' =>
      if i <=? preRenderCount
      then let nextPage := last + i in
           if (nextPage <=? pageCount s) && negb (isPageRendered s nextPage)
           then Some nextPage
           else scanAfter s n' (i + 1) last
      else None
  end.

(** The same loop before the visible area. *)
Fixpoint scanBefore (s : System) (n : nat) (i first : Z) : option Z :=
  match n with
  | O => None
  | S n' =>
      if i <=? preRenderCount
      then let prevPage := first - i in
           if (prevPage >=? 1) && negb (isPageRendered s prevPage)
           then Some prevPage
           else scanBefore s n' (i + 1) first
      else None
  end.

Definition orElse {A} (a : option A) (b : option A) : option A :=
  match a with Some _ => a | None => b end.

(** [_getHighestPriorityPage(visiblePages)]; [None] is [null]. *)
Definition getHighestPriorityPage (s : System) (visiblePages : option VisiblePages)
  : option Z :=
  if negb (hasViewer s) then None else
  let vp := match visiblePages with Some vp => vp | None => visible s end in
  match first vp, last vp with
  | Some first, Some last =>
      let span := Z.to_nat (last - first + 1) in
      orElse
        (if String.eqb (scrollDirection vp) "down"
         then scanUp s span first last
         else scanDown s span last first)
        (orElse (scanAfter s (Z.to_nat preRenderCount) 1 last)
                (scanBefore s (Z.to_nat preRenderCount) 1 first))
  | _, _ => None
  end.

Definition setRenderingState (p : Z) (st : RenderingState) (s : System) : System :=
  with_pages (fun m =>
    match m !! p with
    | Some pd => <[p := mkPageData st (renderedScale pd) (pageLoaded pd)]> m
    | None => m
    end) s.

(** [renderPage(pageNumber)] up to its first suspension point: the early
    returns, the switch to [RUNNING], and either the wait for [getPage] or,
    when the page proxy is cached, the read of [displayScale]. *)
Definition renderPage_begin (p : Z) (s : System) : System * Phase :=
  match pages s !! p with
  | None => (s, Returned)
  | Some pageData =>
      if bool_decide (renderingState pageData = RUNNING) then (s, Returned)
      else if bool_decide (renderingState pageData = FINISHED)
              && bool_decide (renderedScale pageData = Some (displayScale s))
      then (s, Returned)
      else
        let s' := log_render p (setRenderingState p RUNNING s) in
        if pageLoaded pageData then (s', Drawing (displayScale s))
        else (s', Fetching)
  end.

(** [renderHighestPriority(visiblePages)] up to its [await] (or to its end
    when no page qualifies and the idle timer is armed). *)
Definition renderHighestPriority (visiblePages : option VisiblePages) (s : System)
  : System :=
  if negb (hasViewer s) then s else
  let s := with_idleTimeout false s in
  match getHighestPriorityPage s visiblePages with
  | Some pageToRender =>
      let s := with_highest (Some pageToRender) s in
      let '(s, ph) := renderPage_begin pageToRender s in
      with_inflight (inflight s ++ [mkTask pageToRender ph]) s
  | None => with_idleTimeout true s
  end.

(** Removing the first suspended activation that waits for page [p]. *)
Fixpoint takeTask (p : Z) (ts : list Task) : option (Phase * list Task) :=
  match ts with
  | [] => None
  | t :: ts' =>
      if bool_decide (t_page t = p) then Some (t_phase t, ts')
      else match takeTask p ts' with
           | Some (ph, rest) => Some (ph, t :: rest)
           | None => None
           end
  end.

(** The things that can happen to the system. *)
Inductive Event :=
| Invoke (vp : VisiblePages)     (* a caller runs renderHighestPriority(vp) *)
| OnResize                       (* _onResize, and the first call made by load *)
| OnScroll (vp : VisiblePages)   (* _onScroll: the view moved to vp *)
| SetScale (sc : Qc)             (* setScale(sc) with a numeric scale *)
| PageFetched (p : Z)            (* getPage(p) resolved *)
| RenderDone (p : Z)             (* renderPage(p) resolved *)
| RenderFailed (p : Z)           (* renderPage(p) rejected *)
| IdleTimer.                     (* the 100 ms idle timer fired *)

(** The tail of the [try] block of [renderPage]: the page record is
    completed with the scale that was read when drawing started. *)
Definition finishPage (p : Z) (sc : Qc) (s : System) : System :=
  with_pages (fun m =>
    match m !! p with
    | Some pd => <[p := mkPageData FINISHED (Some sc) true]> m
    | None => m
    end) s.

Definition markLoaded (p : Z) (s : System) : System :=
  with_pages (fun m =>
    match m !! p with
    | Some pd => <[p := mkPageData (renderingState pd) (renderedScale pd) true]> m
    | None => m
    end) s.

(** One event; [None] when the event cannot happen in [s]. *)
Definition step (s : System) (e : Event) : option System :=
  match e with
  | Invoke vp => Some (renderHighestPriority (Some vp) s)
  | OnResize => Some (renderHighestPriority (Some (visible s)) s)
  | OnScroll vp =>
      Some (renderHighestPriority (Some vp) (with_visible vp s))
  | SetScale sc =>
      if bool_decide (sc = displayScale s) then Some s
      else
        let s := with_displayScale sc s in
        Some (renderHighestPriority (Some (visible s)) s)
  | PageFetched p =>
      match takeTask p (inflight s) with
      | Some (Fetching, rest) =>
          Some (with_inflight (rest ++ [mkTask p (Drawing (displayScale s))])
                              (markLoaded p s))
      | _ => None
      end
  | RenderDone p =>
      match takeTask p (inflight s) with
      | Some (Drawing sc, rest) =>
          (* try: await resolved; _highestPriorityPage = null; recurse *)
          Some (renderHighestPriority None
                  (with_highest None (with_inflight rest (finishPage p sc s))))
      | Some (Returned, rest) =>
          Some (renderHighestPriority None
                  (with_highest None (with_inflight rest s)))
      | _ => None
      end
  | RenderFailed p =>
      match takeTask p (inflight s) with
      | Some (Returned, _) | None => None
      | Some (_, rest) =>
          (* renderPage: catch, state back to INITIAL, rethrow;
             renderHighestPriority: catch, _highestPriorityPage = null *)
          Some (with_highest None
                  (with_inflight rest (setRenderingState p INITIAL s)))
      end
  | IdleTimer =>
      if idleTimeout s then Some (count_idle s) else None
  end.

Fixpoint run (s : System) (es : list Event) : option System :=
  match es with
  | [] => Some s
  | e :: es' => match step s e with
                | Some s' => run s' es'
                | None => None
                end
  end.

(** The record stored by [_createPagePlaceholders]: page 1 is fetched
    there, the others are not. *)
Definition placeholder (pageNum : Z) : PageData :=
  mkPageData INITIAL None (bool_decide (pageNum = 1)).

Fixpoint placeholders (n : nat) : gmap Z PageData :=
  match n with
  | O => ∅
  | S n' => <[Z.of_nat n := placeholder (Z.of_nat n)]> (placeholders n')
  end.

(** The system right after [load], before its first scheduling call. *)
Definition loaded (n : nat) (sc : Qc) (vp : VisiblePages) : System :=
  mkSystem (placeholders n) (Z.of_nat n) sc vp true None false 0 [] [].

Inductive reachable : System -> Prop :=
| reach_loaded n sc vp : reachable (loaded n sc vp)
| reach_step s e s' : reachable s -> step s e = Some s' -> reachable s'.

(** The pages whose record says [RUNNING]. *)
Definition runningPages (s : System) : list Z :=
  filter (fun p => renderingState <$> pages s !! p = Some RUNNING)
         (map_to_list (pages s)).*1.

(** The pages some suspended [renderPage] is really working on. *)
Definition active (ts : list Task) : list Z :=
  t_page <$> filter (fun t => t_phase t <> Returned) ts.

Definition activePages (s : System) : list Z := active (inflight s).

Definition running (s : System) (p : Z) : Prop :=
  renderingState <$> pages s !! p = Some RUNNING.

(** The scan order in the words of the specification: the visible range
    in scroll order, then two pages after it, then two pages before it,
    clipped to the document. *)
Definition inDocument (n : Z) (p : Z) : bool := (1 <=? p) && (p <=? n).

Definition scanOrder (n : Z) (first last : Z) (dir : string) : list Z :=
  let vis := (fun i => first + Z.of_nat i) <$> seq 0 (Z.to_nat (last - first + 1)) in
  (if String.eqb dir "down" then vis else rev vis)
  ++ List.filter (inDocument n) [last + 1; last + 2]
  ++ List.filter (inDocument n) [first - 1; first - 2].

(** The invariant tying the page records to the suspended renders. *)
Definition consistent (s : System) : Prop :=
  NoDup (activePages s) /\ forall p, running s p <-> p ∈ activePages s.

(** The events by which a caller starts a scheduling pass. *)
Definition isTrigger (e : Event) : bool :=
  match e with
  | Invoke _ | OnResize | OnScroll _ | SetScale _ => true
  | _ => false
  end.

(** The states reached when no pass is started while a render is awaited. *)
Inductive reachableSerially : System -> Prop :=
| serial_loaded n sc vp : reachableSerially (loaded n sc vp)
| serial_step s e s' :
    reachableSerially s ->
    (isTrigger e = true -> inflight s = []) ->
    step s e = Some s' ->
    reachableSerially s'.

(** The scenario of the specification: ten pages, pages 4 to 6 in view,
    scrolling down, every render succeeding. *)
Definition view_4_6 : VisiblePages := mkVisible (Some 4) (Some 6) "down".

Definition scenario_events : list Event :=
  Invoke view_4_6 ::
  flat_map (fun p => [PageFetched p; RenderDone p]) [4; 5; 6; 7; 8; 3; 2].

(** A two-page document with both pages in view. *)
Definition view_1_2 : VisiblePages := mkVisible (Some 1) (Some 2) "down".

(** What the specification asks of a failed render: some further page
    starts rendering whenever a page other than the failed one is still
    unsatisfied in the current view. *)
Definition continuesAfterFailure : Prop :=
  forall s p s' f l,
    reachable s -> step s (RenderFailed p) = Some s' ->
    first (visible s') = Some f -> last (visible s') = Some l ->
    (exists q, q <> p /\ f <= q <= l /\ isPageRendered s' q = false) ->
    renderLog s' <> renderLog s.

(** The single render pipeline of the specification. *)
Definition singleRenderInFlight : Prop :=
  forall s, reachable s -> (length (runningPages s) <= 1)%nat.

(** *** Further notions for the scheduler *)

(** The pages [_getHighestPriorityPage] looks at for the visible range
    [f] to [l]: the range, the [preRenderCount] pages after it that exist,
    the [preRenderCount] pages before it that exist. *)
Definition inWindow (s : System) (f l p : Z) : Prop :=
  f <= p <= l \/
  (l < p <= l + preRenderCount /\ p <= pageCount s) \/
  (f - preRenderCount <= p < f /\ 1 <= p).

(** What holds of the page records of a loaded viewer. *)
Definition recordsOk (s : System) : Prop :=
  hasViewer s = true /\
  (forall p, is_Some (pages s !! p) <-> 1 <= p <= pageCount s) /\
  (forall p pd, pages s !! p = Some pd ->
     renderingState pd <> PAUSED /\
     (renderingState pd = FINISHED ->
      pageLoaded pd = true /\ is_Some (renderedScale pd))).

(** The oldest suspended render runs to its successful end: the page is
    fetched if it has to be, then drawn. *)
Definition completeNext (s : System) : option System :=
  match inflight s with
  | [] => None
  | t :: _ =>
      match t_phase t with
      | Fetching =>
          match step s (PageFetched (t_page t)) with
          | Some s1 => step s1 (RenderDone (t_page t))
          | None => None
          end
      | _ => step s (RenderDone (t_page t))
      end
  end.

(** Up to [k] renders complete one after the other. *)
Fixpoint settle (k : nat) (s : System) : System :=
  match k with
  | O => s
  | S k' => match completeNext s with
            | Some s' => settle k' s'
            | None => s
            end
  end.

(** A state between two renders: nothing is suspended and no record is
    RUNNING. *)
Definition quiet (s : System) : Prop :=
  recordsOk s /\ inflight s = [] /\
  forall p pd, pages s !! p = Some pd -> renderingState pd <> RUNNING.

(** The window pages that are not satisfied, in scan order. *)
Definition duePages (s : System) (f l : Z) (dir : string) : list Z :=
  List.filter (fun p => negb (isPageRendered s p)) (scanOrder (pageCount s) f l dir).

End Render.

(** ** Part 2: the coordinate transformer *)

Module Geom.

Local Open Scope Qc_scope.

(** A [DOMRect] as read by the code ([left], [right], [top], [bottom]);
    the plain objects built by [selectionRectsToQuads] have the same four
    fields. *)
Record Rect := mkRect { left : Qc; right : Qc; top : Qc; bottom : Qc }.

Record Point := mkPoint { x : Qc; y : Qc }.

Record Quad := mkQuad { p1 : Point; p2 : Point; p3 : Point; p4 : Point }.

(** The result of [screenToPdf]. *)
Record PdfCoords := mkPdfCoords { pdfX : Qc; pdfY : Qc; pageNumber : Z }.

(** What the transformer reads from the viewer: the bounding client
    rectangle of a page container ([None] when [getPageContainer] finds no
    container) and the display scale. *)
Record Viewer := mkViewer {
  getPageContainer : Z -> option Rect;
  getScale : Qc
}.

Definition ltb (a b : Qc) : bool := bool_decide (a < b).

Definition Math_min (a b : Qc) : Qc := if bool_decide (a ≤ b) then a else b.
Definition Math_max (a b : Qc) : Qc := if bool_decide (a ≤ b) then b else a.
Definition Math_abs (a : Qc) : Qc := if bool_decide (a < 0) then - a else a.

(** [Math.sqrt] on rationals: the root rounded down to 53 binary digits
    after the point of the denominator; exact on squares of rationals. *)
Definition sqrtBits : Z := 53.

Definition Math_sqrt (q : Qc) : Qc :=
  let n := Qnum (this q) in
  let d := Z.pos (Qden (this q)) in
  Q2Qc (Qmake (Z.sqrt (n * d * 4 ^ sqrtBits)) (Z.to_pos (d * 2 ^ sqrtBits))).

(** [screenToPdf(event, pageNumber)]; the event is given by its
    [clientX], [clientY]. *)
Definition screenToPdf (v : Viewer) (event : Point) (pageNumber : Z) : option PdfCoords :=
  match getPageContainer v pageNumber with
  | None => None
  | Some rect =>
      let scale := getScale v in
      let screenX := x event - left rect in
      let screenY := y event - top rect in
      Some (mkPdfCoords (screenX / scale) (screenY / scale) pageNumber)
  end.

(** [pdfToScreen(x, y, pageNumber)]. *)
Definition pdfToScreen (v : Viewer) (x y : Qc) (pageNumber : Z) : option Point :=
  match getPageContainer v pageNumber with
  | None => None
  | Some rect =>
      let scale := getScale v in
      Some (mkPoint (x * scale + left rect) (y * scale + top rect))
  end.

Definition minSize : Qc := 1.

(** First [filter] of [selectionRectsToQuads], on client rectangles. *)
Definition keepClientRect (pageRect rect : Rect) : bool :=
  let width := right rect - left rect in
  let height := bottom rect - top rect in
  if ltb width 1 || ltb height 1 then false
  else if ltb (right rect) (left pageRect) || ltb (right pageRect) (left rect) then false
  else if ltb (bottom rect) (top pageRect) || ltb (bottom pageRect) (top rect) then false
  else true.

(** The [map] step: page-relative coordinates divided by the scale. *)
Definition toPdfRect (pageRect : Rect) (scale : Qc) (rect : Rect) : Rect :=
  mkRect ((left rect - left pageRect) / scale)
         ((right rect - left pageRect) / scale)
         ((top rect - top pageRect) / scale)
         ((bottom rect - top pageRect) / scale).

(** Second [filter], on converted rectangles. *)
Definition keepPdfRect (rect : Rect) : bool :=
  let width := right rect - left rect in
  let height := bottom rect - top rect in
  if ltb width minSize || ltb height minSize then false
  else if ltb (left rect) minSize && ltb (top rect) minSize then false
  else true.

(** The test inside the inner loop of [_mergeOverlappingRects]. *)
Definition shouldMerge (rect existing : Rect) : bool :=
  let verticalOverlap := ltb (top rect) (bottom existing) && ltb (top existing) (bottom rect) in
  let horizontalOverlap := ltb (left rect) (right existing) && ltb (left existing) (right rect) in
  let sameLine := ltb (Math_abs (top rect - top existing)) (Qc_of_Z 3)
                  && ltb (Math_abs (bottom rect - bottom existing)) (Qc_of_Z 3) in
  let horizontallyAdjacent := ltb (Math_abs (left rect - right existing)) 2
                              || ltb (Math_abs (left existing - right rect)) 2 in
  (verticalOverlap && horizontalOverlap) || (sameLine && horizontallyAdjacent).

Definition mergeRect (existing rect : Rect) : Rect :=
  mkRect (Math_min (left existing) (left rect))
         (Math_max (right existing) (right rect))
         (Math_min (top existing) (top rect))
         (Math_max (bottom existing) (bottom rect)).

(** [for (let i = 0; i < result.length; i++)]: the first [existing] that
    qualifies is replaced by the union and the loop breaks; [None] when
    [didMerge] stays false. *)
Fixpoint mergeIntoResult (rect : Rect) (result : list Rect) : option (list Rect) :=
  match result with
  | [] => None
  | existing :: rest =>
      if shouldMerge rect existing then Some (mergeRect existing rect :: rest)
      else match mergeIntoResult rect rest with
           | Some rest' => Some (existing :: rest')
           | None => None
           end
  end.

(** [for (const rect of working)] with its two accumulators [result] and
    [merged]. *)
Fixpoint mergePass (working result : list Rect) (merged : bool) : list Rect * bool :=
  match working with
  | [] => (result, merged)
  | rect :: working' =>
      match mergeIntoResult rect result with
      | Some result' => mergePass working' result' true
      | None => mergePass working' (result ++ [rect]) merged
      end
  end.

Lemma mergeIntoResult_length rect result result' :
  mergeIntoResult rect result = Some result' -> length result' = length result.
Proof.
  revert result'; induction result as [|e rest IH]; intros result' H; simpl in H.
  - discriminate.
  - destruct (shouldMerge rect e).
    + injection H as <-. reflexivity.
    + destruct (mergeIntoResult rect rest) as [rest'|]; [|discriminate].
      injection H as <-. simpl. f_equal. now apply IH.
Qed.

Lemma mergePass_length working : forall result merged out b,
  mergePass working result merged = (out, b) ->
  (length out <= length working + length result)%nat /\
  (merged = false -> b = true -> (length out < length working + length result)%nat).
Proof.
  induction working as [|rect ws IH]; intros result merged out b H; simpl in H.
  - injection H as <- <-. split; [simpl; lia|congruence].
  - destruct (mergeIntoResult rect result) as [result'|] eqn:E.
    + apply mergeIntoResult_length in E.
      destruct (IH _ _ _ _ H) as [Hle _]. simpl. split; lia.
    + destruct (IH _ _ _ _ H) as [Hle Hlt].
      rewrite length_app in Hle, Hlt. simpl in *. split; [lia|].
      intros Hm Hb. specialize (Hlt Hm Hb). lia.
Qed.

(** [while (merged) { ... working = result }]: a pass that merged something
    is followed by another pass over its result. *)
Function mergeLoop (working : list Rect) {measure length working} : list Rect :=
  match mergePass working [] false with
  | (result, true) => mergeLoop result
  | (result, false) => result
  end.
Proof.
  intros working result b Hb Hpass.
  destruct (mergePass_length _ _ _ _ _ Hpass) as [_ Hlt].
  specialize (Hlt eq_refl eq_refl). simpl in Hlt. lia.
Defined.

(** [_mergeOverlappingRects(rects)]. *)
Definition mergeOverlappingRects (rects : list Rect) : list Rect :=
  match rects with
  | [] => []
  | _ => mergeLoop rects
  end.

Definition rectToQuad (rect : Rect) : Quad :=
  mkQuad (mkPoint (left rect) (top rect))
         (mkPoint (right rect) (top rect))
         (mkPoint (left rect) (bottom rect))
         (mkPoint (right rect) (bottom rect)).

(** The rectangles that reach the merge. *)
Definition rectArray (pageRect : Rect) (scale : Qc) (rects : list Rect) : list Rect :=
  List.filter keepPdfRect
    (List.map (toPdfRect pageRect scale)
       (List.filter (keepClientRect pageRect) rects)).

(** [selectionRectsToQuads(rects, pageNumber)]. *)
Definition selectionRectsToQuads (v : Viewer) (rects : list Rect) (pageNumber : Z)
  : list Quad :=
  match getPageContainer v pageNumber with
  | None => []
  | Some pageRect =>
      let scale := getScale v in
      List.map rectToQuad (mergeOverlappingRects (rectArray pageRect scale rects))
  end.

(** One iteration of the loop of [strokesPathToQuads] for the consecutive
    points [a], [b]; [None] is the [continue] on a segment of length 0. *)
Definition segmentQuad (pageRect : Rect) (scale halfThickness : Qc) (a b : Point)
  : option Quad :=
  let q1 := mkPoint ((x a - left pageRect) / scale) ((y a - top pageRect) / scale) in
  let q2 := mkPoint ((x b - left pageRect) / scale) ((y b - top pageRect) / scale) in
  let dx := x q2 - x q1 in
  let dy := y q2 - y q1 in
  let len := Math_sqrt (dx * dx + dy * dy) in
  if bool_decide (len = 0) then None
  else
    let nx := - dy / len * halfThickness in
    let ny := dx / len * halfThickness in
    Some (mkQuad (mkPoint (x q1 - nx) (y q1 - ny))
                 (mkPoint (x q1 + nx) (y q1 + ny))
                 (mkPoint (x q2 - nx) (y q2 - ny))
                 (mkPoint (x q2 + nx) (y q2 + ny))).

(** [for (let i = 1; i < points.length; i++)] over [points[i-1]], [points[i]]. *)
Fixpoint strokeQuads (pageRect : Rect) (scale halfThickness : Qc) (points : list Point)
  : list Quad :=
  match points with
  | a :: (b :: _) as rest =>
      match segmentQuad pageRect scale halfThickness a b with
      | Some q => q :: strokeQuads pageRect scale halfThickness rest
      | None => strokeQuads pageRect scale halfThickness rest
      end
  | _ => []
  end.

(** [strokesPathToQuads(points, thickness, pageNumber)]. *)
Definition strokesPathToQuads (v : Viewer) (points : list Point) (thickness : Qc)
  (pageNumber : Z) : list Quad :=
  match getPageContainer v pageNumber with
  | None => []
  | Some pageRect =>
      let scale := getScale v in
      let halfThickness := (thickness / 2) / scale in
      strokeQuads pageRect scale halfThickness points
  end.

(** The rectangle a quad of [selectionRectsToQuads] was made from. *)
Definition quadRect (q : Quad) : Rect :=
  mkRect (x (p1 q)) (x (p4 q)) (y (p1 q)) (y (p4 q)).

(** Corner names of an axis-aligned quad, y growing downwards. *)
Definition isTopLeft (q : Quad) (p : Point) : Prop :=
  x p = Math_min (Math_min (x (p1 q)) (x (p2 q))) (Math_min (x (p3 q)) (x (p4 q))) /\
  y p = Math_min (Math_min (y (p1 q)) (y (p2 q))) (Math_min (y (p3 q)) (y (p4 q))).

Definition isTopRight (q : Quad) (p : Point) : Prop :=
  x p = Math_max (Math_max (x (p1 q)) (x (p2 q))) (Math_max (x (p3 q)) (x (p4 q))) /\
  y p = Math_min (Math_min (y (p1 q)) (y (p2 q))) (Math_min (y (p3 q)) (y (p4 q))).

Definition isBottomLeft (q : Quad) (p : Point) : Prop :=
  x p = Math_min (Math_min (x (p1 q)) (x (p2 q))) (Math_min (x (p3 q)) (x (p4 q))) /\
  y p = Math_max (Math_max (y (p1 q)) (y (p2 q))) (Math_max (y (p3 q)) (y (p4 q))).

Definition isBottomRight (q : Quad) (p : Point) : Prop :=
  x p = Math_max (Math_max (x (p1 q)) (x (p2 q))) (Math_max (x (p3 q)) (x (p4 q))) /\
  y p = Math_max (Math_max (y (p1 q)) (y (p2 q))) (Math_max (y (p3 q)) (y (p4 q))).

(** The winding order of the data model. *)
Definition fixedWinding (q : Quad) : Prop :=
  isTopLeft q (p1 q) /\ isTopRight q (p2 q) /\
  isBottomLeft q (p3 q) /\ isBottomRight q (p4 q).

(** Twice the signed area of the triangle p1 p2 p3: its sign tells on which
    side of the edge p1 p2 the corner p3 lies, and no rotation changes it. *)
Definition turn (q : Quad) : Qc :=
  (x (p2 q) - x (p1 q)) * (y (p3 q) - y (p1 q))
  - (y (p2 q) - y (p1 q)) * (x (p3 q) - x (p1 q)).

(** Scaling a client rectangle about the origin of the client area. *)
Definition scaleRect (k : Qc) (r : Rect) : Rect :=
  mkRect (k * left r) (k * right r) (k * top r) (k * bottom r).

Definition scaleViewer (k : Qc) (newScale : Qc) (v : Viewer) : Viewer :=
  mkViewer (fun n => option_map (scaleRect k) (getPageContainer v n)) newScale.

(** The second test of the filter on converted rectangles, read on a
    client rectangle: its converted left and top are both below [minSize]. *)
Definition atPageOrigin (v : Viewer) (pageNumber : Z) (rect : Rect) : bool :=
  match getPageContainer v pageNumber with
  | None => false
  | Some pageRect =>
      let r := toPdfRect pageRect (getScale v) rect in
      ltb (left r) minSize && ltb (top r) minSize
  end.

(** The first test of the filter on client rectangles: less than one
    screen pixel wide or high. *)
Definition tinyOnScreen (rect : Rect) : bool :=
  ltb (right rect - left rect) 1 || ltb (bottom rect - top rect) 1.

(** The first test of the filter on converted rectangles, read on a client
    rectangle: less than [minSize] document units wide or high. *)
Definition tinyOnPage (scale : Qc) (rect : Rect) : bool :=
  ltb ((right rect - left rect) / scale) minSize
  || ltb ((bottom rect - top rect) / scale) minSize.

(** A page container of 600 by 800 pixels at (15, 40) of the client area,
    shown at 150%, and the same page at 100% with its corner at the origin
    of the client area. *)
Definition page_600_800 : Rect :=
  mkRect (Qc_of_Z 15) (Qc_of_Z 615) (Qc_of_Z 40) (Qc_of_Z 840).

Definition viewer_150 : Viewer :=
  mkViewer (fun n => if (n =? 1)%Z then Some page_600_800 else None)
           (Qc_of_Z 3 / 2).

Definition page_at_origin : Rect :=
  mkRect 0 (Qc_of_Z 600) 0 (Qc_of_Z 800).

Definition viewer_100 : Viewer :=
  mkViewer (fun n => if (n =? 1)%Z then Some page_at_origin else None) 1.

(** A selection rectangle near the top-left corner of the page: from
    (1/2, 1/2) to (50, 20). *)
Definition corner_rect : Rect :=
  mkRect (1 / 2) (Qc_of_Z 50) (1 / 2) (Qc_of_Z 20).

(** The 600 by 800 page shown at 50%, and a selection rectangle 0.8
    pixels wide on it. *)
Definition viewer_50 : Viewer :=
  mkViewer (fun n => if (n =? 1)%Z then Some (mkRect 0 (Qc_of_Z 300) 0 (Qc_of_Z 400))
                     else None)
           (1 / 2).

Definition thin_rect : Rect :=
  mkRect (Qc_of_Z 10) (Qc_of_Z 54 / Qc_of_Z 5) (Qc_of_Z 10) (Qc_of_Z 30).

(** The stroke of the specification: from (0,0) to (10,0), thickness 10. *)
Definition stroke_0_10 : list Point := [mkPoint 0 0; mkPoint (Qc_of_Z 10) 0].

Definition stroke_quad : Quad :=
  mkQuad (mkPoint 0 (- Qc_of_Z 5)) (mkPoint 0 (Qc_of_Z 5))
         (mkPoint (Qc_of_Z 10) (- Qc_of_Z 5)) (mkPoint (Qc_of_Z 10) (Qc_of_Z 5)).

(** A rectangle with its left edge left of its right edge and its top edge
    above its bottom edge. *)
Definition upright (r : Rect) : Prop := left r < right r /\ top r < bottom r.

(** Three rectangles on one line: the third bridges the gap between the
    first two, which only the second pass of the loop can use. *)
Definition bridged_line : list Rect :=
  [mkRect (Qc_of_Z 10) (Qc_of_Z 20) (Qc_of_Z 10) (Qc_of_Z 22);
   mkRect (Qc_of_Z 30) (Qc_of_Z 40) (Qc_of_Z 10) (Qc_of_Z 22);
   mkRect (Qc_of_Z 19) (Qc_of_Z 31) (Qc_of_Z 10) (Qc_of_Z 22)].

(** *** Further functions of the transformer and of its callers *)

(** An ink stroke: [{ points: [...] }]. *)
Record Stroke := mkStroke { points : list Point }.

(** [strokesToPdfCoords(strokes, pageNumber)]. *)
Definition strokesToPdfCoords (v : Viewer) (strokes : list Stroke) (pageNumber : Z)
  : list Stroke :=
  match getPageContainer v pageNumber with
  | None => []
  | Some pageRect =>
      let scale := getScale v in
      List.map (fun stroke =>
        mkStroke (List.map (fun point =>
                    mkPoint ((x point - left pageRect) / scale)
                            ((y point - top pageRect) / scale))
                  (points stroke)))
        strokes
  end.









(** The rectangle drawn for a highlight quad by [_renderHighlightSvg] and by
    [_createHighlightElement] of lib/index.js: [x], [y], [width], [height]. *)
Definition highlightRectOfQuad (quad : Quad) : Qc * Qc * Qc * Qc :=
  let x0 := Math_min (x (p1 quad)) (x (p3 quad)) in
  let y0 := Math_min (y (p1 quad)) (y (p2 quad)) in
  let width := Math_abs (x (p2 quad) - x (p1 quad)) in
  let height := Math_abs (y (p3 quad) - y (p1 quad)) in
  (x0, y0, width, height).

(** [r'] reaches at least as far as [r] on every side. *)
Definition covers (r' r : Rect) : Prop :=
  left r' <= left r /\ right r <= right r' /\ top r' <= top r /\ bottom r <= bottom r'.



(** [r] is inside some rectangle of [l]. *)
Definition coveredBy (l : list Rect) (r : Rect) : Prop :=
  exists r', In r' l /\ covers r' r.

(** Each edge of [r'] is an edge of some rectangle of [l]. *)
Definition edgesFrom (l : list Rect) (r' : Rect) : Prop :=
  (exists a, In a l /\ left r' = left a) /\ (exists a, In a l /\ right r' = right a) /\
  (exists a, In a l /\ top r' = top a) /\ (exists a, In a l /\ bottom r' = bottom a).

(** A rectangle at least [minSize] wide and high. *)
Definition sized (r : Rect) : Prop :=
  left r + minSize <= right r /\ top r + minSize <= bottom r.


End Geom.

(** ** Part 3: the find controller *)

Module Find.

(** [FindState] of find_controller.js. *)
Inductive FindState := FOUND | NOT_FOUND | WRAPPED | PENDING.

(** A match object.  [ref] is the identity of the object on the heap: two
    matches are the same object ([===], [indexOf]) when their [ref] agree;
    the other fields are the properties written by [_searchPage]. *)
Record Match := mkMatch {
  ref : nat;
  pageNumber : Z;
  startOffset : Z;
  endOffset : Z;
  text : string
}.

(** The [options] argument of [find]; [None] is a property left undefined. *)
Record FindOptions := mkOptions {
  o_caseSensitive : option bool;
  o_entireWord : option bool;
  o_highlightAll : option bool;
  o_findPrevious : option bool
}.

(** An item of [textContent.items]. *)
Record TextItem := mkItem { str : string; hasEOL : bool }.

(** The controller.  [numPages] and [visibleFirst], [visibleLast] are what
    [pdfDocument.numPages] and [getVisiblePages()] answer; [pageContents]
    keeps the [str] of each extracted page; [pending] is the rest of
    [extractionOrder] of the running [_extractTextLazily] loop, its head
    being the page awaited; [nextRef] numbers the match objects created so
    far.  Highlighting, scrolling and the [onUpdateState] callback act on
    the document tree only and are left out. *)
Record Controller := mkController {
  hasDocument : bool;
  numPages : Z;
  visibleFirst : option Z;
  visibleLast : option Z;
  pageContents : gmap Z string;
  query : string;
  caseSensitive : bool;
  entireWord : bool;
  highlightAll : bool;
  matches : list Match;
  currentMatchIndex : Z;
  state : FindState;
  extracting : bool;
  extractionComplete : bool;
  pending : list Z;
  nextRef : nat
}.

Definition with_matches (ms : list Match) (idx : Z) (nr : nat) (c : Controller) : Controller :=
  mkController (hasDocument c) (numPages c) (visibleFirst c) (visibleLast c)
    (pageContents c) (query c) (caseSensitive c) (entireWord c) (highlightAll c)
    ms idx (state c) (extracting c) (extractionComplete c) (pending c) nr.

Definition with_state (st : FindState) (c : Controller) : Controller :=
  mkController (hasDocument c) (numPages c) (visibleFirst c) (visibleLast c)
    (pageContents c) (query c) (caseSensitive c) (entireWord c) (highlightAll c)
    (matches c) (currentMatchIndex c) st (extracting c) (extractionComplete c)
    (pending c) (nextRef c).

Definition with_index (idx : Z) (c : Controller) : Controller :=
  with_matches (matches c) idx (nextRef c) c.

Definition with_search (q : string) (cs ew ha : bool) (c : Controller) : Controller :=
  mkController (hasDocument c) (numPages c) (visibleFirst c) (visibleLast c)
    (pageContents c) q cs ew ha
    (matches c) (currentMatchIndex c) (state c) (extracting c) (extractionComplete c)
    (pending c) (nextRef c).

Definition with_extraction (ex done : bool) (todo : list Z) (c : Controller) : Controller :=
  mkController (hasDocument c) (numPages c) (visibleFirst c) (visibleLast c)
    (pageContents c) (query c) (caseSensitive c) (entireWord c) (highlightAll c)
    (matches c) (currentMatchIndex c) (state c) ex done todo (nextRef c).

Definition with_contents (pc : gmap Z string) (c : Controller) : Controller :=
  mkController (hasDocument c) (numPages c) (visibleFirst c) (visibleLast c)
    pc (query c) (caseSensitive c) (entireWord c) (highlightAll c)
    (matches c) (currentMatchIndex c) (state c) (extracting c) (extractionComplete c)
    (pending c) (nextRef c).

(** [Array.prototype.sort(compare)]: a stable sort; [compare a b <= 0]
    keeps [a] in front of [b]. *)
Fixpoint sortedInsert {A} (compare : A -> A -> Z) (a : A) (l : list A) : list A :=
  match l with
  | [] => [a]
  | b :: l' => if compare a b <=? 0 then a :: b :: l'
               else b :: sortedInsert compare a l'
  end.

Fixpoint Array_sort {A} (compare : A -> A -> Z) (l : list A) : list A :=
  match l with
  | [] => []
  | a :: l' => sortedInsert compare a (Array_sort compare l')
  end.

(** [Array.prototype.indexOf] on match objects: the first position holding
    the same object, [-1] when there is none. *)
Fixpoint indexOf (m : Match) (l : list Match) : Z :=
  match l with
  | [] => -1
  | m' :: l' =>
      if Nat.eqb (ref m') (ref m) then 0
      else let i := indexOf m l' in if i <? 0 then -1 else i + 1
  end.

(** [array[i]] for a number [i]: [None] is [undefined]. *)
Definition at_index {A} (l : list A) (i : Z) : option A :=
  if i <? 0 then None else nth_error l (Z.to_nat i).

(** The comparison function of [_sortMatchesAndFixIndex]. *)
Definition compareMatches (a b : Match) : Z :=
  if negb (pageNumber a =? pageNumber b) then pageNumber a - pageNumber b
  else startOffset a - startOffset b.

(** [_sortMatchesAndFixIndex()]. *)
Definition sortMatchesAndFixIndex (c : Controller) : Controller :=
  let currentMatch :=
    if currentMatchIndex c >=? 0 then at_index (matches c) (currentMatchIndex c)
    else None in
  let sorted := Array_sort compareMatches (matches c) in
  match currentMatch with
  | Some m => with_matches sorted (indexOf m sorted) (nextRef c) c
  | None => with_matches sorted (currentMatchIndex c) (nextRef c) c
  end.

(** [_escapeRegExp]: a backslash in front of each special character. *)
Definition isRegExpSpecial (ch : ascii) : bool :=
  existsb (Ascii.eqb ch)
    ["."; "*"; "+"; "?"; "^"; "$"; "{"; "}"; "("; ")"; "|"; "["; "]"; "\"]%char.

Fixpoint escapeRegExp (s : string) : string :=
  match s with
  | EmptyString => EmptyString
  | String ch s' =>
      if isRegExpSpecial ch then String "\"%char (String ch (escapeRegExp s'))
      else String ch (escapeRegExp s')
  end.

(** [_clearMatches()]. *)
Definition clearMatches (c : Controller) : Controller :=
  with_matches [] (-1) (nextRef c) c.

(** The pages [a], [a+1], ..., [b]. *)
Definition pageRange (a b : Z) : list Z :=
  (fun i => a + Z.of_nat i) <$> seq 0 (Z.to_nat (b - a + 1)).

(** [extractionOrder] as built by [_extractTextLazily]. *)
Definition extractionOrder (c : Controller) : list Z :=
  let firstOr1 := match visibleFirst c with
                  | Some f => if f =? 0 then 1 else f | None => 1 end in
  let lastOr0 := match visibleLast c with Some l => l | None => 0 end in
  (match visibleFirst c, visibleLast c with
   | Some f, Some l => pageRange f l
   | _, _ => []
   end)
  ++ pageRange 1 (firstOr1 - 1)
  ++ pageRange (lastOr0 + 1) (numPages c).

(** The loop head of [_extractTextLazily]: pages already in [pageContents]
    are skipped without suspending; the loop then either awaits the next
    page or, the order being exhausted, marks extraction complete. *)
Fixpoint skipExtracted (pc : gmap Z string) (todo : list Z) : list Z :=
  match todo with
  | [] => []
  | p :: todo' => if bool_decide (is_Some (pc !! p)) then skipExtracted pc todo'
                  else todo
  end.

Definition continueExtraction (todo : list Z) (c : Controller) : Controller :=
  match skipExtracted (pageContents c) todo with
  | [] => with_extraction false true [] c
  | todo' => with_extraction true (extractionComplete c) todo' c
  end.

(** [_ensureTextExtraction()] with the start of [_extractTextLazily()]. *)
Definition ensureTextExtraction (c : Controller) : Controller :=
  if extracting c || extractionComplete c then c
  else if negb (hasDocument c) then c
  else continueExtraction (extractionOrder c) (with_extraction true (extractionComplete c) [] c).

(** The page string built by [_extractPage]. *)
Fixpoint pageTextOf (items : list TextItem) : string :=
  match items with
  | [] => EmptyString
  | it :: items' =>
      (str it ++ (if hasEOL it then " " else "") ++ pageTextOf items')%string
  end.

Section WithRegExp.

(** The host's regular expressions and case folding.
    [regexExecAll pattern ignoreCase s] is the list of [(index, length)] of
    the successive results of [regex.exec(s)] for the global expression made
    from [pattern], or [None] when [new RegExp] throws. *)
Variable regexExecAll : string -> bool -> string -> option (list (Z * Z)).
Variable toLowerCase : string -> string.

(** The [while] loop of [_searchPage]: one new match object per result. *)
Fixpoint pushMatches (pageNum : Z) (pageText : string) (hits : list (Z * Z))
  (ms : list Match) (nr : nat) : list Match * nat :=
  match hits with
  | [] => (ms, nr)
  | (startOffset, len) :: hits' =>
      let endOffset := startOffset + len in
      let m := mkMatch nr pageNum startOffset endOffset
                 (substring (Z.to_nat startOffset) (Z.to_nat (endOffset - startOffset))
                            pageText) in
      pushMatches pageNum pageText hits' (ms ++ [m]) (S nr)
  end.

(** [_searchPage(pageNum)]. *)
Definition searchPage (pageNum : Z) (c : Controller) : Controller :=
  match pageContents c !! pageNum with
  | None => c
  | Some pageText =>
      let q := if caseSensitive c then query c else toLowerCase (query c) in
      let searchText := if caseSensitive c then pageText else toLowerCase pageText in
      let pattern := escapeRegExp q in
      let pattern := if entireWord c then ("\b" ++ pattern ++ "\b")%string else pattern in
      match regexExecAll pattern (negb (caseSensitive c)) searchText with
      | None => c
      | Some hits =>
          let '(ms, nr) := pushMatches pageNum pageText hits (matches c) (nextRef c) in
          with_matches ms (currentMatchIndex c) nr c
      end
  end.

(** [_searchExtractedPages()]. *)
Definition searchExtractedPages (c : Controller) : Controller :=
  let c := with_matches [] (currentMatchIndex c) (nextRef c) c in
  let pageNumbers := Array_sort (fun a b => a - b) (map_to_list (pageContents c)).*1 in
  fold_left (fun c pageNum => searchPage pageNum c) pageNumbers c.

Definition isEmpty (s : string) : bool :=
  match s with EmptyString => true | _ => false end.

(** [find(query, options)]. *)
Definition find (q : string) (options : FindOptions) (c : Controller) : Controller :=
  let queryChanged := negb (String.eqb q (query c)) in
  let optionsChanged :=
    negb (bool_decide (o_caseSensitive options = Some (caseSensitive c)))
    || negb (bool_decide (o_entireWord options = Some (entireWord c))) in
  let c := with_search q (default false (o_caseSensitive options))
                         (default false (o_entireWord options))
                         (negb (bool_decide (o_highlightAll options = Some false))) c in
  if isEmpty q then with_state PENDING (clearMatches c)
  else
    let c := ensureTextExtraction c in
    if queryChanged || optionsChanged then
      let c := searchExtractedPages (clearMatches c) in
      if (0 <? Z.of_nat (length (matches c)))
      then with_state FOUND (with_index 0 c)
      else with_state (if extractionComplete c then NOT_FOUND else PENDING)
                      (with_index (-1) c)
    else
      if (0 <? Z.of_nat (length (matches c))) then
        if default false (o_findPrevious options) then
          let c := with_index (currentMatchIndex c - 1) c in
          if currentMatchIndex c <? 0
          then with_state WRAPPED (with_index (Z.of_nat (length (matches c)) - 1) c)
          else with_state FOUND c
        else
          let c := with_index (currentMatchIndex c + 1) c in
          if currentMatchIndex c >=? Z.of_nat (length (matches c))
          then with_state WRAPPED (with_index 0 c)
          else with_state FOUND c
      else c.

(** [findNext()]. *)
Definition findNext (c : Controller) : Controller :=
  find (query c)
       (mkOptions (Some (caseSensitive c)) (Some (entireWord c))
                  (Some (highlightAll c)) (Some false)) c.

(** [findPrevious()]. *)
Definition findPrevious (c : Controller) : Controller :=
  find (query c)
       (mkOptions (Some (caseSensitive c)) (Some (entireWord c))
                  (Some (highlightAll c)) (Some true)) c.

(** [setDocument(pdfDocument)] for a document of [n] pages. *)
Definition setDocument (n : Z) (c : Controller) : Controller :=
  mkController true n (visibleFirst c) (visibleLast c)
    ∅ (query c) (caseSensitive c) (entireWord c) (highlightAll c)
    [] (-1) (state c) (extracting c) false (pending c) (nextRef c).

(** The body of the extraction loop once [_extractPage(pageNum)] has
    resolved with [items]. *)
Definition pageExtracted (items : list TextItem) (c : Controller) : option Controller :=
  match pending c with
  | [] => None
  | pageNum :: todo =>
      let c := with_contents (<[pageNum := pageTextOf items]> (pageContents c)) c in
      let c :=
        if isEmpty (query c) then c
        else
          let matchCountBefore := length (matches c) in
          let c := searchPage pageNum c in
          if (matchCountBefore <? length (matches c))%nat
          then sortMatchesAndFixIndex c else c in
      Some (continueExtraction todo c)
  end.

(** The same when [_extractPage] rejects: the error is logged and the loop
    goes on. *)
Definition pageExtractionFailed (c : Controller) : option Controller :=
  match pending c with
  | [] => None
  | _ :: todo => Some (continueExtraction todo c)
  end.

Inductive Event :=
| SetDocument (n : Z)
| Scrolled (f l : option Z)
| Find (q : string) (options : FindOptions)
| FindNext
| FindPrevious
| PageExtracted (items : list TextItem)
| PageExtractionFailed.

Definition step (c : Controller) (e : Event) : option Controller :=
  match e with
  | SetDocument n => Some (setDocument n c)
  | Scrolled f l =>
      Some (mkController (hasDocument c) (numPages c) f l
              (pageContents c) (query c) (caseSensitive c) (entireWord c)
              (highlightAll c) (matches c) (currentMatchIndex c) (state c)
              (extracting c) (extractionComplete c) (pending c) (nextRef c))
  | Find q options => Some (find q options c)
  | FindNext => Some (findNext c)
  | FindPrevious => Some (findPrevious c)
  | PageExtracted items => pageExtracted items c
  | PageExtractionFailed => pageExtractionFailed c
  end.

(** The controller as its constructor leaves it. *)
Definition created : Controller :=
  mkController false 0 None None ∅ EmptyString false false true [] (-1) PENDING
               false false [] 0.

Inductive reachable : Controller -> Prop :=
| reach_created : reachable created
| reach_step c e c' : reachable c -> step c e = Some c' -> reachable c'.

(** What [_searchPage] finds on page [p] on its own, for the query and
    options of [c]; nothing is searched for an empty query. *)
Definition foundOn (c : Controller) (p : Z) : list Match :=
  if isEmpty (query c) then [] else matches (searchPage p (clearMatches c)).

(** The extraction loop fed with the text of each page it asks for, for at
    most [k] pages. *)
Fixpoint extractAll (texts : Z -> list TextItem) (k : nat) (c : Controller) : Controller :=
  match k with
  | O => c
  | S k' =>
      match pending c with
      | [] => c
      | p :: _ =>
          match pageExtracted (texts p) c with
          | Some c' => extractAll texts k' c'
          | None => c
          end
      end
  end.

End WithRegExp.

(** The order on matches: by page, then by start offset. *)
Definition matchLe (a b : Match) : Prop :=
  pageNumber a < pageNumber b \/
  (pageNumber a = pageNumber b /\ startOffset a <= startOffset b).

(** A small stand-in for the host functions, enough to run the controller:
    the expression is matched as a literal text, case is folded on the
    letters A to Z. *)
Fixpoint literalScan (pat s : string) (pos : Z) (skip : nat) : list (Z * Z) :=
  match s with
  | EmptyString => []
  | String _ s' =>
      match skip with
      | S k => literalScan pat s' (pos + 1) k
      | O => if String.prefix pat s
             then (pos, Z.of_nat (String.length pat))
                    :: literalScan pat s' (pos + 1) (String.length pat - 1)
             else literalScan pat s' (pos + 1) 0
      end
  end.

Definition literalExecAll (pattern : string) (ignoreCase : bool) (s : string)
  : option (list (Z * Z)) :=
  Some (literalScan pattern s 0 0).

Definition lowerAscii (ch : ascii) : ascii :=
  let n := nat_of_ascii ch in
  if (65 <=? n)%nat && (n <=? 90)%nat then ascii_of_nat (n + 32) else ch.

Fixpoint asciiLowerCase (s : string) : string :=
  match s with
  | EmptyString => EmptyString
  | String ch s' => String (lowerAscii ch) (asciiLowerCase s')
  end.

(** A two-page document: the visible page 2 is extracted first, then
    page 1, while the query "ab" is active. *)
Definition plainOptions : FindOptions := mkOptions (Some false) (Some false) None None.

Definition two_page_search : list Event :=
  [SetDocument 2; Scrolled (Some 2) (Some 2); Find "ab" plainOptions;
   PageExtracted [mkItem "xx ab" false];
   PageExtracted [mkItem "Ab" true; mkItem "cab" false]].

Definition run_events (regexExecAll : string -> bool -> string -> option (list (Z * Z)))
  (toLowerCase : string -> string) : Controller -> list Event -> option Controller :=
  fix go (c : Controller) (es : list Event) : option Controller :=
    match es with
    | [] => Some c
    | e :: es' => match step regexExecAll toLowerCase c e with
                  | Some c' => go c' es'
                  | None => None
                  end
    end.

(** The scenario of the specification: the match at (2,10) is current when
    two matches of page 1 are pushed behind it. *)
Definition match_2_10 : Match := mkMatch 0 2 10 12 "ab".

Definition page_1_batch : list Match := [mkMatch 1 1 5 7 "ab"; mkMatch 2 1 20 22 "ab"].

Definition before_sort : Controller :=
  with_state FOUND (with_matches ([match_2_10] ++ page_1_batch) 0 3 created).

(** The match objects pushed by the [while] loop of [_searchPage] for the
    results [hits], the first of them numbered [nr]. *)
Fixpoint newMatches (pageNum : Z) (pageText : string) (hits : list (Z * Z)) (nr : nat)
  : list Match :=
  match hits with
  | [] => []
  | (startOffset, len) :: hits' =>
      mkMatch nr pageNum startOffset (startOffset + len)
        (substring (Z.to_nat startOffset) (Z.to_nat (startOffset + len - startOffset))
                   pageText)
      :: newMatches pageNum pageText hits' (S nr)
  end.

(** What the match list of a controller has to satisfy for the highlighter:
    every match lies on an extracted page and carries the text found at its
    offsets there. *)
Definition matchInText (c : Controller) (m : Match) : Prop :=
  exists pageText,
    pageContents c !! pageNumber m = Some pageText /\
    text m = substring (Z.to_nat (startOffset m))
                       (Z.to_nat (endOffset m - startOffset m)) pageText.

(** Results of [exec] come in the order of their index. *)
Definition ascendingHits (hits : list (Z * Z)) : Prop :=
  StronglySorted (fun a b => fst a <= fst b) hits.

(** Match objects are distinct and older than the next one to be made. *)
Definition refsOk (c : Controller) : Prop :=
  List.NoDup (List.map ref (matches c)) /\
  forall m, In m (matches c) -> (ref m < nextRef c)%nat.

(** The two-page search after the text of page 2 has arrived and its match
    has been made current, and after the text of page 1 has arrived as well. *)
Definition page_2_searched : Controller :=
  default created
    (run_events literalExecAll asciiLowerCase created
       [SetDocument 2; Scrolled (Some 2) (Some 2); Find "ab" plainOptions;
        PageExtracted [mkItem "xx ab" false]; FindNext]).

Definition page_1_items : list TextItem := [mkItem "Ab" true; mkItem "cab" false].

Definition both_pages_searched : Controller :=
  default page_2_searched
    (step literalExecAll asciiLowerCase page_2_searched (PageExtracted page_1_items)).

(** A match without its identity. *)
Definition matchKey (m : Match) : Z * Z * Z * string :=
  (pageNumber m, startOffset m, endOffset m, text m).

(** The keys of [pageContents]. *)
Definition extractedPages (c : Controller) : list Z := (map_to_list (pageContents c)).*1.

(** Two controllers that search for the same thing. *)
Definition sameSearch (c c' : Controller) : Prop :=
  query c' = query c /\ caseSensitive c' = caseSensitive c /\
  entireWord c' = entireWord c.

(** The part of the controller the extraction loop works on. *)
Definition extractionState (c : Controller) : bool * bool * list Z * gmap Z string :=
  (extracting c, extractionComplete c, pending c, pageContents c).

(** The visible range lies in the document, or no page is visible. *)
Definition visibleInDocument (c : Controller) : Prop :=
  match visibleFirst c, visibleLast c with
  | Some f, Some l => 1 <= f /\ f <= l /\ l <= numPages c
  | None, None => True
  | _, _ => False
  end.

(** A document of three pages, page 2 in view, nothing extracted yet. *)
Definition three_page_document : Controller :=
  mkController true 3 (Some 2) (Some 2) ∅ EmptyString false false true [] (-1) PENDING
               false false [] 0.

Definition same_text_everywhere (p : Z) : list TextItem := [mkItem "xx ab" false].

(** *** Patterns, page text and the text layer *)

(** The text a pattern stands for when it is made of ordinary characters
    and escaped special characters only; [None] for any other pattern. *)
Fixpoint literalOf (pattern : string) : option string :=
  match pattern with
  | EmptyString => Some EmptyString
  | String ch rest =>
      if Ascii.eqb ch "\"%char then
        match rest with
        | String ch' rest' =>
            if isRegExpSpecial ch' then option_map (String ch') (literalOf rest')
            else None
        | EmptyString => None
        end
      else if isRegExpSpecial ch then None
      else option_map (String ch) (literalOf rest)
  end.

Definition strlen (s : string) : Z := Z.of_nat (String.length s).

(** [s.substring(a, b)]: both indices are clamped to the string and
    swapped when they come in the wrong order. *)
Definition js_substring (s : string) (a b : Z) : string :=
  let a := Z.max 0 (Z.min a (strlen s)) in
  let b := Z.max 0 (Z.min b (strlen s)) in
  substring (Z.to_nat (Z.min a b)) (Z.to_nat (Z.max a b - Z.min a b)) s.

(** An entry of [textItems]. *)
Record PositionedItem := mkPositioned {
  ti_str : string;
  ti_start : Z;
  ti_end : Z
}.

(** The loop of [_extractPage] over [textContent.items], with its two
    accumulators. *)
Fixpoint extractItems (items : list TextItem) (pageText : string)
  (textItems : list PositionedItem) : string * list PositionedItem :=
  match items with
  | [] => (pageText, textItems)
  | item :: items' =>
      let '(pageText, textItems) :=
        if isEmpty (str item) then (pageText, textItems)
        else ((pageText ++ str item)%string,
              textItems ++ [mkPositioned (str item) (strlen pageText)
                                         (strlen pageText + strlen (str item))]) in
      let pageText := if hasEOL item then (pageText ++ " ")%string else pageText in
      extractItems items' pageText textItems
  end.

(** [_extractPage]: the page string and the positioned items it stores. *)
Definition extractPage (items : list TextItem) : string * list PositionedItem :=
  extractItems items EmptyString [].

(** An entry of [textItems] names the place of its text in [pageText]. *)
Definition located (pageText : string) (it : PositionedItem) : Prop :=
  0 <= ti_start it /\
  ti_end it = ti_start it + strlen (ti_str it) /\
  ti_end it <= strlen pageText /\
  ti_str it <> EmptyString /\
  js_substring pageText (ti_start it) (ti_end it) = ti_str it.

(** A child node of a span of the text layer: a text node, an element
    (a highlight wrapper made by [_wrapTextInHighlight], selected or not, or
    some other element) with its [textContent], or a node of another kind. *)
Inductive Node :=
| TextNode (textContent : string)
| ElementNode (highlight : option bool) (textContent : string)
| OtherNode.

(** What [_wrapTextInHighlight] puts in the place of a text node that
    starts at [nodeStart]. *)
Definition wrapTextNode (nodeText : string) (nodeStart start end_ : Z)
  (isSelected : bool) : list Node :=
  let nodeEnd := nodeStart + strlen nodeText in
  if (nodeEnd >? start) && (nodeStart <? end_) then
    let highlightStart := Z.max 0 (start - nodeStart) in
    let highlightEnd := Z.min (strlen nodeText) (end_ - nodeStart) in
    if highlightStart <? highlightEnd then
      let before := js_substring nodeText 0 highlightStart in
      let matched := js_substring nodeText highlightStart highlightEnd in
      let after := js_substring nodeText highlightEnd (strlen nodeText) in
      (if isEmpty before then [] else [TextNode before])
      ++ [ElementNode (Some isSelected) matched]
      ++ (if isEmpty after then [] else [TextNode after])
    else [TextNode nodeText]
  else [TextNode nodeText].

(** The loop of [_wrapTextInHighlight] over the child nodes, [charOffset]
    being the number of characters passed so far. *)
Fixpoint wrapNodes (nodes : list Node) (charOffset start end_ : Z) (isSelected : bool)
  : list Node :=
  match nodes with
  | [] => []
  | TextNode nodeText :: rest =>
      wrapTextNode nodeText charOffset start end_ isSelected
      ++ wrapNodes rest (charOffset + strlen nodeText) start end_ isSelected
  | ElementNode h s :: rest =>
      ElementNode h s :: wrapNodes rest (charOffset + strlen s) start end_ isSelected
  | OtherNode :: rest => OtherNode :: wrapNodes rest charOffset start end_ isSelected
  end.

(** [_wrapTextInHighlight(span, start, end, isSelected)] on the children
    of [span]. *)
Definition wrapTextInHighlight (span : list Node) (start end_ : Z) (isSelected : bool)
  : list Node :=
  wrapNodes span 0 start end_ isSelected.

(** The characters of a span, each with the way it is shown: as plain
    text, inside a highlight wrapper, or inside another element. *)
Inductive Mark := Plain | Marked (selected : bool) | Foreign.

Definition marksOf (n : Node) : list (ascii * Mark) :=
  match n with
  | TextNode s => (fun ch => (ch, Plain)) <$> list_ascii_of_string s
  | ElementNode (Some sel) s => (fun ch => (ch, Marked sel)) <$> list_ascii_of_string s
  | ElementNode None s => (fun ch => (ch, Foreign)) <$> list_ascii_of_string s
  | OtherNode => []
  end.

Definition marks (span : list Node) : list (ascii * Mark) := flat_map marksOf span.

(** Highlighting the plain characters at the positions from [start] up to
    [end_]. *)
Definition markRange (start end_ : Z) (sel : bool) (i : nat) (x : ascii * Mark)
  : ascii * Mark :=
  match snd x with
  | Plain => if (start <=? Z.of_nat i) && (Z.of_nat i <? end_)
             then (fst x, Marked sel) else x
  | _ => x
  end.

(** The wrappers found by [querySelectorAll(".search-highlight")]. *)
Definition isHighlight (n : Node) : bool :=
  match n with ElementNode (Some _) _ => true | _ => false end.

(** [parent.normalize()]: empty text nodes go, adjacent text nodes are
    joined. *)
Fixpoint normalize (nodes : list Node) : list Node :=
  match nodes with
  | [] => []
  | TextNode s :: rest =>
      if isEmpty s then normalize rest
      else match normalize rest with
           | TextNode s' :: rest' => TextNode (s ++ s') :: rest'
           | rest' => TextNode s :: rest'
           end
  | n :: rest => n :: normalize rest
  end.

(** [parent.replaceChild(textNode, highlight)] for the first wrapper. *)
Fixpoint unwrapFirst (nodes : list Node) : list Node :=
  match nodes with
  | [] => []
  | ElementNode (Some sel) s :: rest => TextNode s :: rest
  | n :: rest => n :: unwrapFirst rest
  end.

(** [_clearPageHighlights] on the children of one span: each wrapper, in
    document order, is replaced by a text node and the span normalized. *)
Definition clearHighlights (span : list Node) : list Node :=
  Nat.iter (length (List.filter isHighlight span))
           (fun nodes => normalize (unwrapFirst nodes)) span.

(** [normalize] one node at a time. *)
Definition joinNode (n : Node) (rest : list Node) : list Node :=
  match n with
  | TextNode s =>
      if isEmpty s then rest
      else match rest with
           | TextNode s' :: rest' => TextNode (s ++ s') :: rest'
           | _ => TextNode s :: rest
           end
  | _ => n :: rest
  end.

(** Every wrapper replaced by a text node. *)
Definition unwrapAll (nodes : list Node) : list Node :=
  List.map (fun n => match n with
                     | ElementNode (Some _) s => TextNode s
                     | _ => n
                     end) nodes.

(** A span in normal form. *)
Fixpoint isNormal (nodes : list Node) : bool :=
  match nodes with
  | [] => true
  | TextNode s :: rest =>
      negb (isEmpty s)
      && match rest with TextNode _ :: _ => false | _ => true end
      && isNormal rest
  | _ :: rest => isNormal rest
  end.

Definition unmark (x : ascii * Mark) : ascii * Mark :=
  match snd x with Marked _ => (fst x, Plain) | _ => x end.

(** The body of the inner loop of [_updateHighlights] for one span and
    its text item. *)
Definition highlightInSpan (m : Match) (isCurrentMatch : bool) (item : PositionedItem)
  (span : list Node) : list Node :=
  let spanStart := ti_start item in
  let spanEnd := ti_end item in
  if (spanEnd >? startOffset m) && (spanStart <? endOffset m) then
    let highlightStart := Z.max 0 (startOffset m - spanStart) in
    let highlightEnd := Z.min (strlen (ti_str item)) (endOffset m - spanStart) in
    wrapTextInHighlight span highlightStart highlightEnd isCurrentMatch
  else span.

(** The inner loop, [i] running while [i < spans.length] and
    [i < textItems.length]. *)
Fixpoint highlightMatch (m : Match) (isCurrentMatch : bool)
  (textItems : list PositionedItem) (spans : list (list Node)) : list (list Node) :=
  match textItems, spans with
  | item :: textItems', span :: spans' =>
      highlightInSpan m isCurrentMatch item span
      :: highlightMatch m isCurrentMatch textItems' spans'
  | _, _ => spans
  end.

(** [_updateHighlights(pageNum)] on the spans of the text layer of the
    page, each given by its child nodes; [textItems] are the entries stored
    with the text of the page. *)
Definition updateHighlights (c : Controller) (pageNum : Z)
  (textItems : list PositionedItem) (spans : list (list Node)) : list (list Node) :=
  let spans := clearHighlights <$> spans in
  if negb (highlightAll c) || isEmpty (query c) then spans
  else
    match pageContents c !! pageNum with
    | None => spans
    | Some _ =>
        let pageMatches := List.filter (fun m => pageNumber m =? pageNum) (matches c) in
        fold_left
          (fun spans m =>
             highlightMatch m (indexOf m (matches c) =? currentMatchIndex c)
                            textItems spans)
          pageMatches spans
    end.

(** The match at position [pos] of the text of a page. *)
Definition covers (pos : Z) (m : Match) : bool :=
  (startOffset m <=? pos) && (pos <? endOffset m).

(** How the character at [pos] of page [pageNum] is to be shown: in a
    wrapper when a match of the page covers it, selected when the first
    such match is the current one. *)
Definition markAt (c : Controller) (pageNum : Z) (pos : Z) : Mark :=
  match List.find (fun m => (pageNumber m =? pageNum) && covers pos m) (matches c) with
  | Some m => Marked (indexOf m (matches c) =? currentMatchIndex c)
  | None => Plain
  end.

(** The characters of a text item, shown as [k] says. *)
Definition shownAs (k : Z -> Mark) (item : PositionedItem) : list (ascii * Mark) :=
  imap (fun j ch => (ch, k (ti_start item + Z.of_nat j)))
       (list_ascii_of_string (ti_str item)).

(** The text items of page 1 of the two-page search and a fresh text
    layer for them. *)
Definition page_1_text_items : list PositionedItem := snd (extractPage page_1_items).

Definition page_1_spans : list (list Node) :=
  (fun it => [TextNode (ti_str it)]) <$> page_1_text_items.

End Find.

(** ** Part 4: what the viewer reads from the page layout *)

Module Viewport.

(** The place of a page container in the scroll container ([offsetTop],
    [offsetHeight]). *)
Record PageBox := mkPageBox { offsetTop : Qc; offsetHeight : Qc }.

(** The scroll container as [getVisiblePages] reads it: the page
    containers, [pageCount], [scrollTop], the height of the bounding
    rectangle and the scroll direction recorded by [_onScroll]. *)
Record Container := mkContainer {
  pages : gmap Z PageBox;
  pageCount : Z;
  scrollTop : Qc;
  height : Qc;
  scrollDirection : string
}.

(** [pageBottom > scrollTop && pageTop < scrollBottom]. *)
Definition intersects (v : Container) (pd : PageBox) : bool :=
  Geom.ltb (scrollTop v) (offsetTop pd + offsetHeight pd)%Qc
  && Geom.ltb (offsetTop pd) (scrollTop v + height v)%Qc.

(** The [for] loop of [getVisiblePages], [n] pages being left to look at. *)
Fixpoint visibleLoop (v : Container) (n : nat) (pageNum : Z) (first last : option Z)
  : option Z * option Z :=
  match n with
  | O => (first, last)
  | S n' =>
      match pages v !! pageNum with
      | None => visibleLoop v n' (pageNum + 1) first last
      | Some pageData =>
          if intersects v pageData then
            visibleLoop v n' (pageNum + 1)
              (match first with None => Some pageNum | Some _ => first end)
              (Some pageNum)
          else
            match first with
            | Some _ => (first, last)
            | None => visibleLoop v n' (pageNum + 1) first last
            end
      end
  end.

(** [getVisiblePages()]. *)
Definition getVisiblePages (v : Container) : Render.VisiblePages :=
  if bool_decide (height v = 0%Qc)
  then Render.mkVisible (Some 1) (Some 1) (scrollDirection v)
  else
    let '(first, last) := visibleLoop v (Z.to_nat (pageCount v)) 1 None None in
    Render.mkVisible (Some (default 1 first))
                     (Some (default (default 1 first) last))
                     (scrollDirection v).

(** Page [p] meets the visible area. *)
Definition inView (v : Container) (p : Z) : bool :=
  match pages v !! p with
  | Some pd => intersects v pd
  | None => false
  end.

(** The pages lie one below the other. *)
Definition stacked (v : Container) : Prop :=
  (forall p pd, pages v !! p = Some pd -> (0 <= offsetHeight pd)%Qc) /\
  (forall p q pd qd, pages v !! p = Some pd -> pages v !! q = Some qd -> p < q ->
     (offsetTop pd + offsetHeight pd <= offsetTop qd)%Qc).

(** Three pages of height 100 with a gap of 10, the view showing the end
    of page 1 and the start of page 2. *)
Definition three_pages : Container :=
  mkContainer
    (<[1 := mkPageBox 0 (Qc_of_Z 100)]>
       (<[2 := mkPageBox (Qc_of_Z 110) (Qc_of_Z 100)]>
          (<[3 := mkPageBox (Qc_of_Z 220) (Qc_of_Z 100)]> ∅)))
    3 (Qc_of_Z 50) (Qc_of_Z 120) "down".

(** The bounding rectangles [getCurrentPage] reads: of the page
    containers and of the scroll container. *)
Record Rects := mkRects {
  hasDocument : bool;
  r_pageCount : Z;
  pageRects : gmap Z (Qc * Qc);
  containerTop : Qc;
  containerBottom : Qc
}.

(** The height of the part of a page rectangle that lies in the container. *)
Definition visibleHeight (r : Rects) (pageRect : Qc * Qc) : Qc :=
  let visibleTop := Geom.Math_max (fst pageRect) (containerTop r) in
  let visibleBottom := Geom.Math_min (snd pageRect) (containerBottom r) in
  Geom.Math_max 0 (visibleBottom - visibleTop)%Qc.

(** The [for] loop of [getCurrentPage]. *)
Fixpoint currentLoop (r : Rects) (n : nat) (pageNum : Z) (bestPage : Z)
  (bestVisibleArea : Qc) : Z :=
  match n with
  | O => bestPage
  | S n' =>
      match pageRects r !! pageNum with
      | None => currentLoop r n' (pageNum + 1) bestPage bestVisibleArea
      | Some pageRect =>
          let h := visibleHeight r pageRect in
          let better := Geom.ltb bestVisibleArea h in
          let bestPage := if better then pageNum else bestPage in
          let bestVisibleArea := if better then h else bestVisibleArea in
          if Geom.ltb (containerBottom r) (fst pageRect) then bestPage
          else currentLoop r n' (pageNum + 1) bestPage bestVisibleArea
      end
  end.

(** [getCurrentPage()]. *)
Definition getCurrentPage (r : Rects) : Z :=
  if negb (hasDocument r) || (r_pageCount r =? 0) then 1
  else currentLoop r (Z.to_nat (r_pageCount r)) 1 1 0%Qc.

(** The visible height of page [p], 0 for a page without a container. *)
Definition shown (r : Rects) (p : Z) : Qc :=
  match pageRects r !! p with
  | Some pageRect => visibleHeight r pageRect
  | None => 0%Qc
  end.

(** What the loop of [getCurrentPage] knows when it reaches [pageNum]. *)
Definition bestSoFar (r : Rects) (pageNum bestPage : Z) (best : Qc) : Prop :=
  (0 <= best)%Qc /\
  (forall p, 1 <= p < pageNum -> (shown r p <= best)%Qc) /\
  ((best = 0%Qc /\ bestPage = 1) \/
   (1 <= bestPage < pageNum /\ shown r bestPage = best /\ (0 < best)%Qc /\
    forall p, 1 <= p < bestPage -> (shown r p < best)%Qc)).

(** The page rectangles come from top to bottom. *)
Definition descending (r : Rects) : Prop :=
  forall p q pr qr, pageRects r !! p = Some pr -> pageRects r !! q = Some qr -> p < q ->
    (fst pr <= fst qr)%Qc.

(** The same three pages seen on the screen, the container reaching from
    50 to 170. *)
Definition three_rects : Rects :=
  mkRects true 3
    (<[1 := (0%Qc, Qc_of_Z 100)]>
       (<[2 := (Qc_of_Z 110, Qc_of_Z 210)]>
          (<[3 := (Qc_of_Z 220, Qc_of_Z 320)]> ∅)))
    (Qc_of_Z 50) (Qc_of_Z 170).





End Viewport.

(** * Properties *)

(** ** The rendering queue *)

Section RenderFacts.

Import Render.

Lemma find_app_orElse {A} (f : A -> bool) (l k : list A) :
  List.find f (l ++ k) = orElse (List.find f l) (List.find f k).
Proof.
  induction l as [|a l IH]; simpl; [reflexivity|].
  destruct (f a); [reflexivity|exact IH].
Qed.

Lemma range_shift (a : Z) (n : nat) :
  (fun i => a + Z.of_nat i) <$> seq 1 n = (fun i => (a + 1) + Z.of_nat i) <$> seq 0 n.
Proof.
  rewrite <- (fmap_S_seq 0 n), <- list_fmap_compose.
  apply list_fmap_ext. intros i k _. simpl. lia.
Qed.

Lemma scanUp_find s n : forall page last,
  n = Z.to_nat (last - page + 1) ->
  scanUp s n page last =
  List.find (fun p => negb (isPageRendered s p))
            ((fun i => page + Z.of_nat i) <$> seq 0 n).
Proof.
  induction n as [|n IH]; intros page last Hn; [reflexivity|].
  cbn [scanUp seq fmap list_fmap List.find].
  replace (page <=? last) with true by (symmetry; apply Z.leb_le; lia).
  replace (page + Z.of_nat 0) with page by lia.
  destruct (negb (isPageRendered s page)); [reflexivity|].
  rewrite (IH (page + 1) last) by lia.
  f_equal. symmetry. apply range_shift.
Qed.

Lemma rev_range (first : Z) (n : nat) :
  rev ((fun i => first + Z.of_nat i) <$> seq 0 n) =
  (fun i => (first + Z.of_nat n - 1) - Z.of_nat i) <$> seq 0 n.
Proof.
  induction n as [|n IH]; [reflexivity|].
  rewrite seq_S at 1. rewrite fmap_app, rev_app_distr. simpl rev. simpl app.
  rewrite IH. cbn [seq fmap list_fmap]. f_equal; [lia|].
  rewrite <- (fmap_S_seq 0 n), <- list_fmap_compose.
  apply list_fmap_ext. intros i k _. simpl. lia.
Qed.

Lemma scanDown_find s n : forall page first,
  n = Z.to_nat (page - first + 1) ->
  scanDown s n page first =
  List.find (fun p => negb (isPageRendered s p))
            ((fun i => page - Z.of_nat i) <$> seq 0 n).
Proof.
  induction n as [|n IH]; intros page first Hn; [reflexivity|].
  cbn [scanDown seq fmap list_fmap List.find].
  replace (page >=? first) with true by (symmetry; apply Z.geb_le; lia).
  replace (page - Z.of_nat 0) with page by lia.
  destruct (negb (isPageRendered s page)); [reflexivity|].
  rewrite (IH (page - 1) first) by lia.
  f_equal. rewrite <- (fmap_S_seq 0 n), <- list_fmap_compose.
  apply list_fmap_ext. intros i k _. simpl. lia.
Qed.

Lemma scanAfter_find s last :
  1 <= last + 1 ->
  scanAfter s (Z.to_nat preRenderCount) 1 last =
  List.find (fun p => negb (isPageRendered s p))
            (List.filter (inDocument (pageCount s)) [last + 1; last + 2]).
Proof.
  intros Hl. change (Z.to_nat preRenderCount) with 2%nat.
  unfold inDocument. cbn [scanAfter List.filter].
  change (1 <=? preRenderCount) with true. change (1 + 1 <=? preRenderCount) with true.
  replace (1 <=? last + 1) with true by (symmetry; apply Z.leb_le; lia).
  replace (1 <=? last + 2) with true by (symmetry; apply Z.leb_le; lia).
  replace (last + (1 + 1)) with (last + 2) by lia.
  cbn [andb].
  destruct (last + 1 <=? pageCount s), (last + 2 <=? pageCount s);
    cbn [andb List.find];
    repeat (destruct (negb (isPageRendered s _)); try reflexivity);
    reflexivity.
Qed.

Lemma scanBefore_find s first :
  first - 1 <= pageCount s ->
  scanBefore s (Z.to_nat preRenderCount) 1 first =
  List.find (fun p => negb (isPageRendered s p))
            (List.filter (inDocument (pageCount s)) [first - 1; first - 2]).
Proof.
  intros Hf. change (Z.to_nat preRenderCount) with 2%nat.
  unfold inDocument. cbn [scanBefore List.filter].
  change (1 <=? preRenderCount) with true. change (1 + 1 <=? preRenderCount) with true.
  replace (first - 1 <=? pageCount s) with true by (symmetry; apply Z.leb_le; lia).
  replace (first - 2 <=? pageCount s) with true by (symmetry; apply Z.leb_le; lia).
  replace (first - (1 + 1)) with (first - 2) by lia.
  rewrite !Z.geb_leb, !andb_true_r.
  destruct (1 <=? first - 1), (1 <=? first - 2);
    cbn [andb List.find];
    repeat (destruct (negb (isPageRendered s _)); try reflexivity);
    reflexivity.
Qed.

(** C3. In the ten-page scenario the pages are rendered in the order
    4, 5, 6, 7, 8, 3, 2, after which no render is in flight and the idle
    timer is armed and fires; and in general the page selected is the first
    unsatisfied page of the scan order "visible range in scroll direction,
    then two pages after, then two pages before, inside the document". *)
Theorem C3_scan_order :
  (exists s, run (loaded 10 1%Qc view_4_6) scenario_events = Some s /\
             renderLog s = [4; 5; 6; 7; 8; 3; 2] /\
             inflight s = [] /\ idleTimeout s = true /\
             getHighestPriorityPage s None = None /\
             (idleCalls <$> step s IdleTimer) = Some 1%nat) /\
  (forall s vp f l,
      hasViewer s = true -> first vp = Some f -> last vp = Some l ->
      1 <= f -> f <= l -> l <= pageCount s ->
      getHighestPriorityPage s (Some vp) =
      List.find (fun p => negb (isPageRendered s p))
                (scanOrder (pageCount s) f l (scrollDirection vp))).
Proof.
  split.
  - eexists. split; [vm_compute; reflexivity|]. vm_compute. repeat split; reflexivity.
  - intros s vp f l Hv Hf Hl H1 Hfl Hn.
    unfold getHighestPriorityPage, scanOrder. rewrite Hv, Hf, Hl. cbn [negb].
    rewrite !find_app_orElse.
    rewrite (scanAfter_find s l), (scanBefore_find s f) by lia.
    f_equal.
    destruct (String.eqb (scrollDirection vp) "down").
    + apply scanUp_find. reflexivity.
    + rewrite rev_range.
      replace (f + Z.of_nat (Z.to_nat (l - f + 1)) - 1) with l by lia.
      apply scanDown_find. reflexivity.
Qed.

(** C3 at a concrete queue: three pages, page 2 in view, scrolling up. *)
Lemma C3_scan_order_witness :
  getHighestPriorityPage (loaded 3 1%Qc (mkVisible (Some 2) (Some 2) "up"))
                         (Some (mkVisible (Some 2) (Some 2) "up")) =
  List.find (fun p => negb (isPageRendered (loaded 3 1%Qc (mkVisible (Some 2) (Some 2) "up")) p))
            (scanOrder 3 2 2 "up").
Proof.
  apply (proj2 C3_scan_order (loaded 3 1%Qc (mkVisible (Some 2) (Some 2) "up"))
               (mkVisible (Some 2) (Some 2) "up") 2 2);
    first [reflexivity | simpl; lia].
Defined.

Lemma takeTask_split p ts ph rest :
  takeTask p ts = Some (ph, rest) ->
  exists l1 l2, ts = l1 ++ mkTask p ph :: l2 /\ rest = l1 ++ l2.
Proof.
  revert rest; induction ts as [|t ts IH]; intros rest H; simpl in H; [discriminate|].
  case_bool_decide as Hp.
  - injection H as <- <-. exists [], ts. destruct t; simpl in *; subst. split; reflexivity.
  - destruct (takeTask p ts) as [[ph' rest']|]; [|discriminate].
    injection H as -> <-. destruct (IH _ eq_refl) as (l1 & l2 & -> & ->).
    exists (t :: l1), l2. split; reflexivity.
Qed.

Lemma active_app ts1 ts2 : active (ts1 ++ ts2) = active ts1 ++ active ts2.
Proof. unfold active. now rewrite list.filter_app, fmap_app. Qed.

Lemma active_cons t ts :
  active (t :: ts) = if decide (t_phase t <> Returned) then t_page t :: active ts
                     else active ts.
Proof. unfold active. rewrite list.filter_cons. now destruct (decide _). Qed.

Lemma running_insert s p pd q f :
  pages s !! p = Some pd ->
  running (with_pages (fun m => <[p := f pd]> m) s) q <->
  (if decide (p = q) then renderingState (f pd) = RUNNING else running s q).
Proof.
  intros Hp. unfold running. simpl. destruct (decide (p = q)) as [->|Hne].
  - rewrite lookup_insert_eq. simpl. split; congruence.
  - now rewrite lookup_insert_ne.
Qed.

Lemma consistent_ext s s' :
  pages s' = pages s -> activePages s' = activePages s ->
  consistent s -> consistent s'.
Proof.
  unfold consistent, running. intros -> ->. trivial.
Qed.

Lemma renderHighestPriority_consistent vp s :
  consistent s -> consistent (renderHighestPriority vp s).
Proof.
  intros Hc. unfold renderHighestPriority.
  destruct (hasViewer s); cbn [negb]; [|exact Hc].
  destruct (getHighestPriorityPage _ vp) as [p|];
    [|now apply (consistent_ext s)].
  unfold renderPage_begin. cbn [pages with_highest with_idleTimeout displayScale].
  destruct (pages s !! p) as [pd|] eqn:Hp.
  2:{ apply (consistent_ext s); [reflexivity| |exact Hc].
      unfold activePages. cbn [inflight with_inflight with_highest with_idleTimeout].
      rewrite active_app, active_cons. cbn. now rewrite app_nil_r. }
  case_bool_decide as Hrun.
  { apply (consistent_ext s); [reflexivity| |exact Hc].
    unfold activePages. cbn [inflight with_inflight with_highest with_idleTimeout].
    rewrite active_app, active_cons. cbn. now rewrite app_nil_r. }
  destruct (bool_decide (renderingState pd = FINISHED) &&
            bool_decide (renderedScale pd = Some (displayScale s))).
  { apply (consistent_ext s); [reflexivity| |exact Hc].
    unfold activePages. cbn [inflight with_inflight with_highest with_idleTimeout].
    rewrite active_app, active_cons. cbn. now rewrite app_nil_r. }
  destruct Hc as [Hnd Hiff].
  assert (Hnot : p ∉ activePages s).
  { rewrite <- Hiff. unfold running. rewrite Hp. simpl. congruence. }
  assert (Hact : forall ph, ph <> Returned ->
            active (inflight s ++ [mkTask p ph]) = activePages s ++ [p]).
  { intros ph Hph. rewrite active_app, active_cons. cbn [t_phase t_page].
    destruct (decide (ph <> Returned)); [reflexivity|contradiction]. }
  assert (Hgoal : forall ph, ph <> Returned ->
    consistent
      (with_inflight
         (inflight (log_render p (setRenderingState p RUNNING
                                    (with_highest (Some p) (with_idleTimeout false s))))
          ++ [mkTask p ph])
         (log_render p (setRenderingState p RUNNING
                          (with_highest (Some p) (with_idleTimeout false s)))))).
  { intros ph Hph. split.
    - unfold activePages. cbn [inflight with_inflight log_render setRenderingState
                               with_pages with_highest with_idleTimeout].
      rewrite (Hact ph Hph). apply list.NoDup_app. repeat split; [exact Hnd| |apply list.NoDup_singleton].
      intros q Hq ->%list_elem_of_singleton. contradiction.
    - intros q. unfold activePages, running.
      cbn [inflight pages with_inflight log_render setRenderingState
           with_pages with_highest with_idleTimeout].
      rewrite (Hact ph Hph), Hp, elem_of_app, list_elem_of_singleton.
      destruct (decide (p = q)) as [->|Hne].
      + rewrite lookup_insert_eq. simpl. split; [now right|reflexivity].
      + rewrite lookup_insert_ne by exact Hne. fold (running s q). rewrite Hiff.
        split; [now left|]. intros [H|H]; [exact H|congruence]. }
  destruct (pageLoaded pd); apply Hgoal; discriminate.
Qed.

Lemma consistent_perm s s' :
  (forall q, running s' q <-> running s q) ->
  activePages s' ≡ₚ activePages s ->
  consistent s -> consistent s'.
Proof.
  intros Hrun Hperm [Hnd Hiff]. split.
  - now rewrite Hperm.
  - intros q. now rewrite Hrun, Hperm.
Qed.

Lemma consistent_remove s s' p ph l1 l2 :
  ph <> Returned ->
  inflight s = l1 ++ mkTask p ph :: l2 ->
  activePages s' = active (l1 ++ l2) ->
  (forall q, running s' q <-> running s q /\ q <> p) ->
  consistent s -> consistent s'.
Proof.
  intros Hph Hin Hact Hrun [Hnd Hiff].
  unfold activePages in Hnd, Hiff. rewrite Hin, active_app, active_cons in Hnd, Hiff.
  cbn [t_phase t_page] in Hnd, Hiff.
  destruct (decide (ph <> Returned)); [|contradiction].
  apply list.NoDup_app in Hnd as (Hnd1 & Hdisj & Hnd2).
  apply list.NoDup_cons in Hnd2 as [Hp2 Hnd2].
  assert (Hp1 : p ∉ active l1).
  { intros H. apply (Hdisj p H). now left. }
  split.
  - rewrite Hact, active_app. apply list.NoDup_app. repeat split; [exact Hnd1| |exact Hnd2].
    intros q Hq Hq2. apply (Hdisj q Hq). now right.
  - intros q. rewrite Hrun, Hiff, Hact, active_app, !elem_of_app, list.elem_of_cons.
    split.
    + intros [[H|[H|H]] Hne]; [now left|congruence|now right].
    + intros [H|H]; (split; [tauto|]); intros ->; contradiction.
Qed.

Lemma running_set_state s p st q :
  st <> RUNNING ->
  running (setRenderingState p st s) q <-> running s q /\ q <> p.
Proof.
  intros Hst. unfold running, setRenderingState. cbn [pages with_pages].
  destruct (pages s !! p) as [pd|] eqn:Hp.
  - destruct (decide (p = q)) as [->|Hne].
    + rewrite lookup_insert_eq. simpl. split; [congruence|tauto].
    + rewrite lookup_insert_ne by exact Hne. split; [intros H; split; congruence|tauto].
  - split; [|tauto]. intros H. split; [exact H|]. intros ->. rewrite Hp in H. discriminate.
Qed.

Lemma running_finish s p sc q :
  running (finishPage p sc s) q <-> running s q /\ q <> p.
Proof.
  unfold running, finishPage. cbn [pages with_pages].
  destruct (pages s !! p) as [pd|] eqn:Hp.
  - destruct (decide (p = q)) as [->|Hne].
    + rewrite lookup_insert_eq. simpl. split; [congruence|tauto].
    + rewrite lookup_insert_ne by exact Hne. split; [intros H; split; congruence|tauto].
  - split; [|tauto]. intros H. split; [exact H|]. intros ->. rewrite Hp in H. discriminate.
Qed.

Lemma running_markLoaded s p q : running (markLoaded p s) q <-> running s q.
Proof.
  unfold running, markLoaded. cbn [pages with_pages].
  destruct (pages s !! p) as [pd|] eqn:Hp; [|reflexivity].
  destruct (decide (p = q)) as [->|Hne].
  - rewrite lookup_insert_eq, Hp. reflexivity.
  - now rewrite lookup_insert_ne.
Qed.

Lemma step_consistent s e s' :
  consistent s -> step s e = Some s' -> consistent s'.
Proof.
  intros Hc Hstep. destruct e as [vp| |vp|sc|p|p|p|]; simpl in Hstep.
  - injection Hstep as <-. now apply renderHighestPriority_consistent.
  - injection Hstep as <-. apply renderHighestPriority_consistent.
    now apply (consistent_ext s).
  - injection Hstep as <-. now apply renderHighestPriority_consistent.
  - case_bool_decide; injection Hstep as <-; [exact Hc|].
    apply renderHighestPriority_consistent. now apply (consistent_ext s).
  - destruct (takeTask p (inflight s)) as [[[| |sc] rest]|] eqn:Ht; try discriminate.
    injection Hstep as <-. apply takeTask_split in Ht as (l1 & l2 & Hin & ->).
    apply (consistent_perm s); [apply running_markLoaded| |exact Hc].
    unfold activePages. cbn [inflight with_inflight markLoaded with_pages].
    rewrite Hin, !active_app, !active_cons. cbn [t_phase t_page].
    rewrite !decide_True by discriminate. change (active []) with (@nil Z).
    rewrite <- app_assoc. apply Permutation_app_head.
    symmetry. apply Permutation_cons_append.
  - destruct (takeTask p (inflight s)) as [[[| |sc] rest]|] eqn:Ht; try discriminate;
      injection Hstep as <-; apply takeTask_split in Ht as (l1 & l2 & Hin & ->);
      apply renderHighestPriority_consistent.
    + apply (consistent_ext s); [reflexivity| |exact Hc].
      unfold activePages. cbn [inflight with_inflight with_highest].
      rewrite Hin, !active_app, !active_cons. reflexivity.
    + apply (consistent_remove s _ p (Drawing sc) l1 l2);
        [discriminate|exact Hin|reflexivity| |exact Hc].
      intros q. apply running_finish.
  - destruct (takeTask p (inflight s)) as [[[| |sc] rest]|] eqn:Ht; try discriminate;
      injection Hstep as <-; apply takeTask_split in Ht as (l1 & l2 & Hin & ->).
    + apply (consistent_remove s _ p Fetching l1 l2);
        [discriminate|exact Hin|reflexivity| |exact Hc].
      intros q. now apply running_set_state.
    + apply (consistent_remove s _ p (Drawing sc) l1 l2);
        [discriminate|exact Hin|reflexivity| |exact Hc].
      intros q. now apply running_set_state.
  - destruct (idleTimeout s); [|discriminate]. injection Hstep as <-.
    now apply (consistent_ext s).
Qed.

Lemma placeholders_initial n p pd :
  placeholders n !! p = Some pd -> renderingState pd = INITIAL.
Proof.
  induction n as [|n IH]; cbn [placeholders].
  - rewrite lookup_empty. discriminate.
  - destruct (decide (Z.of_nat (S n) = p)) as [<-|Hne].
    + rewrite lookup_insert_eq. now intros [= <-].
    + rewrite lookup_insert_ne by exact Hne. exact IH.
Qed.

Lemma reachable_consistent s : reachable s -> consistent s.
Proof.
  induction 1 as [n sc vp|s e s' _ IH Hstep].
  - split; [apply base.NoDup_nil_2|].
    intros p. unfold running, activePages. cbn. split.
    + destruct (placeholders n !! p) as [pd|] eqn:Hp; [|discriminate].
      apply placeholders_initial in Hp. simpl. congruence.
    + intros H. inversion H.
  - exact (step_consistent _ _ _ IH Hstep).
Qed.

Lemma elem_of_runningPages s p : p ∈ runningPages s <-> running s p.
Proof.
  unfold runningPages, running. rewrite list_elem_of_filter. split; [tauto|].
  intros H. split; [exact H|].
  destruct (pages s !! p) as [pd|] eqn:Hp; [|discriminate].
  apply list_elem_of_fmap. exists (p, pd). split; [reflexivity|].
  now apply elem_of_map_to_list.
Qed.

Lemma renderHighestPriority_inflight vp s :
  (length (inflight (renderHighestPriority vp s)) <= S (length (inflight s)))%nat.
Proof.
  unfold renderHighestPriority. destruct (hasViewer s); cbn [negb]; [|lia].
  destruct (getHighestPriorityPage _ vp) as [p|]; [|cbn; lia].
  unfold renderPage_begin. cbn [pages with_highest with_idleTimeout].
  destruct (pages s !! p) as [pd|]; [|cbn; rewrite length_app; cbn; lia].
  destruct (bool_decide (renderingState pd = RUNNING));
    [cbn; rewrite length_app; cbn; lia|].
  destruct (_ && _); [cbn; rewrite length_app; cbn; lia|].
  destruct (pageLoaded pd); cbn; rewrite length_app; cbn; lia.
Qed.

Lemma reachableSerially_reachable s : reachableSerially s -> reachable s.
Proof.
  induction 1 as [n sc vp|s e s' _ IH _ Hstep]; [apply reach_loaded|].
  eapply reach_step; eassumption.
Qed.

Lemma reachableSerially_inflight s :
  reachableSerially s -> (length (inflight s) <= 1)%nat.
Proof.
  induction 1 as [n sc vp|s e s' _ IH Hquiet Hstep]; [cbn; lia|].
  destruct e as [vp| |vp|sc|p|p|p|]; simpl in Hstep, Hquiet.
  - injection Hstep as <-. pose proof (renderHighestPriority_inflight (Some vp) s) as H.
    rewrite (Hquiet eq_refl) in H. exact H.
  - injection Hstep as <-.
    pose proof (renderHighestPriority_inflight (Some (visible s)) s) as H.
    rewrite (Hquiet eq_refl) in H. exact H.
  - injection Hstep as <-.
    pose proof (renderHighestPriority_inflight (Some vp) (with_visible vp s)) as H.
    cbn [inflight with_visible] in H. rewrite (Hquiet eq_refl) in H. exact H.
  - case_bool_decide as Hsc; injection Hstep as <-; [exact IH|].
    pose proof (renderHighestPriority_inflight
                  (Some (visible (with_displayScale sc s))) (with_displayScale sc s)) as Hlen.
    cbn [inflight with_displayScale] in Hlen. rewrite (Hquiet eq_refl) in Hlen. exact Hlen.
  - destruct (takeTask p (inflight s)) as [[[| |sc] rest]|] eqn:Ht; try discriminate.
    injection Hstep as <-. apply takeTask_split in Ht as (l1 & l2 & Hin & ->).
    rewrite Hin in IH. cbn [inflight with_inflight]. rewrite !length_app in *. cbn in *. lia.
  - destruct (takeTask p (inflight s)) as [[[| |sc] rest]|] eqn:Ht; try discriminate;
      injection Hstep as <-; apply takeTask_split in Ht as (l1 & l2 & Hin & ->);
      rewrite Hin in IH; rewrite !length_app in IH; cbn in IH;
      match goal with
      | |- (length (inflight (renderHighestPriority ?vp ?x)) <= 1)%nat =>
          pose proof (renderHighestPriority_inflight vp x) as H;
          cbn [inflight with_highest with_inflight finishPage with_pages] in H;
          rewrite length_app in H
      end; lia.
  - destruct (takeTask p (inflight s)) as [[[| |sc] rest]|] eqn:Ht; try discriminate;
      injection Hstep as <-; apply takeTask_split in Ht as (l1 & l2 & Hin & ->);
      rewrite Hin in IH; rewrite !length_app in IH; cbn in IH;
      cbn [inflight with_highest with_inflight]; rewrite length_app; lia.
  - destruct (idleTimeout s); [|discriminate]. now injection Hstep as <-.
Qed.

Lemma active_length ts : (length (active ts) <= length ts)%nat.
Proof. unfold active. rewrite length_fmap. apply list.length_filter. Qed.

(** C2 (amended). In every reachable state no page has two renders at
    work: the suspended renders work on distinct pages, and the pages in
    state RUNNING are exactly those pages, each counted once.  Their number
    is at most one in the states reached without starting a scheduling pass
    while a render is awaited; nothing bounds it by one otherwise. *)
Theorem C2_one_render_per_page s :
  reachable s ->
  NoDup (activePages s) /\
  (forall p, running s p <-> p ∈ activePages s) /\
  runningPages s ≡ₚ activePages s /\
  (reachableSerially s -> (length (runningPages s) <= 1)%nat).
Proof.
  intros Hr. destruct (reachable_consistent s Hr) as [Hnd Hiff].
  assert (Hperm : runningPages s ≡ₚ activePages s).
  { apply NoDup_Permutation; [|exact Hnd|].
    - apply list.NoDup_filter, NoDup_fst_map_to_list.
    - intros p. now rewrite elem_of_runningPages, Hiff. }
  split; [exact Hnd|]. split; [exact Hiff|]. split; [exact Hperm|].
  intros Hs. rewrite Hperm. unfold activePages.
  pose proof (active_length (inflight s)). pose proof (reachableSerially_inflight s Hs). lia.
Qed.

Lemma reachable_run s es s' : reachable s -> run s es = Some s' -> reachable s'.
Proof.
  revert s; induction es as [|e es IH]; intros s Hr H; simpl in H.
  - now injection H as <-.
  - destruct (step s e) as [s1|] eqn:He; [|discriminate].
    eapply IH; [|exact H]. eapply reach_step; eassumption.
Qed.

(** C2 at the two-page document after a resize and a scroll. *)
Lemma C2_one_render_per_page_witness :
  exists s, run (loaded 2 1%Qc view_1_2) [OnResize; OnScroll view_1_2] = Some s /\
            NoDup (activePages s) /\
            (forall p, running s p <-> p ∈ activePages s) /\
            runningPages s ≡ₚ activePages s /\
            (reachableSerially s -> (length (runningPages s) <= 1)%nat).
Proof.
  eexists. split; [vm_compute; reflexivity|].
  apply C2_one_render_per_page.
  apply (reachable_run (loaded 2 1%Qc view_1_2) [OnResize; OnScroll view_1_2]).
  - apply reach_loaded.
  - vm_compute. reflexivity.
Defined.

(** C2, counterexample. Two pages in view: the call made after loading
    starts page 1; a scroll event arriving while that render is awaited
    starts page 2, and both pages are RUNNING. *)
Lemma C2_two_pages_running :
  exists s, run (loaded 2 1%Qc view_1_2) [OnResize; OnScroll view_1_2] = Some s /\
            running s 1 /\ running s 2 /\
            runningPages s = [2; 1] /\
            ~ singleRenderInFlight.
Proof.
  eexists. split; [vm_compute; reflexivity|].
  split; [vm_compute; reflexivity|]. split; [vm_compute; reflexivity|].
  split; [vm_compute; reflexivity|].
  intros Hsingle.
  assert (Hr : reachable (renderHighestPriority (Some view_1_2)
                 (with_visible view_1_2
                    (renderHighestPriority (Some view_1_2) (loaded 2 1%Qc view_1_2))))).
  { apply (reach_step (renderHighestPriority (Some view_1_2) (loaded 2 1%Qc view_1_2))
                      (OnScroll view_1_2)); [|reflexivity].
    apply (reach_step (loaded 2 1%Qc view_1_2) OnResize); [apply reach_loaded|reflexivity]. }
  apply Hsingle in Hr. vm_compute in Hr. lia.
Qed.

(** C1, counterexample. Two pages in view, page 1 fails: afterwards page 2
    is still unsatisfied, yet no render is in flight, nothing further was
    started and the idle timer is not armed: the loop has stopped. *)
Lemma C1_failure_stops_loop :
  exists s s', run (loaded 2 1%Qc view_1_2) [OnResize] = Some s /\
               step s (RenderFailed 1) = Some s' /\
               isPageRendered s' 2 = false /\
               inflight s' = [] /\ renderLog s' = [1] /\ idleTimeout s' = false /\
               ~ continuesAfterFailure.
Proof.
  eexists. eexists. split; [vm_compute; reflexivity|].
  split; [vm_compute; reflexivity|].
  repeat (split; [vm_compute; reflexivity|]).
  intros Hcont.
  apply (Hcont (renderHighestPriority (Some view_1_2) (loaded 2 1%Qc view_1_2)) 1
               (with_highest None
                  (with_inflight []
                     (setRenderingState 1 INITIAL
                        (renderHighestPriority (Some view_1_2) (loaded 2 1%Qc view_1_2)))))
               1 2).
  - apply (reach_step (loaded 2 1%Qc view_1_2) OnResize); [apply reach_loaded|reflexivity].
  - vm_compute. reflexivity.
  - reflexivity.
  - reflexivity.
  - exists 2. split; [lia|]. split; [lia|]. vm_compute. reflexivity.
  - vm_compute. reflexivity.
Qed.

(** C1 (amended). A failed render puts its page back to INITIAL, so that the
    page counts as unsatisfied again, and ends the scheduling pass: the
    suspended activation is dropped, [_highestPriorityPage] is cleared, no
    other page record changes, no further render is started and the idle
    timer is left as it was.  Rendering resumes with the next call of
    [renderHighestPriority]. *)
Theorem C1_failure_resets_page_and_ends_pass s p s' :
  step s (RenderFailed p) = Some s' ->
  isPageRendered s' p = false /\
  (forall pd, pages s !! p = Some pd ->
              renderingState <$> pages s' !! p = Some INITIAL) /\
  (forall q, q <> p -> pages s' !! q = pages s !! q) /\
  highestPriorityPage s' = None /\
  renderLog s' = renderLog s /\
  idleTimeout s' = idleTimeout s /\
  (exists ph l1 l2, inflight s = l1 ++ mkTask p ph :: l2 /\ inflight s' = l1 ++ l2).
Proof.
  intros Hstep. simpl in Hstep.
  destruct (takeTask p (inflight s)) as [[ph rest]|] eqn:Ht; [|discriminate].
  apply takeTask_split in Ht as (l1 & l2 & Hin & ->).
  assert (Hs' : s' = with_highest None
                  (with_inflight (l1 ++ l2) (setRenderingState p INITIAL s))).
  { destruct ph; [discriminate| |]; now injection Hstep as <-. }
  subst s'. unfold isPageRendered, setRenderingState.
  cbn [pages with_highest with_inflight with_pages highestPriorityPage renderLog
       idleTimeout inflight displayScale].
  destruct (pages s !! p) as [pd|] eqn:Hp.
  - rewrite lookup_insert_eq. cbn [renderingState].
    repeat split; try reflexivity.
    + intros q Hq. now rewrite lookup_insert_ne.
    + exists ph, l1, l2. split; [exact Hin|reflexivity].
  - rewrite Hp. repeat split; try reflexivity; [discriminate|].
    exists ph, l1, l2. split; [exact Hin|reflexivity].
Qed.

(** C1 at the two-page document whose first render fails. *)
Lemma C1_failure_resets_page_and_ends_pass_witness :
  isPageRendered
    (with_highest None
       (with_inflight []
          (setRenderingState 1 INITIAL
             (renderHighestPriority (Some view_1_2) (loaded 2 1%Qc view_1_2))))) 1 = false.
Proof.
  apply (C1_failure_resets_page_and_ends_pass
           (renderHighestPriority (Some view_1_2) (loaded 2 1%Qc view_1_2)) 1).
  vm_compute. reflexivity.
Defined.

End RenderFacts.

(** ** The coordinate transformer *)

Section GeomFacts.

Import Geom.
Local Open Scope Qc_scope.

Ltac qc_compute := apply Qc_is_canon; vm_compute; reflexivity.

(** Equal structures whose numbers are equal as rationals. *)
Ltac qc_struct :=
  repeat match goal with
         | |- @eq Qc _ _ => apply Qc_is_canon; reflexivity
         | |- _ => f_equal
         end.

(** Goals on [Qc] restated on [Q], where [lra] applies. *)
Ltac qc_to_q :=
  unfold Qcle, Qclt, Qcminus, Qcdiv in *;
  repeat match goal with
  | |- @eq Qc _ _ => apply Qc_is_canon
  | H : @eq Qc ?a ?b |- _ => apply (f_equal this) in H
  end;
  cbn [this Qcplus Qcmult Qcopp Q2Qc] in *;
  rewrite ?Qred_correct in *.

Lemma pos_nonzero (s : Qc) : 0 < s -> s <> 0.
Proof. intros H ->. now apply (Qclt_not_eq 0 0). Qed.

(** C9. For a page with a container and a positive scale, the screen
    position computed from the PDF coordinates of a point is the point. *)
Theorem C9_screen_pdf_round_trip (v : Viewer) (n : Z) (rect : Rect) (p : Point) :
  getPageContainer v n = Some rect ->
  0 < getScale v ->
  exists d, screenToPdf v p n = Some d /\
            pageNumber d = n /\
            pdfToScreen v (pdfX d) (pdfY d) n = Some p.
Proof.
  intros Hc Hs. apply pos_nonzero in Hs.
  unfold screenToPdf, pdfToScreen. rewrite Hc.
  eexists. split; [reflexivity|]. split; [reflexivity|].
  cbn [pdfX pdfY]. destruct p as [px py]. cbn [x y].
  f_equal. f_equal; field; exact Hs.
Qed.

(** C9 for a click at (100, 200) on page 1 shown at 150%. *)
Lemma C9_screen_pdf_round_trip_witness :
  exists d, screenToPdf viewer_150 (mkPoint (Qc_of_Z 100) (Qc_of_Z 200)) 1 = Some d /\
            pageNumber d = 1%Z /\
            pdfToScreen viewer_150 (pdfX d) (pdfY d) 1 =
            Some (mkPoint (Qc_of_Z 100) (Qc_of_Z 200)).
Proof.
  apply (C9_screen_pdf_round_trip viewer_150 1 page_600_800).
  - reflexivity.
  - vm_compute. reflexivity.
Defined.

Lemma keepPdfRect_origin r :
  ltb (left r) minSize && ltb (top r) minSize = true -> keepPdfRect r = false.
Proof.
  intros H. unfold keepPdfRect. rewrite H.
  now destruct (ltb (right r - left r) minSize || ltb (bottom r - top r) minSize).
Qed.

Lemma rectArray_drop_origin pageRect scale rects :
  rectArray pageRect scale rects =
  rectArray pageRect scale
    (List.filter (fun r => negb (ltb (left (toPdfRect pageRect scale r)) minSize
                                 && ltb (top (toPdfRect pageRect scale r)) minSize))
                 rects).
Proof.
  unfold rectArray. induction rects as [|r rects IH]; [reflexivity|].
  cbn [List.filter].
  destruct (ltb (left (toPdfRect pageRect scale r)) minSize
            && ltb (top (toPdfRect pageRect scale r)) minSize) eqn:Ho; cbn [negb].
  - destruct (keepClientRect pageRect r); [|exact IH].
    cbn [List.map List.filter]. rewrite (keepPdfRect_origin _ Ho). exact IH.
  - cbn [List.filter]. destruct (keepClientRect pageRect r); [|exact IH].
    cbn [List.map List.filter]. destruct (keepPdfRect _); [|exact IH].
    f_equal. exact IH.
Qed.

(** C10. Rectangles whose converted left and top are both below 1 never
    reach the merge and have no influence on the result; the rectangle from
    (1/2, 1/2) to (50, 20) on a 600 by 800 page at scale 1 lies inside the
    page, is larger than the minimum size, and yields no quad. *)
Theorem C10_rects_at_page_origin_are_dropped :
  (forall pageRect scale rects r,
      In r (rectArray pageRect scale rects) ->
      ~ (left r < minSize /\ top r < minSize)) /\
  (forall v rects n,
      selectionRectsToQuads v rects n =
      selectionRectsToQuads v (List.filter (fun r => negb (atPageOrigin v n r)) rects) n) /\
  (keepClientRect page_at_origin corner_rect = true /\
   tinyOnPage 1 corner_rect = false /\
   atPageOrigin viewer_100 1 corner_rect = true /\
   selectionRectsToQuads viewer_100 [corner_rect] 1 = []).
Proof.
  split; [|split].
  - intros pageRect scale rects r Hin [Hl Ht].
    unfold rectArray in Hin. apply filter_In in Hin as [_ Hkeep].
    rewrite keepPdfRect_origin in Hkeep; [discriminate|].
    unfold ltb. now rewrite !bool_decide_eq_true_2.
  - intros v rects n. unfold selectionRectsToQuads, atPageOrigin.
    destruct (getPageContainer v n) as [pageRect|]; [|reflexivity].
    now rewrite (rectArray_drop_origin pageRect (getScale v) rects).
  - repeat split; vm_compute; reflexivity.
Qed.

(** C10 on a selection of two rectangles, one of them at the page origin:
    the other one is the only rectangle that reaches the merge. *)
Lemma C10_rects_at_page_origin_are_dropped_witness :
  ~ (left (mkRect (Qc_of_Z 30) (Qc_of_Z 90) (Qc_of_Z 60) (Qc_of_Z 75)) < minSize /\
     top (mkRect (Qc_of_Z 30) (Qc_of_Z 90) (Qc_of_Z 60) (Qc_of_Z 75)) < minSize).
Proof.
  apply (proj1 C10_rects_at_page_origin_are_dropped page_at_origin 1
           [corner_rect; mkRect (Qc_of_Z 30) (Qc_of_Z 90) (Qc_of_Z 60) (Qc_of_Z 75)]).
  vm_compute. left. qc_struct.
Defined.

Lemma mergePass_true working : forall result out b,
  mergePass working result true = (out, b) -> b = true.
Proof.
  induction working as [|r ws IH]; intros result out b H; simpl in H.
  - now injection H as _ <-.
  - destruct (mergeIntoResult r result); eapply IH; exact H.
Qed.

Lemma mergePass_unmerged working : forall result out,
  mergePass working result false = (out, false) -> out = result ++ working.
Proof.
  induction working as [|r ws IH]; intros result out H; simpl in H.
  - injection H as <-. now rewrite app_nil_r.
  - destruct (mergeIntoResult r result) as [result'|].
    + apply mergePass_true in H. discriminate.
    + apply IH in H. now rewrite <- app_assoc in H.
Qed.

(** The loop ends on a list on which a further pass merges nothing. *)
Lemma mergeLoop_stable working :
  mergePass (mergeLoop working) [] false = (mergeLoop working, false).
Proof.
  functional induction (mergeLoop working) as [ws result Hpass IH|ws result Hpass].
  - exact IH.
  - pose proof (mergePass_unmerged _ _ _ Hpass) as Heq. simpl in Heq.
    subst result. exact Hpass.
Qed.

Lemma mergeLoop_fixed working : mergeLoop (mergeLoop working) = mergeLoop working.
Proof. rewrite (mergeLoop_equation (mergeLoop working)), mergeLoop_stable. reflexivity. Qed.

Lemma mergeOverlappingRects_fixed rects :
  mergeOverlappingRects (mergeOverlappingRects rects) = mergeOverlappingRects rects.
Proof.
  unfold mergeOverlappingRects at 2 3. destruct rects as [|r rects]; [reflexivity|].
  unfold mergeOverlappingRects.
  destruct (mergeLoop (r :: rects)) as [|r' out] eqn:E; [reflexivity|].
  rewrite <- E. apply mergeLoop_fixed.
Qed.

(** One pass leaves two rectangles that still overlap; the loop goes on
    and returns the whole line. *)
Example merge_needs_second_pass :
  length (fst (mergePass bridged_line [] false)) = 2%nat /\
  mergeOverlappingRects bridged_line =
  [mkRect (Qc_of_Z 10) (Qc_of_Z 40) (Qc_of_Z 10) (Qc_of_Z 22)].
Proof.
  split; [vm_compute; reflexivity|]. vm_compute. qc_struct.
Qed.

Lemma quadRect_rectToQuad r : quadRect (rectToQuad r) = r.
Proof. now destruct r. Qed.

(** C7. Merging the rectangles of the quads returned by
    [selectionRectsToQuads] changes nothing: the merge gives them back, and
    with them the same quads. *)
Theorem C7_merge_is_fixed_point (v : Viewer) (rects : list Rect) (n : Z) :
  let out := selectionRectsToQuads v rects n in
  mergeOverlappingRects (List.map quadRect out) = List.map quadRect out /\
  List.map rectToQuad (mergeOverlappingRects (List.map quadRect out)) = out /\
  forall rs, mergeOverlappingRects (mergeOverlappingRects rs) = mergeOverlappingRects rs.
Proof.
  cbn zeta. unfold selectionRectsToQuads.
  destruct (getPageContainer v n) as [pageRect|].
  - rewrite List.map_map. rewrite (List.map_ext _ (fun r => r) quadRect_rectToQuad), List.map_id.
    rewrite mergeOverlappingRects_fixed. repeat split. apply mergeOverlappingRects_fixed.
  - repeat split. apply mergeOverlappingRects_fixed.
Qed.

Lemma ltb_scale (k a b : Qc) : 0 < k -> ltb (k * a) (k * b) = ltb a b.
Proof.
  intros Hk. unfold ltb. apply bool_decide_ext. symmetry.
  now apply Qcmult_lt_mono_pos_l.
Qed.

Lemma toPdfRect_scale (pageRect r : Rect) (s1 s2 : Qc) :
  s1 <> 0 -> s2 <> 0 ->
  toPdfRect (scaleRect (s2 / s1) pageRect) s2 (scaleRect (s2 / s1) r) =
  toPdfRect pageRect s1 r.
Proof.
  intros H1 H2. unfold toPdfRect, scaleRect. cbn [left right top bottom].
  f_equal; field; split; assumption.
Qed.

Lemma keepClientRect_tiny pageRect r :
  tinyOnScreen r = true -> keepClientRect pageRect r = false.
Proof. unfold tinyOnScreen, keepClientRect. now intros ->. Qed.

Lemma keepClientRect_scale (k : Qc) pageRect r :
  0 < k -> tinyOnScreen r = false -> tinyOnScreen (scaleRect k r) = false ->
  keepClientRect (scaleRect k pageRect) (scaleRect k r) = keepClientRect pageRect r.
Proof.
  intros Hk H1 H2. unfold keepClientRect.
  change (ltb (right r - left r) 1 || ltb (bottom r - top r) 1) with (tinyOnScreen r).
  change (ltb (right (scaleRect k r) - left (scaleRect k r)) 1
          || ltb (bottom (scaleRect k r) - top (scaleRect k r)) 1)
    with (tinyOnScreen (scaleRect k r)).
  rewrite H1, H2. cbn [scaleRect left right top bottom].
  now rewrite !ltb_scale.
Qed.

Lemma keepPdfRect_tiny pageRect scale r :
  scale <> 0 -> tinyOnPage scale r = true ->
  keepPdfRect (toPdfRect pageRect scale r) = false.
Proof.
  intros Hs Ht. unfold keepPdfRect, toPdfRect. cbn [left right top bottom].
  replace ((right r - left pageRect) / scale - (left r - left pageRect) / scale)
    with ((right r - left r) / scale) by (field; exact Hs).
  replace ((bottom r - top pageRect) / scale - (top r - top pageRect) / scale)
    with ((bottom r - top r) / scale) by (field; exact Hs).
  unfold tinyOnPage in Ht. now rewrite Ht.
Qed.

Lemma rectArray_scale (pageRect : Rect) (s1 s2 : Qc) (rects : list Rect) :
  0 < s1 -> 0 < s2 ->
  (forall r, In r rects ->
             tinyOnScreen r || tinyOnScreen (scaleRect (s2 / s1) r) = true ->
             tinyOnPage s1 r = true) ->
  rectArray (scaleRect (s2 / s1) pageRect) s2 (List.map (scaleRect (s2 / s1)) rects) =
  rectArray pageRect s1 rects.
Proof.
  intros H1 H2 Htiny.
  assert (Hk : 0 < s2 / s1) by (apply Qcmult_pos_pos; [exact H2|now apply Qcinv_pos]).
  pose proof (pos_nonzero _ H1) as Hn1. pose proof (pos_nonzero _ H2) as Hn2.
  unfold rectArray. induction rects as [|r rects IH]; [reflexivity|].
  assert (IH' := IH (fun r' Hr' => Htiny r' (or_intror Hr'))). clear IH.
  specialize (Htiny r (or_introl eq_refl)).
  cbn [List.map List.filter].
  destruct (tinyOnScreen r || tinyOnScreen (scaleRect (s2 / s1) r)) eqn:Hany.
  - specialize (Htiny eq_refl).
    assert (Hdrop : forall b : bool,
      List.filter keepPdfRect
        (List.map (toPdfRect pageRect s1) (if b then [r] else [])) = []).
    { intros [|]; [|reflexivity]. cbn [List.map List.filter].
      now rewrite (keepPdfRect_tiny pageRect s1 r Hn1 Htiny). }
    destruct (keepClientRect (scaleRect (s2 / s1) pageRect) (scaleRect (s2 / s1) r));
      destruct (keepClientRect pageRect r);
      cbn [List.map List.filter];
      rewrite ?toPdfRect_scale by assumption;
      rewrite ?(keepPdfRect_tiny pageRect s1 r Hn1 Htiny);
      exact IH'.
  - apply orb_false_elim in Hany as [Ha Hb].
    rewrite (keepClientRect_scale _ pageRect r Hk Ha Hb).
    destruct (keepClientRect pageRect r); [|exact IH'].
    cbn [List.map List.filter]. rewrite toPdfRect_scale by assumption.
    destruct (keepPdfRect _); [f_equal|]; exact IH'.
Qed.

(** C8 (amended). The same rectangles seen at two positive scales give the
    same quads, provided every rectangle that is less than one screen pixel
    wide or high at one of the two scales is also less than one document
    unit wide or high. *)
Theorem C8_scale_independent_above_one_pixel
  (v : Viewer) (rects : list Rect) (n : Z) (s2 : Qc) :
  0 < getScale v -> 0 < s2 ->
  (forall r, In r rects ->
             tinyOnScreen r || tinyOnScreen (scaleRect (s2 / getScale v) r) = true ->
             tinyOnPage (getScale v) r = true) ->
  selectionRectsToQuads (scaleViewer (s2 / getScale v) s2 v)
                        (List.map (scaleRect (s2 / getScale v)) rects) n =
  selectionRectsToQuads v rects n.
Proof.
  intros H1 H2 Htiny. unfold selectionRectsToQuads, scaleViewer.
  cbn [getPageContainer getScale].
  destruct (getPageContainer v n) as [pageRect|]; [|reflexivity].
  cbn [option_map]. now rewrite rectArray_scale.
Qed.

Lemma tiny_zoomed_in (s w : Qc) : 1 <= s -> w < 1 -> w / s < 1.
Proof.
  intros Hs Hw.
  assert (Hpos : 0 < s) by (qc_to_q; lra).
  apply (Qcmult_lt_mono_pos_r _ _ s Hpos).
  replace (w / s * s) with w by (field; now apply pos_nonzero).
  qc_to_q. lra.
Qed.

(** For scales of 100% and more a rectangle below one screen pixel is
    below one document unit as well. *)
Lemma tiny_on_page_zoomed_in (s1 s2 : Qc) (r : Rect) :
  1 <= s1 -> 1 <= s2 ->
  tinyOnScreen r || tinyOnScreen (scaleRect (s2 / s1) r) = true ->
  tinyOnPage s1 r = true.
Proof.
  intros H1 H2 Hany.
  assert (Hp1 : 0 < s1) by (qc_to_q; lra).
  assert (Hp2 : 0 < s2) by (qc_to_q; lra).
  unfold tinyOnPage, minSize.
  assert (Hside : forall a b : Qc,
            ltb (b - a) 1 || ltb (s2 / s1 * b - s2 / s1 * a) 1 = true ->
            ltb ((b - a) / s1) 1 = true).
  { intros a b H. unfold ltb in *. apply bool_decide_eq_true_2.
    apply orb_true_iff in H as [H|H]; apply bool_decide_eq_true_1 in H.
    - now apply tiny_zoomed_in.
    - replace ((b - a) / s1) with ((s2 / s1 * b - s2 / s1 * a) / s2)
        by (field; split; now apply pos_nonzero).
      now apply tiny_zoomed_in. }
  unfold tinyOnScreen in Hany. cbn [scaleRect left right top bottom] in Hany.
  apply orb_true_iff.
  destruct (ltb (right r - left r) 1) eqn:E1;
    [left; apply Hside; now rewrite E1|].
  destruct (ltb (s2 / s1 * right r - s2 / s1 * left r) 1) eqn:E2;
    [left; apply Hside; now rewrite E2, orb_true_r|].
  right. apply Hside. cbn [orb] in Hany.
  destruct (ltb (bottom r - top r) 1); [reflexivity|exact Hany].
Qed.

(** Hence the quads do not depend on the scale among scales of 100% and
    more. *)
Corollary selection_scale_independent_zoomed_in
  (v : Viewer) (rects : list Rect) (n : Z) (s2 : Qc) :
  1 <= getScale v -> 1 <= s2 ->
  selectionRectsToQuads (scaleViewer (s2 / getScale v) s2 v)
                        (List.map (scaleRect (s2 / getScale v)) rects) n =
  selectionRectsToQuads v rects n.
Proof.
  intros H1 H2.
  assert (Hp1 : 0 < getScale v) by (qc_to_q; lra).
  assert (Hp2 : 0 < s2) by (qc_to_q; lra).
  unfold selectionRectsToQuads, scaleViewer. cbn [getPageContainer getScale].
  destruct (getPageContainer v n) as [pageRect|]; [|reflexivity].
  cbn [option_map]. rewrite rectArray_scale; [reflexivity|exact Hp1|exact Hp2|].
  intros r _. now apply tiny_on_page_zoomed_in.
Qed.

(** C8 for the corner rectangle, from 150% to 300%. *)
Lemma C8_scale_independent_above_one_pixel_witness :
  selectionRectsToQuads (scaleViewer (Qc_of_Z 3 / getScale viewer_150) (Qc_of_Z 3) viewer_150)
                        (List.map (scaleRect (Qc_of_Z 3 / getScale viewer_150))
                                  [mkRect (Qc_of_Z 30) (Qc_of_Z 90) (Qc_of_Z 60) (Qc_of_Z 75)]) 1 =
  selectionRectsToQuads viewer_150
                        [mkRect (Qc_of_Z 30) (Qc_of_Z 90) (Qc_of_Z 60) (Qc_of_Z 75)] 1.
Proof.
  apply (C8_scale_independent_above_one_pixel viewer_150
           [mkRect (Qc_of_Z 30) (Qc_of_Z 90) (Qc_of_Z 60) (Qc_of_Z 75)] 1 (Qc_of_Z 3)).
  - vm_compute. reflexivity.
  - vm_compute. reflexivity.
  - intros r [<-|[]]. vm_compute. discriminate.
Defined.

(** C8, counterexample. At 50% a rectangle 0.8 pixels wide is dropped by
    the test on client rectangles although it is 1.6 document units wide;
    the same selection at 100% is 1.6 pixels wide and gives a quad. *)
Lemma C8_half_scale_drops_rect :
  selectionRectsToQuads viewer_50 [thin_rect] 1 = [] /\
  tinyOnPage (getScale viewer_50) thin_rect = false /\
  selectionRectsToQuads (scaleViewer (1 / getScale viewer_50) 1 viewer_50)
                        (List.map (scaleRect (1 / getScale viewer_50)) [thin_rect]) 1
  <> selectionRectsToQuads viewer_50 [thin_rect] 1.
Proof.
  split; [vm_compute; reflexivity|]. split; [vm_compute; reflexivity|].
  vm_compute. discriminate.
Qed.

Lemma Math_min_l (a b : Qc) : a <= b -> Math_min a b = a.
Proof. intros H. unfold Math_min. now rewrite bool_decide_eq_true_2. Qed.

Lemma Math_max_r (a b : Qc) : a <= b -> Math_max a b = b.
Proof. intros H. unfold Math_max. now rewrite bool_decide_eq_true_2. Qed.

Lemma Math_min_r (a b : Qc) : b <= a -> Math_min a b = b.
Proof.
  intros H. unfold Math_min. case_bool_decide as Hab; [|reflexivity].
  now apply Qcle_antisym.
Qed.

Lemma Math_max_l (a b : Qc) : b <= a -> Math_max a b = a.
Proof.
  intros H. unfold Math_max. case_bool_decide as Hab; [|reflexivity].
  now apply Qcle_antisym.
Qed.

Lemma Math_min_le_l (a b : Qc) : Math_min a b <= a.
Proof.
  unfold Math_min. case_bool_decide as H; [apply Qcle_refl|].
  apply Qclt_le_weak. now apply Qcnot_le_lt.
Qed.

Lemma Math_max_ge_l (a b : Qc) : a <= Math_max a b.
Proof. unfold Math_max. case_bool_decide as H; [exact H|apply Qcle_refl]. Qed.

Lemma rectToQuad_fixedWinding r : upright r -> fixedWinding (rectToQuad r).
Proof.
  intros [Hx Hy]. apply Qclt_le_weak in Hx, Hy.
  unfold fixedWinding, isTopLeft, isTopRight, isBottomLeft, isBottomRight, rectToQuad.
  cbn [p1 p2 p3 p4 x y].
  rewrite !(Math_min_l (left r) (right r)), !(Math_max_r (left r) (right r)) by exact Hx.
  rewrite !(Math_min_l (top r) (top r)), !(Math_max_r (top r) (top r)) by apply Qcle_refl.
  rewrite !(Math_min_l (bottom r) (bottom r)), !(Math_max_r (bottom r) (bottom r))
    by apply Qcle_refl.
  rewrite !(Math_min_l (left r) (left r)), !(Math_max_r (right r) (right r))
    by apply Qcle_refl.
  rewrite !(Math_min_l (top r) (bottom r)), !(Math_max_r (top r) (bottom r)) by exact Hy.
  repeat split; reflexivity.
Qed.

Lemma mergeRect_upright e r : upright e -> upright (mergeRect e r).
Proof.
  intros [Hx Hy]. unfold upright, mergeRect. cbn [left right top bottom]. split.
  - eapply Qcle_lt_trans; [apply Math_min_le_l|].
    eapply Qclt_le_trans; [exact Hx|apply Math_max_ge_l].
  - eapply Qcle_lt_trans; [apply Math_min_le_l|].
    eapply Qclt_le_trans; [exact Hy|apply Math_max_ge_l].
Qed.

Lemma mergeIntoResult_upright rect : forall result result',
  Forall upright result -> mergeIntoResult rect result = Some result' ->
  Forall upright result'.
Proof.
  induction result as [|e rest IH]; intros result' Hall H; simpl in H; [discriminate|].
  apply list.Forall_cons in Hall as [He Hrest].
  destruct (shouldMerge rect e).
  - injection H as <-. constructor; [now apply mergeRect_upright|exact Hrest].
  - destruct (mergeIntoResult rect rest) as [rest'|]; [|discriminate].
    injection H as <-. constructor; [exact He|now apply IH].
Qed.

Lemma mergePass_upright working : forall result merged out b,
  Forall upright working -> Forall upright result ->
  mergePass working result merged = (out, b) -> Forall upright out.
Proof.
  induction working as [|r ws IH]; intros result merged out b Hw Hr H; simpl in H.
  - now injection H as <- _.
  - apply list.Forall_cons in Hw as [Hr0 Hws].
    destruct (mergeIntoResult r result) as [result'|] eqn:E.
    + eapply IH; [exact Hws| |exact H]. eapply mergeIntoResult_upright; eassumption.
    + eapply IH; [exact Hws| |exact H]. apply Forall_app. split; [exact Hr|].
      now constructor.
Qed.

Lemma mergeLoop_upright working : Forall upright working -> Forall upright (mergeLoop working).
Proof.
  functional induction (mergeLoop working) as [ws result Hpass IH|ws result Hpass];
    intros Hall.
  - apply IH. eapply mergePass_upright; [exact Hall|constructor|exact Hpass].
  - eapply mergePass_upright; [exact Hall|constructor|exact Hpass].
Qed.

Lemma rectArray_upright pageRect scale rects :
  Forall upright (rectArray pageRect scale rects).
Proof.
  apply List.Forall_forall. intros r Hin. unfold rectArray in Hin.
  apply filter_In in Hin as [_ Hkeep]. unfold keepPdfRect, ltb, minSize in Hkeep.
  destruct (bool_decide (right r - left r < 1)) eqn:Hw; [discriminate|].
  destruct (bool_decide (bottom r - top r < 1)) eqn:Hh; [discriminate|].
  apply bool_decide_eq_false_1, Qcnot_lt_le in Hw, Hh.
  split; qc_to_q; lra.
Qed.

(** Every quad of [selectionRectsToQuads] has the winding of the data model. *)
Lemma selection_quads_fixedWinding v rects n q :
  In q (selectionRectsToQuads v rects n) -> fixedWinding q.
Proof.
  unfold selectionRectsToQuads.
  destruct (getPageContainer v n) as [pageRect|]; [|intros []].
  intros Hin. apply in_map_iff in Hin as (r & <- & Hr).
  apply rectToQuad_fixedWinding.
  assert (Hall : Forall upright (mergeOverlappingRects (rectArray pageRect (getScale v) rects))).
  { unfold mergeOverlappingRects.
    destruct (rectArray pageRect (getScale v) rects) as [|r0 rs] eqn:E; [constructor|].
    rewrite <- E. apply mergeLoop_upright, rectArray_upright. }
  rewrite List.Forall_forall in Hall. now apply Hall.
Qed.

Lemma Math_sqrt_nonneg (q : Qc) : 0 <= Math_sqrt q.
Proof.
  unfold Math_sqrt, Qcle. cbn [this Q2Qc]. rewrite !Qred_correct.
  unfold Qle. cbn [Qnum Qden]. rewrite Z.mul_1_r. cbn [Z.mul]. apply Z.sqrt_nonneg.
Qed.

Lemma square_sum_pos (a b : Qc) : a * a + b * b <> 0 -> 0 < a * a + b * b.
Proof.
  intros Hne.
  assert (Hle : 0 <= a * a + b * b) by (qc_to_q; nra).
  destruct (Qcle_lt_or_eq _ _ Hle) as [H|H]; [exact H|congruence].
Qed.

(** The corners [p1], [p2], [p3] of a stroke quad turn the other way than
    those of a selection quad, whatever the direction of the segment. *)
Lemma segmentQuad_turn pageRect scale h a b q :
  0 < h -> segmentQuad pageRect scale h a b = Some q -> turn q < 0.
Proof.
  intros Hh. unfold segmentQuad. cbn [x y].
  set (dx := (x b - left pageRect) / scale - (x a - left pageRect) / scale).
  set (dy := (y b - top pageRect) / scale - (y a - top pageRect) / scale).
  set (len := Math_sqrt (dx * dx + dy * dy)).
  case_bool_decide as Hlen; [discriminate|]. intros [= <-].
  assert (Hpos : 0 < len).
  { destruct (Qcle_lt_or_eq _ _ (Math_sqrt_nonneg (dx * dx + dy * dy))) as [H|H];
      [exact H|]. fold len in H. congruence. }
  assert (Hd : 0 < dx * dx + dy * dy).
  { apply square_sum_pos. intros H0. apply Hlen. unfold len. rewrite H0.
    qc_compute. }
  unfold turn. cbn [p1 p2 p3 x y]. fold dx dy.
  set (x1 := (x a - left pageRect) / scale). set (y1 := (y a - top pageRect) / scale).
  set (x2 := (x b - left pageRect) / scale). set (y2 := (y b - top pageRect) / scale).
  replace ((x1 + - dy / len * h - (x1 - - dy / len * h)) * (y2 - dx / len * h - (y1 - dx / len * h))
           - (y1 + dx / len * h - (y1 - dx / len * h)) * (x2 - - dy / len * h - (x1 - - dy / len * h)))
    with (- ((1 + 1) * h * (dx * dx + dy * dy) * / len))
    by (unfold dx, dy; fold x1 y1 x2 y2; field; exact Hlen).
  clear x1 y1 x2 y2 Hlen. clearbody len. clearbody dx dy.
  assert (H2 : 0 < (1 + 1) * h * (dx * dx + dy * dy) * / len).
  { repeat apply Qcmult_pos_pos; try assumption; [|now apply Qcinv_pos].
    qc_to_q. lra. }
  set (t := (1 + 1) * h * (dx * dx + dy * dy) * / len) in *. clearbody t.
  qc_to_q. lra.
Qed.

Lemma rectToQuad_turn r : upright r -> 0 < turn (rectToQuad r).
Proof.
  intros [Hx Hy]. unfold turn, rectToQuad. cbn [p1 p2 p3 x y].
  replace ((right r - left r) * (bottom r - top r) - (top r - top r) * (left r - left r))
    with ((right r - left r) * (bottom r - top r)) by ring.
  apply Qcmult_pos_pos; qc_to_q; lra.
Qed.

Lemma strokeQuads_turn pageRect scale h points q :
  0 < h -> In q (strokeQuads pageRect scale h points) -> turn q < 0.
Proof.
  intros Hh. induction points as [|a points IH]; [intros []|].
  destruct points as [|b rest]; [intros []|].
  cbn [strokeQuads].
  destruct (segmentQuad pageRect scale h a b) as [q'|] eqn:E.
  - intros [<-|Hin]; [now apply (segmentQuad_turn _ _ _ _ _ _ Hh E)|now apply IH].
  - exact IH.
Qed.

Lemma Math_min_le_r (a b : Qc) : Math_min a b <= b.
Proof. unfold Math_min. case_bool_decide as H; [exact H|apply Qcle_refl]. Qed.

Lemma Math_max_ge_r (a b : Qc) : b <= Math_max a b.
Proof.
  unfold Math_max. case_bool_decide as H; [apply Qcle_refl|].
  apply Qclt_le_weak. now apply Qcnot_le_lt.
Qed.

(** With the winding of the data model the turn p1, p2, p3 is never
    negative. *)
Lemma fixedWinding_turn q : fixedWinding q -> 0 <= turn q.
Proof.
  intros ([Hx1 Hy1] & [Hx2 Hy2] & [Hx3 Hy3] & _). unfold turn.
  rewrite Hy2, <- Hy1, Hx3, <- Hx1.
  replace ((x (p2 q) - x (p1 q)) * (y (p3 q) - y (p1 q))
           - (y (p1 q) - y (p1 q)) * (x (p1 q) - x (p1 q)))
    with ((x (p2 q) - x (p1 q)) * (y (p3 q) - y (p1 q))) by ring.
  assert (Hx : x (p1 q) <= x (p2 q)).
  { rewrite Hx2. eapply Qcle_trans; [|apply Math_max_ge_l]. apply Math_max_ge_l. }
  assert (Hy : y (p1 q) <= y (p3 q)).
  { rewrite Hy3. eapply Qcle_trans; [|apply Math_max_ge_l]. apply Math_max_ge_l. }
  apply Qcmult_nonneg_nonneg; qc_to_q; lra.
Qed.

(** No quad of [strokesPathToQuads] has the winding of the data model. *)
Lemma stroke_quads_not_fixedWinding v points thickness n q :
  0 < thickness -> 0 < getScale v ->
  In q (strokesPathToQuads v points thickness n) -> ~ fixedWinding q.
Proof.
  intros Ht Hs. unfold strokesPathToQuads.
  destruct (getPageContainer v n) as [pageRect|]; [|intros []].
  intros Hin Hw. apply fixedWinding_turn in Hw.
  assert (Hh : 0 < thickness / 2 / getScale v).
  { repeat apply Qcmult_pos_pos; try apply Qcinv_pos; try assumption.
    qc_to_q. lra. }
  pose proof (strokeQuads_turn _ _ _ _ _ Hh Hin) as Hneg.
  now apply (Qcle_not_lt _ _ Hw).
Qed.

(** C6. On the stroke from (0,0) to (10,0) of thickness 10, page at the
    origin, scale 1, [strokesPathToQuads] returns the corners in the order
    top-left, bottom-left, top-right, bottom-right: [p2] is the bottom-left
    and [p3] the top-right corner, so the quad does not have the winding of
    the data model, which the quad made by [selectionRectsToQuads] for the
    same rectangle has. *)
Theorem C6_stroke_quad_winding :
  strokesPathToQuads viewer_100 stroke_0_10 (Qc_of_Z 10) 1 = [stroke_quad] /\
  isTopLeft stroke_quad (p1 stroke_quad) /\
  isBottomLeft stroke_quad (p2 stroke_quad) /\
  isTopRight stroke_quad (p3 stroke_quad) /\
  isBottomRight stroke_quad (p4 stroke_quad) /\
  ~ fixedWinding stroke_quad /\
  fixedWinding (rectToQuad (mkRect 0 (Qc_of_Z 10) (- Qc_of_Z 5) (Qc_of_Z 5))).
Proof.
  split.
  { unfold strokesPathToQuads, stroke_0_10, stroke_quad. cbn [viewer_100 getPageContainer].
    vm_compute. qc_struct. }
  split; [split; qc_compute|]. split; [split; qc_compute|].
  split; [split; qc_compute|]. split; [split; qc_compute|].
  split; [intros (_ & [Hx _] & _); vm_compute in Hx; discriminate|].
  apply rectToQuad_fixedWinding. split; vm_compute; reflexivity.
Qed.

End GeomFacts.

(** ** The find controller *)

Section FindFacts.

Import Find.

Lemma compareMatches_le a b : compareMatches a b <= 0 <-> matchLe a b.
Proof.
  unfold compareMatches, matchLe.
  destruct (Z.eqb_spec (pageNumber a) (pageNumber b)) as [He|Hne]; cbn [negb]; lia.
Qed.

Lemma matchLe_trans a b c : matchLe a b -> matchLe b c -> matchLe a c.
Proof. unfold matchLe. lia. Qed.

Lemma matchLe_total a b : matchLe a b \/ matchLe b a.
Proof. unfold matchLe. lia. Qed.

Lemma sortedInsert_perm {A} (cmp : A -> A -> Z) a l :
  Permutation (sortedInsert cmp a l) (a :: l).
Proof.
  induction l as [|b l IH]; cbn [sortedInsert]; [reflexivity|].
  destruct (cmp a b <=? 0); [reflexivity|].
  rewrite IH. apply perm_swap.
Qed.

Lemma Array_sort_perm {A} (cmp : A -> A -> Z) l : Permutation (Array_sort cmp l) l.
Proof.
  induction l as [|a l IH]; cbn [Array_sort]; [reflexivity|].
  rewrite sortedInsert_perm. now constructor.
Qed.

Lemma sortedInsert_sorted a l :
  StronglySorted matchLe l -> StronglySorted matchLe (sortedInsert compareMatches a l).
Proof.
  induction 1 as [|b l Hs IH Hall]; cbn [sortedInsert].
  - repeat constructor.
  - destruct (Z.leb_spec (compareMatches a b) 0) as [Hle|Hgt].
    + apply compareMatches_le in Hle. constructor; [now constructor|].
      constructor; [exact Hle|].
      eapply List.Forall_impl; [|exact Hall]. intros c Hc. eapply matchLe_trans; eassumption.
    + assert (Hba : matchLe b a).
      { destruct (matchLe_total a b) as [H|H]; [|exact H].
        apply compareMatches_le in H. lia. }
      constructor; [exact IH|].
      rewrite (sortedInsert_perm compareMatches a l). now constructor.
Qed.

Lemma Array_sort_sorted l : StronglySorted matchLe (Array_sort compareMatches l).
Proof.
  induction l as [|a l IH]; cbn [Array_sort]; [constructor|].
  now apply sortedInsert_sorted.
Qed.

Lemma indexOf_found m l :
  (exists m', In m' l /\ ref m' = ref m) ->
  exists m', at_index l (indexOf m l) = Some m' /\ ref m' = ref m /\ 0 <= indexOf m l.
Proof.
  induction l as [|a l IH]; intros (m' & Hin & Href); [destruct Hin|].
  cbn [indexOf]. destruct (Nat.eqb_spec (ref a) (ref m)) as [He|Hne].
  - exists a. repeat split; [exact He|lia].
  - destruct Hin as [->|Hin]; [congruence|].
    destruct (IH (ex_intro _ m' (conj Hin Href))) as (m2 & Hat & Hr & Hpos).
    replace (indexOf m l <? 0) with false by (symmetry; apply Z.ltb_ge; exact Hpos).
    exists m2. repeat split; [|exact Hr|lia].
    unfold at_index in *.
    replace (indexOf m l + 1 <? 0) with false by (symmetry; apply Z.ltb_ge; lia).
    replace (indexOf m l <? 0) with false in Hat by (symmetry; apply Z.ltb_ge; exact Hpos).
    replace (Z.to_nat (indexOf m l + 1)) with (S (Z.to_nat (indexOf m l))) by lia.
    exact Hat.
Qed.

Lemma same_ref_same_match (l : list Match) a b :
  List.NoDup (List.map ref l) -> In a l -> In b l -> ref a = ref b -> a = b.
Proof.
  induction l as [|c l IH]; intros Hnd Ha Hb Href; [destruct Ha|].
  cbn [List.map] in Hnd. apply List.NoDup_cons_iff in Hnd as [Hc Hnd].
  destruct Ha as [->|Ha], Hb as [->|Hb].
  - reflexivity.
  - exfalso. apply Hc. rewrite Href. now apply in_map.
  - exfalso. apply Hc. rewrite <- Href. now apply in_map.
  - now apply IH.
Qed.

Lemma at_index_In {A} (l : list A) i a : at_index l i = Some a -> In a l.
Proof.
  unfold at_index. destruct (i <? 0); [discriminate|]. apply nth_error_In.
Qed.

Lemma at_index_app {A} (l k : list A) i a :
  at_index l i = Some a -> at_index (l ++ k) i = Some a.
Proof.
  unfold at_index. destruct (i <? 0); [discriminate|]. intros H.
  rewrite nth_error_app1; [exact H|]. apply nth_error_Some. congruence.
Qed.

(** C4. With a current match selected among the matches found so far and
    any batch of new matches appended, the sort-and-fix step leaves the list
    a permutation of itself sorted by (page, start offset), and the current
    index points at the object that was current before: the same identity,
    and the same record when identities are distinct. *)
Theorem C4_current_match_survives_sort
  (c : Controller) (old batch : list Match) (cur : Match) :
  matches c = old ++ batch ->
  at_index old (currentMatchIndex c) = Some cur ->
  let c' := sortMatchesAndFixIndex c in
  Permutation (matches c') (matches c) /\
  StronglySorted matchLe (matches c') /\
  exists m, at_index (matches c') (currentMatchIndex c') = Some m /\
            ref m = ref cur /\
            (List.NoDup (List.map ref (matches c)) -> m = cur).
Proof.
  intros Hms Hcur. cbn zeta.
  assert (Hat : at_index (matches c) (currentMatchIndex c) = Some cur).
  { rewrite Hms. now apply at_index_app. }
  assert (Hge : (currentMatchIndex c >=? 0) = true).
  { unfold at_index in Hat. rewrite Z.geb_leb.
    destruct (Z.ltb_spec (currentMatchIndex c) 0); [discriminate|]. apply Z.leb_le. lia. }
  unfold sortMatchesAndFixIndex. rewrite Hge, Hat.
  cbn [matches currentMatchIndex with_matches].
  pose proof (Array_sort_perm compareMatches (matches c)) as Hperm.
  split; [exact Hperm|]. split; [apply Array_sort_sorted|].
  assert (Hin : In cur (Array_sort compareMatches (matches c))).
  { apply (Permutation_in _ (Permutation_sym Hperm)). now apply at_index_In in Hat. }
  destruct (indexOf_found cur _ (ex_intro _ cur (conj Hin eq_refl)))
    as (m & Hm & Href & _).
  exists m. split; [exact Hm|]. split; [exact Href|].
  intros Hnd. apply (same_ref_same_match (matches c)); try assumption.
  - apply (Permutation_in _ Hperm). now apply at_index_In in Hm.
  - now apply at_index_In in Hat.
Qed.

(** C4 on the scenario of the specification: the current match moves from
    index 0 to index 2. *)
Lemma C4_current_match_survives_sort_witness :
  currentMatchIndex (sortMatchesAndFixIndex before_sort) = 2 /\
  exists m, at_index (matches (sortMatchesAndFixIndex before_sort))
                     (currentMatchIndex (sortMatchesAndFixIndex before_sort)) = Some m /\
            ref m = ref match_2_10 /\
            (List.NoDup (List.map ref (matches before_sort)) -> m = match_2_10).
Proof.
  split; [reflexivity|].
  apply (C4_current_match_survives_sort before_sort [match_2_10] page_1_batch match_2_10).
  - reflexivity.
  - reflexivity.
Defined.

Section Navigation.

Variable regexExecAll : string -> bool -> string -> option (list (Z * Z)).
Variable toLowerCase : string -> string.

Local Abbreviation find := (Find.find regexExecAll toLowerCase).
Local Abbreviation findNext := (Find.findNext regexExecAll toLowerCase).
Local Abbreviation findPrevious := (Find.findPrevious regexExecAll toLowerCase).
Local Abbreviation searchPage := (Find.searchPage regexExecAll toLowerCase).
Local Abbreviation searchExtractedPages := (Find.searchExtractedPages regexExecAll toLowerCase).
Local Abbreviation reachable := (Find.reachable regexExecAll toLowerCase).
Local Abbreviation step := (Find.step regexExecAll toLowerCase).

Lemma continueExtraction_fields todo c :
  query (continueExtraction todo c) = query c /\
  matches (continueExtraction todo c) = matches c /\
  currentMatchIndex (continueExtraction todo c) = currentMatchIndex c /\
  caseSensitive (continueExtraction todo c) = caseSensitive c /\
  entireWord (continueExtraction todo c) = entireWord c /\
  highlightAll (continueExtraction todo c) = highlightAll c.
Proof.
  unfold continueExtraction. destruct (skipExtracted (pageContents c) todo);
    repeat split; reflexivity.
Qed.

Lemma ensureTextExtraction_fields c :
  query (ensureTextExtraction c) = query c /\
  matches (ensureTextExtraction c) = matches c /\
  currentMatchIndex (ensureTextExtraction c) = currentMatchIndex c /\
  caseSensitive (ensureTextExtraction c) = caseSensitive c /\
  entireWord (ensureTextExtraction c) = entireWord c /\
  highlightAll (ensureTextExtraction c) = highlightAll c.
Proof.
  unfold ensureTextExtraction.
  destruct (extracting c || extractionComplete c); [repeat split; reflexivity|].
  destruct (negb (hasDocument c)); [repeat split; reflexivity|].
  apply (continueExtraction_fields (extractionOrder c)
           (with_extraction true (extractionComplete c) [] c)).
Qed.

Lemma searchPage_query p c : query (searchPage p c) = query c.
Proof.
  unfold Find.searchPage. destruct (pageContents c !! p); [|reflexivity].
  destruct (regexExecAll _ _ _); [|reflexivity].
  now destruct (pushMatches _ _ _ _ _).
Qed.

Lemma searchPages_query ps : forall c,
  query (fold_left (fun c pageNum => searchPage pageNum c) ps c) = query c.
Proof.
  induction ps as [|p ps IH]; intros c; [reflexivity|].
  cbn [fold_left]. now rewrite IH, searchPage_query.
Qed.

Lemma sortMatchesAndFixIndex_query c : query (sortMatchesAndFixIndex c) = query c.
Proof.
  unfold sortMatchesAndFixIndex.
  now destruct (if currentMatchIndex c >=? 0 then _ else _).
Qed.

Lemma find_query q options c :
  if isEmpty q then matches (find q options c) = []
  else query (find q options c) = q.
Proof.
  unfold Find.find. destruct (isEmpty q) eqn:Hq; [reflexivity|].
  set (c1 := with_search q _ _ _ c).
  destruct (ensureTextExtraction_fields c1) as (Hq1 & _).
  destruct (_ || _).
  - unfold Find.searchExtractedPages.
    match goal with
    | |- query (if ?b then _ else _) = _ => destruct b
    end; cbn [query with_state with_index with_matches];
      rewrite searchPages_query; cbn [query with_matches clearMatches]; exact Hq1.
  - destruct (0 <? _); [|exact Hq1].
    destruct (default false (o_findPrevious options));
      match goal with
      | |- query (if ?b then _ else _) = _ => destruct b
      end; exact Hq1.
Qed.

(** Matches exist only while a query is active. *)
Lemma reachable_query c : reachable c -> matches c <> [] -> isEmpty (query c) = false.
Proof.
  induction 1 as [|c e c' Hr IH Hstep]; [intros H; now destruct H|].
  destruct e as [n|f l|q options| | |items|]; cbn [Find.step] in Hstep.
  - injection Hstep as <-. intros H. now destruct H.
  - injection Hstep as <-. exact IH.
  - injection Hstep as <-. pose proof (find_query q options c) as H.
    destruct (isEmpty q) eqn:Hq; [intros Hm; contradiction|]. now rewrite H.
  - injection Hstep as <-. unfold Find.findNext.
    pose proof (find_query (query c) (mkOptions (Some (caseSensitive c))
                  (Some (entireWord c)) (Some (highlightAll c)) (Some false)) c) as H.
    destruct (isEmpty (query c)) eqn:Hq; [intros Hm; contradiction|]. intros _.
    now rewrite H.
  - injection Hstep as <-. unfold Find.findPrevious.
    pose proof (find_query (query c) (mkOptions (Some (caseSensitive c))
                  (Some (entireWord c)) (Some (highlightAll c)) (Some true)) c) as H.
    destruct (isEmpty (query c)) eqn:Hq; [intros Hm; contradiction|]. intros _.
    now rewrite H.
  - unfold Find.pageExtracted in Hstep.
    destruct (pending c) as [|pageNum todo]; [discriminate|].
    injection Hstep as <-.
    match goal with
    | |- matches (continueExtraction ?t ?x) <> [] -> _ =>
        destruct (continueExtraction_fields t x) as (Hq & Hm & _)
    end.
    rewrite Hq, Hm. cbn [query with_contents].
    destruct (isEmpty (query c)) eqn:Hempty.
    + cbn [matches with_contents]. intros H. specialize (IH H). discriminate.
    + intros _. destruct (_ <? _)%nat;
        rewrite ?sortMatchesAndFixIndex_query, searchPage_query; exact Hempty.
  - unfold Find.pageExtractionFailed in Hstep.
    destruct (pending c) as [|pageNum todo]; [discriminate|].
    injection Hstep as <-.
    destruct (continueExtraction_fields todo c) as (Hq & Hm & _).
    now rewrite Hq, Hm.
Qed.

Lemma find_navigate (prev : bool) c :
  isEmpty (query c) = false -> matches c <> [] ->
  let c' := find (query c)
                 (mkOptions (Some (caseSensitive c)) (Some (entireWord c))
                            (Some (highlightAll c)) (Some prev)) c in
  let n := Z.of_nat (length (matches c)) in
  let i := if prev then currentMatchIndex c - 1 else currentMatchIndex c + 1 in
  matches c' = matches c /\
  (if (if prev then i <? 0 else i >=? n)
   then currentMatchIndex c' = (if prev then n - 1 else 0) /\ state c' = WRAPPED
   else currentMatchIndex c' = i /\ state c' = FOUND).
Proof.
  intros Hq Hm. cbn zeta. unfold Find.find.
  rewrite String.eqb_refl, Hq. cbn [o_caseSensitive o_entireWord o_highlightAll o_findPrevious].
  rewrite !bool_decide_eq_true_2 by reflexivity.
  cbn [negb orb default from_option id].
  match goal with
  | |- context [ensureTextExtraction ?x] => set (c1 := x)
  end.
  destruct (ensureTextExtraction_fields c1) as (_ & Hm1 & Hi1 & _).
  change (matches c1) with (matches c) in Hm1.
  change (currentMatchIndex c1) with (currentMatchIndex c) in Hi1.
  set (c2 := ensureTextExtraction c1) in *.
  rewrite Hm1.
  replace (0 <? Z.of_nat (length (matches c))) with true
    by (symmetry; apply Z.ltb_lt; destruct (matches c); [contradiction|cbn; lia]).
  destruct prev; cbn [currentMatchIndex with_index with_matches matches]; rewrite Hi1, Hm1.
  - destruct (currentMatchIndex c - 1 <? 0);
      cbn [matches with_state with_index with_matches currentMatchIndex state];
      rewrite ?Hm1; repeat split; reflexivity.
  - destruct (currentMatchIndex c + 1 >=? Z.of_nat (length (matches c)));
      cbn [matches with_state with_index with_matches currentMatchIndex state];
      rewrite ?Hm1; repeat split; reflexivity.
Qed.


Lemma reachable_run_events es : forall c c',
  reachable c -> run_events regexExecAll toLowerCase c es = Some c' -> reachable c'.
Proof.
  induction es as [|e es IH]; intros c c' Hr H; cbn in H.
  - now injection H as <-.
  - destruct (step c e) as [c1|] eqn:He; [|discriminate].
    eapply IH; [|exact H]. eapply reach_step; eassumption.
Qed.

End Navigation.


End FindFacts.

(** ** More on the coordinate transformer *)

Section GeomMore.

Import Geom.
Local Open Scope Qc_scope.

Ltac qc_struct :=
  repeat match goal with
         | |- @eq Qc _ _ => apply Qc_is_canon; reflexivity
         | |- _ => f_equal
         end.

Ltac qc_to_q :=
  unfold Qcle, Qclt, Qcminus, Qcdiv in *;
  repeat match goal with
  | |- @eq Qc _ _ => apply Qc_is_canon
  | H : @eq Qc ?a ?b |- _ => apply (f_equal this) in H
  end;
  cbn [this Qcplus Qcmult Qcopp Q2Qc] in *;
  rewrite ?Qred_correct in *.





(** Without a container every function of the transformer answers with
    its empty value. *)
Lemma no_container_no_result (v : Viewer) (n : Z) :
  getPageContainer v n = None ->
  (forall p, screenToPdf v p n = None) /\
  (forall px py, pdfToScreen v px py n = None) /\
  (forall rects, selectionRectsToQuads v rects n = []) /\
  (forall strokes, strokesToPdfCoords v strokes n = []) /\
  (forall pts t, strokesPathToQuads v pts t n = []).
Proof.
  intros Hc. unfold screenToPdf, pdfToScreen, selectionRectsToQuads,
    strokesToPdfCoords, strokesPathToQuads. rewrite Hc. repeat split.
Qed.

Lemma Math_min_cases (a b : Qc) :
  (Math_min a b = a /\ a <= b) \/ (Math_min a b = b /\ b <= a).
Proof.
  unfold Math_min. case_bool_decide as H; [left|right]; split; try reflexivity; try exact H.
  apply Qclt_le_weak. now apply Qcnot_le_lt.
Qed.

Lemma Math_max_cases (a b : Qc) :
  (Math_max a b = b /\ a <= b) \/ (Math_max a b = a /\ b <= a).
Proof.
  unfold Math_max. case_bool_decide as H; [left|right]; split; try reflexivity; try exact H.
  apply Qclt_le_weak. now apply Qcnot_le_lt.
Qed.







Lemma covers_refl r : covers r r.
Proof. repeat split; apply Qcle_refl. Qed.

Lemma covers_trans a b c : covers a b -> covers b c -> covers a c.
Proof.
  intros (H1 & H2 & H3 & H4) (K1 & K2 & K3 & K4).
  repeat split; eapply Qcle_trans; eassumption.
Qed.

Lemma mergeRect_covers e r : covers (mergeRect e r) e /\ covers (mergeRect e r) r.
Proof.
  unfold covers, mergeRect. cbn [left right top bottom].
  repeat split; first [apply Math_min_le_l|apply Math_min_le_r
                      |apply Math_max_ge_l|apply Math_max_ge_r].
Qed.

Lemma coveredBy_trans l k r :
  (forall e, In e l -> coveredBy k e) -> coveredBy l r -> coveredBy k r.
Proof.
  intros Hl (e & He & Hc). destruct (Hl e He) as (e' & He' & Hc').
  exists e'. split; [exact He'|]. eapply covers_trans; eassumption.
Qed.

Lemma mergeIntoResult_covers rect : forall result result',
  mergeIntoResult rect result = Some result' ->
  coveredBy result' rect /\ forall e, In e result -> coveredBy result' e.
Proof.
  induction result as [|e rest IH]; intros result' H; simpl in H; [discriminate|].
  destruct (shouldMerge rect e).
  - injection H as <-. destruct (mergeRect_covers e rect) as [He Hr]. split.
    + exists (mergeRect e rect). split; [now left|exact Hr].
    + intros e0 [He0|Hin].
      * subst e0. exists (mergeRect e rect). split; [now left|exact He].
      * exists e0. split; [now right|apply covers_refl].
  - destruct (mergeIntoResult rect rest) as [rest'|]; [|discriminate].
    injection H as <-. destruct (IH _ eq_refl) as [(r' & Hr' & Hc) Hall]. split.
    + exists r'. split; [now right|exact Hc].
    + intros e0 [He0|Hin].
      * subst e0. exists e. split; [now left|apply covers_refl].
      * destruct (Hall e0 Hin) as (r2 & Hr2 & Hc2). exists r2. split; [now right|exact Hc2].
Qed.

Lemma mergePass_covers working : forall result merged out b,
  mergePass working result merged = (out, b) ->
  forall r, In r result \/ In r working -> coveredBy out r.
Proof.
  induction working as [|rect ws IH]; intros result merged out b H r Hr; simpl in H.
  - injection H as <- _. destruct Hr as [Hr|[]]. exists r. split; [exact Hr|apply covers_refl].
  - destruct (mergeIntoResult rect result) as [result'|] eqn:E.
    + destruct (mergeIntoResult_covers _ _ _ E) as [Hrect Hall].
      assert (Hout : forall e, In e result' -> coveredBy out e).
      { intros e He. eapply IH; [exact H|now left]. }
      destruct Hr as [Hr|[Hr|Hr]].
      * apply (coveredBy_trans result'); [exact Hout|now apply Hall].
      * subst r. apply (coveredBy_trans result'); [exact Hout|exact Hrect].
      * eapply IH; [exact H|now right].
    + eapply IH; [exact H|]. destruct Hr as [Hr|[Hr|Hr]].
      * left. apply in_or_app. now left.
      * subst r. left. apply in_or_app. right. now left.
      * now right.
Qed.

Lemma mergeLoop_covers working :
  forall r, In r working -> coveredBy (mergeLoop working) r.
Proof.
  functional induction (mergeLoop working) as [ws result Hpass IH|ws result Hpass];
    intros r Hin.
  - apply (coveredBy_trans result); [exact IH|].
    eapply mergePass_covers; [exact Hpass|now right].
  - eapply mergePass_covers; [exact Hpass|now right].
Qed.

Lemma mergeLoop_length working : (length (mergeLoop working) <= length working)%nat.
Proof.
  functional induction (mergeLoop working) as [ws result Hpass IH|ws result Hpass];
    destruct (mergePass_length _ _ _ _ _ Hpass) as [Hle _]; simpl in Hle; lia.
Qed.

Lemma edgesFrom_trans l k r :
  (forall e, In e l -> edgesFrom k e) -> edgesFrom l r -> edgesFrom k r.
Proof.
  intros Hl ((a & Ha & Ea) & (b & Hb & Eb) & (c & Hc & Ec) & (d & Hd & Ed)).
  destruct (Hl a Ha) as ((a' & Ha' & Ea') & _).
  destruct (Hl b Hb) as (_ & (b' & Hb' & Eb') & _).
  destruct (Hl c Hc) as (_ & _ & (c' & Hc' & Ec') & _).
  destruct (Hl d Hd) as (_ & _ & _ & (d' & Hd' & Ed')).
  repeat split; [exists a'|exists b'|exists c'|exists d']; split; congruence.
Qed.

Lemma edgesFrom_self l r : In r l -> edgesFrom l r.
Proof. intros H. repeat split; exists r; split; trivial. Qed.

Lemma edgesFrom_incl l k r : (forall e, In e l -> In e k) -> edgesFrom l r -> edgesFrom k r.
Proof.
  intros Hincl ((a & Ha & Ea) & (b & Hb & Eb) & (c & Hc & Ec) & (d & Hd & Ed)).
  repeat split; [exists a|exists b|exists c|exists d]; split; auto.
Qed.

Lemma mergeRect_edges e r : edgesFrom [e; r] (mergeRect e r).
Proof.
  unfold edgesFrom, mergeRect. cbn [left right top bottom]. repeat split.
  - destruct (Math_min_cases (left e) (left r)) as [[-> _]|[-> _]];
      [exists e|exists r]; split; cbn; auto.
  - destruct (Math_max_cases (right e) (right r)) as [[-> _]|[-> _]];
      [exists r|exists e]; split; cbn; auto.
  - destruct (Math_min_cases (top e) (top r)) as [[-> _]|[-> _]];
      [exists e|exists r]; split; cbn; auto.
  - destruct (Math_max_cases (bottom e) (bottom r)) as [[-> _]|[-> _]];
      [exists r|exists e]; split; cbn; auto.
Qed.

Lemma mergeIntoResult_edges rect : forall result result',
  mergeIntoResult rect result = Some result' ->
  forall e', In e' result' -> edgesFrom (rect :: result) e'.
Proof.
  induction result as [|e rest IH]; intros result' H e' He'; simpl in H; [discriminate|].
  destruct (shouldMerge rect e).
  - injection H as <-. destruct He' as [He'|He'].
    + subst e'. apply (edgesFrom_incl [e; rect]); [|apply mergeRect_edges].
      intros a [<-|[<-|[]]]; cbn; auto.
    + apply edgesFrom_self. cbn; auto.
  - destruct (mergeIntoResult rect rest) as [rest'|]; [|discriminate].
    injection H as <-. destruct He' as [He'|He'].
    + subst e'. apply edgesFrom_self. cbn; auto.
    + apply (edgesFrom_incl (rect :: rest)); [|now apply (IH _ eq_refl)].
      intros a [<-|Ha]; cbn; auto.
Qed.

Lemma mergePass_edges working : forall result merged out b,
  mergePass working result merged = (out, b) ->
  forall r', In r' out -> edgesFrom (result ++ working) r'.
Proof.
  induction working as [|rect ws IH]; intros result merged out b H r' Hr'; simpl in H.
  - injection H as <- _. apply edgesFrom_self. now rewrite app_nil_r.
  - destruct (mergeIntoResult rect result) as [result'|] eqn:E.
    + apply (edgesFrom_trans (result' ++ ws)); [|eapply IH; eassumption].
      intros e He. apply in_app_or in He as [He|He].
      * apply (edgesFrom_incl (rect :: result));
          [|eapply mergeIntoResult_edges; eassumption].
        intros a [<-|Ha]; apply in_or_app; cbn; auto.
      * apply edgesFrom_self. apply in_or_app. cbn; auto.
    + specialize (IH _ _ _ _ H r' Hr'). now rewrite <- app_assoc in IH.
Qed.

Lemma mergeLoop_edges working :
  forall r', In r' (mergeLoop working) -> edgesFrom working r'.
Proof.
  functional induction (mergeLoop working) as [ws result Hpass IH|ws result Hpass];
    intros r' Hin.
  - apply (edgesFrom_trans result); [|now apply IH].
    intros e He. exact (mergePass_edges _ _ _ _ _ Hpass e He).
  - exact (mergePass_edges _ _ _ _ _ Hpass r' Hin).
Qed.

(** X4. The merge loses nothing and invents nothing: it never returns more
    rectangles than it got, every rectangle it got lies inside one of the
    rectangles returned, and every edge of a returned rectangle is an edge
    of a rectangle it got. *)
Theorem X4_merge_covers_input (rects : list Rect) :
  (length (mergeOverlappingRects rects) <= length rects)%nat /\
  (forall r, In r rects -> coveredBy (mergeOverlappingRects rects) r) /\
  (forall r', In r' (mergeOverlappingRects rects) -> edgesFrom rects r').
Proof.
  unfold mergeOverlappingRects. destruct rects as [|r0 rects].
  - split; [cbn; lia|]. split; [intros r []|intros r' []].
  - split; [apply mergeLoop_length|]. split.
    + intros r Hr. now apply mergeLoop_covers.
    + intros r' Hr'. now apply mergeLoop_edges.
Qed.

Lemma X4_merge_covers_input_witness :
  coveredBy (mergeOverlappingRects bridged_line)
            (mkRect (Qc_of_Z 19) (Qc_of_Z 31) (Qc_of_Z 10) (Qc_of_Z 22)).
Proof.
  apply (proj1 (proj2 (X4_merge_covers_input bridged_line))).
  right. right. left. reflexivity.
Defined.

Lemma Math_abs_sub_sym (a b : Qc) : Math_abs (a - b) = Math_abs (b - a).
Proof.
  unfold Math_abs. do 2 case_bool_decide.
  - exfalso. qc_to_q. lra.
  - ring.
  - ring.
  - assert (a - b <= 0) by (apply Qcnot_lt_le; intros ?; qc_to_q; lra).
    assert (0 <= a - b) by now apply Qcnot_lt_le.
    assert (E : a - b = 0) by now apply Qcle_antisym.
    replace (b - a) with (- (a - b)) by ring. rewrite E. ring.
Qed.

Lemma shouldMerge_sym r e : shouldMerge r e = shouldMerge e r.
Proof.
  unfold shouldMerge.
  rewrite (Math_abs_sub_sym (top r) (top e)), (Math_abs_sub_sym (bottom r) (bottom e)).
  rewrite (andb_comm (ltb (top r) (bottom e))), (andb_comm (ltb (left r) (right e))).
  rewrite (orb_comm (ltb (Math_abs (left r - right e)) 2)).
  reflexivity.
Qed.

Lemma mergeIntoResult_None rect result :
  mergeIntoResult rect result = None ->
  forall e, In e result -> shouldMerge rect e = false.
Proof.
  induction result as [|e0 rest IH]; intros H e He; [destruct He|]. simpl in H.
  destruct (shouldMerge rect e0) eqn:E; [discriminate|].
  destruct (mergeIntoResult rect rest); [discriminate|].
  destruct He as [<-|He]; [exact E|now apply IH].
Qed.

Lemma mergePass_unmerged_pairs working : forall result out,
  mergePass working result false = (out, false) ->
  forall l1 r l2, working = l1 ++ r :: l2 ->
  forall e, In e (result ++ l1) -> shouldMerge r e = false.
Proof.
  induction working as [|rect ws IH]; intros result out H l1 r l2 Hw e He; simpl in H.
  - destruct l1; discriminate.
  - destruct (mergeIntoResult rect result) as [result'|] eqn:E.
    + apply mergePass_true in H. discriminate.
    + destruct l1 as [|a l1]; cbn in Hw; injection Hw as -> ->.
      * rewrite app_nil_r in He. now apply (mergeIntoResult_None _ _ E).
      * apply (IH _ _ H l1 r l2 eq_refl). rewrite <- app_assoc. exact He.
Qed.

(** X5. No two rectangles returned by the merge could be merged with each
    other: the test of the loop rejects every pair of them, in either order. *)
Theorem X5_merge_result_unmergeable (rects : list Rect) (i j : nat) (ri rj : Rect) :
  i <> j ->
  nth_error (mergeOverlappingRects rects) i = Some ri ->
  nth_error (mergeOverlappingRects rects) j = Some rj ->
  shouldMerge ri rj = false.
Proof.
  assert (Hlt : forall out, mergePass out [] false = (out, false) ->
            forall a b ra rb, (a < b)%nat ->
            nth_error out a = Some ra -> nth_error out b = Some rb ->
            shouldMerge rb ra = false).
  { intros out Hst a b ra rb Hab Ha Hb.
    destruct (nth_error_split _ _ Hb) as (l1 & l2 & Hout & Hlen).
    apply (mergePass_unmerged_pairs out [] out Hst l1 rb l2 Hout). cbn [app].
    rewrite Hout in Ha. rewrite nth_error_app1 in Ha by lia.
    now apply nth_error_In in Ha. }
  intros Hij Hi Hj.
  assert (Hst : mergePass (mergeOverlappingRects rects) [] false
                = (mergeOverlappingRects rects, false)).
  { unfold mergeOverlappingRects. destruct rects; [reflexivity|apply mergeLoop_stable]. }
  destruct (Nat.lt_ge_cases i j) as [Hl|Hg].
  - rewrite shouldMerge_sym. exact (Hlt _ Hst i j ri rj Hl Hi Hj).
  - assert (j < i)%nat by lia. exact (Hlt _ Hst j i rj ri H Hj Hi).
Qed.

Lemma X5_merge_result_unmergeable_witness :
  shouldMerge (mkRect (Qc_of_Z 10) (Qc_of_Z 20) (Qc_of_Z 10) (Qc_of_Z 22))
              (mkRect (Qc_of_Z 30) (Qc_of_Z 40) (Qc_of_Z 10) (Qc_of_Z 22)) = false.
Proof.
  apply (X5_merge_result_unmergeable
           [mkRect (Qc_of_Z 10) (Qc_of_Z 20) (Qc_of_Z 10) (Qc_of_Z 22);
            mkRect (Qc_of_Z 30) (Qc_of_Z 40) (Qc_of_Z 10) (Qc_of_Z 22)] 0 1).
  - lia.
  - vm_compute. qc_struct.
  - vm_compute. qc_struct.
Defined.

Section MergeForall.

Variable P : Rect -> Prop.
Hypothesis P_merge : forall e r, P e -> P (mergeRect e r).

Lemma mergeIntoResult_Forall rect : forall result result',
  Forall P result -> mergeIntoResult rect result = Some result' -> Forall P result'.
Proof.
  induction result as [|e rest IH]; intros result' Hall H; simpl in H; [discriminate|].
  apply list.Forall_cons in Hall as [He Hrest].
  destruct (shouldMerge rect e).
  - injection H as <-. constructor; [now apply P_merge|exact Hrest].
  - destruct (mergeIntoResult rect rest) as [rest'|]; [|discriminate].
    injection H as <-. constructor; [exact He|now apply IH].
Qed.

Lemma mergePass_Forall working : forall result merged out b,
  Forall P working -> Forall P result ->
  mergePass working result merged = (out, b) -> Forall P out.
Proof.
  induction working as [|r ws IH]; intros result merged out b Hw Hr H; simpl in H.
  - now injection H as <- _.
  - apply list.Forall_cons in Hw as [Hr0 Hws].
    destruct (mergeIntoResult r result) as [result'|] eqn:E.
    + eapply IH; [exact Hws| |exact H]. eapply mergeIntoResult_Forall; eassumption.
    + eapply IH; [exact Hws| |exact H]. apply Forall_app. split; [exact Hr|].
      now constructor.
Qed.

Lemma mergeOverlappingRects_Forall rects :
  Forall P rects -> Forall P (mergeOverlappingRects rects).
Proof.
  unfold mergeOverlappingRects. destruct rects as [|r0 rects]; [constructor|].
  generalize (r0 :: rects). clear r0 rects. intros working.
  functional induction (mergeLoop working) as [ws result Hpass IH|ws result Hpass];
    intros Hall.
  - apply IH. eapply mergePass_Forall; [exact Hall|constructor|exact Hpass].
  - eapply mergePass_Forall; [exact Hall|constructor|exact Hpass].
Qed.

End MergeForall.

Lemma mergeRect_sized e r : sized e -> sized (mergeRect e r).
Proof.
  intros [Hx Hy]. unfold sized, mergeRect, minSize in *. cbn [left right top bottom].
  pose proof (Math_min_le_l (left e) (left r)). pose proof (Math_max_ge_l (right e) (right r)).
  pose proof (Math_min_le_l (top e) (top r)). pose proof (Math_max_ge_l (bottom e) (bottom r)).
  set (a := Math_min (left e) (left r)) in *. set (b := Math_max (right e) (right r)) in *.
  set (c := Math_min (top e) (top r)) in *. set (d := Math_max (bottom e) (bottom r)) in *.
  clearbody a b c d. split; qc_to_q; lra.
Qed.

Lemma rectArray_sized pageRect scale rects : Forall sized (rectArray pageRect scale rects).
Proof.
  apply List.Forall_forall. intros r Hin. unfold rectArray in Hin.
  apply filter_In in Hin as [_ Hkeep]. unfold keepPdfRect, ltb in Hkeep.
  destruct (bool_decide (right r - left r < minSize)) eqn:Hw; [discriminate|].
  destruct (bool_decide (bottom r - top r < minSize)) eqn:Hh; [discriminate|].
  apply bool_decide_eq_false_1, Qcnot_lt_le in Hw, Hh.
  unfold sized. generalize dependent minSize. intros m Hw Hh _. split; qc_to_q; lra.
Qed.

Lemma Math_abs_nonneg (a : Qc) : 0 <= a -> Math_abs a = a.
Proof.
  intros H. unfold Math_abs. case_bool_decide as Hn; [|reflexivity].
  exfalso. now apply (Qcle_not_lt _ _ H).
Qed.

(** X6. Every quad of [selectionRectsToQuads] is an upright rectangle at
    least one document unit wide and high, with its corners in the order
    top-left, top-right, bottom-left, bottom-right; the rectangle drawn for
    it by the highlight renderer of lib/index.js is that rectangle. *)
Theorem X6_selection_quads_well_formed (v : Viewer) (rects : list Rect) (n : Z) (q : Quad) :
  In q (selectionRectsToQuads v rects n) ->
  fixedWinding q /\
  rectToQuad (quadRect q) = q /\
  1 <= x (p4 q) - x (p1 q) /\ 1 <= y (p4 q) - y (p1 q) /\
  highlightRectOfQuad q = (x (p1 q), y (p1 q), x (p4 q) - x (p1 q), y (p4 q) - y (p1 q)).
Proof.
  unfold selectionRectsToQuads.
  destruct (getPageContainer v n) as [pageRect|]; [|intros []].
  intros Hin. apply in_map_iff in Hin as (r & <- & Hr).
  pose proof (mergeOverlappingRects_Forall sized mergeRect_sized _
                (rectArray_sized pageRect (getScale v) rects)) as Hall.
  rewrite List.Forall_forall in Hall. destruct (Hall r Hr) as [Hx Hy].
  unfold minSize in Hx, Hy.
  assert (Hux : left r < right r) by (qc_to_q; lra).
  assert (Huy : top r < bottom r) by (qc_to_q; lra).
  split; [apply rectToQuad_fixedWinding; now split|].
  split; [now rewrite quadRect_rectToQuad|].
  unfold highlightRectOfQuad, rectToQuad. cbn [p1 p2 p3 p4 x y].
  split; [qc_to_q; lra|]. split; [qc_to_q; lra|].
  rewrite (Math_min_l (left r) (left r)), (Math_min_l (top r) (top r)) by apply Qcle_refl.
  rewrite !Math_abs_nonneg by (qc_to_q; lra). reflexivity.
Qed.

Lemma X6_selection_quads_well_formed_witness :
  fixedWinding (rectToQuad (mkRect (Qc_of_Z 10) (Qc_of_Z 40) (Qc_of_Z 10) (Qc_of_Z 22))).
Proof.
  apply (X6_selection_quads_well_formed viewer_100 bridged_line 1).
  vm_compute. left. qc_struct.
Defined.






(** X8. At a positive thickness and scale no quad of [strokesPathToQuads]
    has its corners in the order top-left, top-right, bottom-left,
    bottom-right: seen from p1, the corners p2 and p3 turn the other way
    than in a quad of [selectionRectsToQuads]. *)
Theorem X8_stroke_quads_turn_left
  (v : Viewer) (pts : list Point) (thickness : Qc) (n : Z) (q : Quad) :
  0 < thickness -> 0 < getScale v ->
  In q (strokesPathToQuads v pts thickness n) ->
  turn q < 0 /\ ~ fixedWinding q /\
  forall rects q', In q' (selectionRectsToQuads v rects n) -> 0 < turn q'.
Proof.
  intros Ht Hs Hin. split; [|split].
  - unfold strokesPathToQuads in Hin.
    destruct (getPageContainer v n) as [pageRect|]; [|destruct Hin].
    assert (Hh : 0 < thickness / 2 / getScale v).
    { repeat apply Qcmult_pos_pos; try apply Qcinv_pos; try assumption.
      qc_to_q. lra. }
    exact (strokeQuads_turn _ _ _ _ _ Hh Hin).
  - exact (stroke_quads_not_fixedWinding v pts thickness n q Ht Hs Hin).
  - intros rects q' Hq'. unfold selectionRectsToQuads in Hq'.
    destruct (getPageContainer v n) as [pageRect|]; [|destruct Hq'].
    apply in_map_iff in Hq' as (r & <- & Hr). apply rectToQuad_turn.
    pose proof (mergeOverlappingRects_Forall upright mergeRect_upright _
                  (rectArray_upright pageRect (getScale v) rects)) as Hall.
    rewrite List.Forall_forall in Hall. now apply Hall.
Qed.

Lemma X8_stroke_quads_turn_left_witness : turn stroke_quad < 0.
Proof.
  apply (X8_stroke_quads_turn_left viewer_100 stroke_0_10 (Qc_of_Z 10) 1 stroke_quad).
  - vm_compute. reflexivity.
  - vm_compute. reflexivity.
  - vm_compute. left. qc_struct.
Defined.

End GeomMore.

(** ** More on the rendering queue *)

Section RenderMore.

Import Render.

Lemma scanUp_sound s n : forall page last p,
  scanUp s n page last = Some p -> page <= p <= last /\ isPageRendered s p = false.
Proof.
  induction n as [|n IH]; intros page last p H; simpl in H; [discriminate|].
  destruct (Z.leb_spec page last); [|discriminate].
  destruct (isPageRendered s page) eqn:E; cbn [negb] in H.
  - apply IH in H. destruct H. split; [lia|assumption].
  - injection H as <-. split; [lia|exact E].
Qed.

Lemma scanDown_sound s n : forall page first p,
  scanDown s n page first = Some p -> first <= p <= page /\ isPageRendered s p = false.
Proof.
  induction n as [|n IH]; intros page first p H; simpl in H; [discriminate|].
  rewrite Z.geb_leb in H. destruct (Z.leb_spec first page); [|discriminate].
  destruct (isPageRendered s page) eqn:E; cbn [negb] in H.
  - apply IH in H. destruct H. split; [lia|assumption].
  - injection H as <-. split; [lia|exact E].
Qed.

Lemma scanAfter_sound s n : forall i last p,
  1 <= i -> scanAfter s n i last = Some p ->
  (last < p <= last + preRenderCount /\ p <= pageCount s) /\ isPageRendered s p = false.
Proof.
  induction n as [|n IH]; intros i last p Hi H; simpl in H; [discriminate|].
  destruct (Z.leb_spec i preRenderCount); [|discriminate].
  destruct (Z.leb_spec (last + i) (pageCount s)); cbn [andb] in H.
  - destruct (isPageRendered s (last + i)) eqn:E; cbn [negb] in H.
    + apply (IH (i + 1)); [lia|exact H].
    + injection H as <-. split; [lia|exact E].
  - apply (IH (i + 1)); [lia|exact H].
Qed.

Lemma scanBefore_sound s n : forall i first p,
  1 <= i -> scanBefore s n i first = Some p ->
  (first - preRenderCount <= p < first /\ 1 <= p) /\ isPageRendered s p = false.
Proof.
  induction n as [|n IH]; intros i first p Hi H; simpl in H; [discriminate|].
  destruct (Z.leb_spec i preRenderCount); [|discriminate].
  rewrite Z.geb_leb in H.
  destruct (Z.leb_spec 1 (first - i)); cbn [andb] in H.
  - destruct (isPageRendered s (first - i)) eqn:E; cbn [negb] in H.
    + apply (IH (i + 1)); [lia|exact H].
    + injection H as <-. split; [lia|exact E].
  - apply (IH (i + 1)); [lia|exact H].
Qed.

Lemma selected_in_window s vp f l p :
  hasViewer s = true -> first vp = Some f -> last vp = Some l ->
  getHighestPriorityPage s (Some vp) = Some p ->
  isPageRendered s p = false /\ inWindow s f l p.
Proof.
  intros Hv Hf Hl. unfold getHighestPriorityPage. rewrite Hv, Hf, Hl. cbn [negb].
  unfold orElse, inWindow.
  destruct (if String.eqb _ "down" then _ else _) as [q|] eqn:Evis.
  - intros [= ->]. destruct (String.eqb _ "down").
    + apply scanUp_sound in Evis as [Hr Hu]. tauto.
    + apply scanDown_sound in Evis as [Hr Hu]. tauto.
  - destruct (scanAfter s _ 1 l) as [q|] eqn:Eafter.
    + intros [= ->]. apply scanAfter_sound in Eafter as [Hr Hu]; [|lia]. tauto.
    + intros Hb. apply scanBefore_sound in Hb as [Hr Hu]; [|lia]. tauto.
Qed.

(** X9. The page selected by [_getHighestPriorityPage] is never a page that
    is RUNNING or FINISHED at the current scale, and never lies outside the
    visible range extended by two existing pages on either side. *)
Theorem X9_selected_page_is_due (s : System) (vp : option VisiblePages) (p : Z) :
  getHighestPriorityPage s vp = Some p ->
  isPageRendered s p = false /\
  exists f l, first (default (visible s) vp) = Some f /\
              last (default (visible s) vp) = Some l /\
              inWindow s f l p.
Proof.
  intros H.
  assert (H' : getHighestPriorityPage s (Some (default (visible s) vp)) = Some p)
    by now destruct vp.
  clear H. revert H'. generalize (default (visible s) vp). intros vp' H.
  assert (Hv : hasViewer s = true).
  { unfold getHighestPriorityPage in H. now destruct (hasViewer s). }
  destruct (first vp') as [f|] eqn:Hf;
    [|unfold getHighestPriorityPage in H; rewrite Hv, Hf in H; discriminate].
  destruct (last vp') as [l|] eqn:Hl;
    [|unfold getHighestPriorityPage in H; rewrite Hv, Hf, Hl in H; discriminate].
  destruct (selected_in_window s vp' f l p Hv Hf Hl H) as [Hu Hw].
  split; [exact Hu|]. exists f, l. auto.
Qed.

Lemma X9_selected_page_is_due_witness :
  isPageRendered (loaded 10 1%Qc view_4_6) 4 = false.
Proof.
  apply (X9_selected_page_is_due (loaded 10 1%Qc view_4_6) None 4).
  vm_compute. reflexivity.
Defined.

Lemma find_none_iff {A} (f : A -> bool) l :
  List.find f l = None <-> forall a, In a l -> f a = false.
Proof.
  split; [apply find_none|].
  induction l as [|a l IH]; intros H; [reflexivity|]. cbn [List.find].
  rewrite (H a (or_introl eq_refl)). apply IH. intros b Hb. apply H. now right.
Qed.

Lemma in_range (a : Z) (n : nat) (p : Z) :
  In p ((fun i => a + Z.of_nat i) <$> seq 0 n) <-> a <= p < a + Z.of_nat n.
Proof.
  rewrite <- list_elem_of_In, list_elem_of_fmap. split.
  - intros (i & -> & Hi). apply list_elem_of_In, in_seq in Hi. lia.
  - intros H. exists (Z.to_nat (p - a)). split; [lia|].
    apply list_elem_of_In, in_seq. lia.
Qed.

(** X10. [_getHighestPriorityPage] answers [null], so that the idle timer
    is armed, exactly when every page of the visible range and every
    existing page up to two pages after and before it is RUNNING or
    FINISHED at the current scale. *)
Theorem X10_idle_when_window_satisfied (s : System) (vp : VisiblePages) (f l : Z) :
  hasViewer s = true -> first vp = Some f -> last vp = Some l ->
  (getHighestPriorityPage s (Some vp) = None <->
   forall p, inWindow s f l p -> isPageRendered s p = true).
Proof.
  intros Hv Hf Hl. split.
  - intros Hnone p Hw.
    unfold getHighestPriorityPage in Hnone. rewrite Hv, Hf, Hl in Hnone. cbn [negb] in Hnone.
    unfold orElse in Hnone.
    destruct (if String.eqb _ "down" then _ else _) eqn:Evis; [discriminate|].
    destruct (scanAfter s _ 1 l) eqn:Eafter; [discriminate|].
    destruct (isPageRendered s p) eqn:Ep; [reflexivity|]. exfalso.
    destruct Hw as [Hr|[[Hr Hc]|[Hr Hc]]].
    + assert (Hin : In p ((fun i => f + Z.of_nat i) <$> seq 0 (Z.to_nat (l - f + 1))))
        by (apply in_range; lia).
      destruct (String.eqb _ "down").
      * rewrite (scanUp_find s _ f l eq_refl) in Evis.
        pose proof (find_none _ _ Evis p Hin) as Hp. cbn beta in Hp.
        rewrite Ep in Hp. discriminate.
      * rewrite (scanDown_find s _ l f eq_refl) in Evis.
        assert (Hin' : In p ((fun i => l - Z.of_nat i) <$> seq 0 (Z.to_nat (l - f + 1)))).
        { rewrite <- list_elem_of_In, list_elem_of_fmap. exists (Z.to_nat (l - p)).
          split; [lia|]. apply list_elem_of_In, in_seq. lia. }
        pose proof (find_none _ _ Evis p Hin') as Hp. cbn beta in Hp.
        rewrite Ep in Hp. discriminate.
    + change (Z.to_nat preRenderCount) with 2%nat in Eafter. unfold preRenderCount in *.
      cbn [scanAfter] in Eafter. change (1 <=? 2) with true in Eafter.
      change (1 + 1 <=? 2) with true in Eafter. cbn iota in Eafter.
      assert (Hp : p = l + 1 \/ p = l + (1 + 1)) by lia.
      destruct Hp as [-> | ->].
      * replace (l + 1 <=? pageCount s) with true in Eafter
          by (symmetry; apply Z.leb_le; lia).
        rewrite Ep in Eafter. discriminate.
      * destruct ((l + 1 <=? pageCount s) && negb (isPageRendered s (l + 1)));
          [discriminate|].
        replace (l + (1 + 1) <=? pageCount s) with true in Eafter
          by (symmetry; apply Z.leb_le; lia).
        rewrite Ep in Eafter. discriminate.
    + change (Z.to_nat preRenderCount) with 2%nat in Hnone. unfold preRenderCount in *.
      cbn [scanBefore] in Hnone. change (1 <=? 2) with true in Hnone.
      change (1 + 1 <=? 2) with true in Hnone. cbn iota in Hnone.
      rewrite !Z.geb_leb in Hnone.
      assert (Hp : p = f - 1 \/ p = f - (1 + 1)) by lia.
      destruct Hp as [-> | ->].
      * replace (1 <=? f - 1) with true in Hnone by (symmetry; apply Z.leb_le; lia).
        rewrite Ep in Hnone. discriminate.
      * destruct ((1 <=? f - 1) && negb (isPageRendered s (f - 1))); [discriminate|].
        replace (1 <=? f - (1 + 1)) with true in Hnone by (symmetry; apply Z.leb_le; lia).
        rewrite Ep in Hnone. discriminate.
  - intros Hall. destruct (getHighestPriorityPage s (Some vp)) as [p|] eqn:E; [|reflexivity].
    destruct (selected_in_window s vp f l p Hv Hf Hl E) as [Hu Hw].
    rewrite (Hall p Hw) in Hu. discriminate.
Qed.

Lemma X10_idle_when_window_satisfied_witness :
  getHighestPriorityPage (loaded 10 1%Qc view_4_6) (Some view_4_6) = None <->
  forall p, inWindow (loaded 10 1%Qc view_4_6) 4 6 p ->
            isPageRendered (loaded 10 1%Qc view_4_6) p = true.
Proof.
  apply (X10_idle_when_window_satisfied (loaded 10 1%Qc view_4_6) view_4_6 4 6);
    reflexivity.
Defined.

Lemma update_lookup (m : gmap Z PageData) (p q : Z) (g : PageData -> PageData) :
  (match m !! p with Some pd => <[p := g pd]> m | None => m end) !! q =
  if decide (p = q) then g <$> m !! p else m !! q.
Proof.
  destruct (m !! p) as [pd|] eqn:Hp; destruct (decide (p = q)) as [->|Hne].
  - now rewrite lookup_insert_eq.
  - now rewrite lookup_insert_ne.
  - exact Hp.
  - reflexivity.
Qed.

(** What a call of [renderHighestPriority] does to the page records: at
    most one record changes, and only in its state, to RUNNING. *)
Lemma renderHighestPriority_pages vp s :
  hasViewer (renderHighestPriority vp s) = hasViewer s /\
  pageCount (renderHighestPriority vp s) = pageCount s /\
  displayScale (renderHighestPriority vp s) = displayScale s /\
  visible (renderHighestPriority vp s) = visible s /\
  forall q, pages (renderHighestPriority vp s) !! q = pages s !! q \/
            exists pd, pages s !! q = Some pd /\
                       pages (renderHighestPriority vp s) !! q =
                       Some (mkPageData RUNNING (renderedScale pd) (pageLoaded pd)).
Proof.
  unfold renderHighestPriority. destruct (hasViewer s) eqn:Hv; cbn [negb];
    [|repeat split; auto].
  destruct (getHighestPriorityPage _ vp) as [p|]; [|repeat split; auto].
  unfold renderPage_begin. cbn [pages with_highest with_idleTimeout displayScale].
  destruct (pages s !! p) as [pd|] eqn:Hp; [|repeat split; auto].
  destruct (bool_decide (renderingState pd = RUNNING)); [repeat split; auto|].
  destruct (_ && _); [repeat split; auto|].
  assert (Hq : forall ph q,
    pages (with_inflight
             (inflight (log_render p (setRenderingState p RUNNING
                          (with_highest (Some p) (with_idleTimeout false s))))
              ++ [mkTask p ph])
             (log_render p (setRenderingState p RUNNING
                (with_highest (Some p) (with_idleTimeout false s))))) !! q = pages s !! q \/
    exists pd0, pages s !! q = Some pd0 /\
      pages (with_inflight
             (inflight (log_render p (setRenderingState p RUNNING
                          (with_highest (Some p) (with_idleTimeout false s))))
              ++ [mkTask p ph])
             (log_render p (setRenderingState p RUNNING
                (with_highest (Some p) (with_idleTimeout false s))))) !! q =
      Some (mkPageData RUNNING (renderedScale pd0) (pageLoaded pd0))).
  { intros ph q. cbn [pages with_inflight log_render setRenderingState with_pages
                      with_highest with_idleTimeout].
    rewrite update_lookup. destruct (decide (p = q)) as [<-|Hne]; [|now left].
    right. exists pd. rewrite Hp. split; reflexivity. }
  destruct (pageLoaded pd); repeat split; auto.
Qed.

Lemma recordsOk_update s p g :
  (forall pd,
     renderingState pd <> PAUSED /\
     (renderingState pd = FINISHED -> pageLoaded pd = true /\ is_Some (renderedScale pd)) ->
     renderingState (g pd) <> PAUSED /\
     (renderingState (g pd) = FINISHED ->
      pageLoaded (g pd) = true /\ is_Some (renderedScale (g pd)))) ->
  recordsOk s ->
  recordsOk (with_pages (fun m => match m !! p with
                                  | Some pd => <[p := g pd]> m
                                  | None => m
                                  end) s).
Proof.
  intros Hg (Hv & Hdom & Hrec). split; [exact Hv|]. cbn [pages with_pages pageCount]. split.
  - intros q. rewrite update_lookup. destruct (decide (p = q)) as [<-|Hne]; [|apply Hdom].
    rewrite <- Hdom. destruct (pages s !! p); cbn; split; intros [x Hx]; eauto; discriminate.
  - intros q pd'. rewrite update_lookup. destruct (decide (p = q)) as [<-|Hne]; [|apply Hrec].
    destruct (pages s !! p) as [pd|] eqn:Hp; [|discriminate]. cbn. intros [= <-].
    apply Hg. apply (Hrec p pd Hp).
Qed.

Lemma recordsOk_ext s s' :
  pages s' = pages s -> pageCount s' = pageCount s -> hasViewer s' = hasViewer s ->
  recordsOk s -> recordsOk s'.
Proof. unfold recordsOk. intros -> -> ->. trivial. Qed.

Lemma renderHighestPriority_recordsOk vp s :
  recordsOk s -> recordsOk (renderHighestPriority vp s).
Proof.
  intros (Hv & Hdom & Hrec).
  destruct (renderHighestPriority_pages vp s) as (Hv' & Hn' & _ & _ & Hq).
  split; [congruence|]. rewrite Hn'. split.
  - intros q. destruct (Hq q) as [->|(pd & Hpd & ->)]; [apply Hdom|].
    rewrite <- Hdom, Hpd. split; eauto.
  - intros q pd'. destruct (Hq q) as [->|(pd & Hpd & ->)]; [apply Hrec|].
    intros [= <-]. cbn. split; discriminate.
Qed.

Lemma step_recordsOk s e s' : recordsOk s -> step s e = Some s' -> recordsOk s'.
Proof.
  intros Hok Hstep. destruct e as [vp| |vp|sc|p|p|p|]; simpl in Hstep.
  - injection Hstep as <-. now apply renderHighestPriority_recordsOk.
  - injection Hstep as <-. now apply renderHighestPriority_recordsOk.
  - injection Hstep as <-. apply renderHighestPriority_recordsOk.
    now apply (recordsOk_ext s).
  - case_bool_decide as Hsc; injection Hstep as <-; [exact Hok|].
    apply renderHighestPriority_recordsOk. now apply (recordsOk_ext s).
  - destruct (takeTask p (inflight s)) as [[[| |sc] rest]|]; try discriminate.
    injection Hstep as <-.
    apply (recordsOk_ext (markLoaded p s)); try reflexivity.
    apply recordsOk_update; [|exact Hok]. intros pd [Hnp Hfin]. cbn. split; [exact Hnp|].
    intros Hf. destruct (Hfin Hf) as [_ Hsc]. split; [reflexivity|exact Hsc].
  - destruct (takeTask p (inflight s)) as [[[| |sc] rest]|]; try discriminate;
      injection Hstep as <-; apply renderHighestPriority_recordsOk.
    + now apply (recordsOk_ext s).
    + apply (recordsOk_ext (finishPage p sc s)); try reflexivity.
      apply recordsOk_update; [|exact Hok]. intros pd _. cbn.
      split; [discriminate|]. intros _. split; [reflexivity|eauto].
  - destruct (takeTask p (inflight s)) as [[[| |sc] rest]|]; try discriminate;
      injection Hstep as <-;
      apply (recordsOk_ext (setRenderingState p INITIAL s)); try reflexivity;
      apply recordsOk_update; try exact Hok; intros pd _; cbn;
      (split; [discriminate|intros ?; discriminate]).
  - destruct (idleTimeout s); [|discriminate]. injection Hstep as <-.
    now apply (recordsOk_ext s).
Qed.

Lemma placeholders_lookup n p :
  placeholders n !! p =
  if bool_decide (1 <= p <= Z.of_nat n) then Some (placeholder p) else None.
Proof.
  induction n as [|n IH]; cbn [placeholders].
  - rewrite lookup_empty. case_bool_decide; [lia|reflexivity].
  - destruct (decide (Z.of_nat (S n) = p)) as [<-|Hne].
    + rewrite lookup_insert_eq. clear IH. now rewrite bool_decide_eq_true_2 by lia.
    + rewrite lookup_insert_ne by exact Hne. rewrite IH. clear IH.
      destruct (decide (1 <= p <= Z.of_nat n)).
      * now rewrite !bool_decide_eq_true_2 by lia.
      * now rewrite !bool_decide_eq_false_2 by lia.
Qed.

Lemma loaded_recordsOk n sc vp : recordsOk (loaded n sc vp).
Proof.
  split; [reflexivity|]. cbn [pages loaded pageCount]. split.
  - intros p. rewrite placeholders_lookup. case_bool_decide; split; intros H'; eauto.
    + destruct H'; discriminate.
    + contradiction.
  - intros p pd. rewrite placeholders_lookup. case_bool_decide; [|discriminate].
    intros [= <-]. cbn. split; discriminate.
Qed.

(** X11. In every reachable state the viewer holds exactly one record for
    each of the pages 1 to [pageCount]; no record is ever PAUSED; and a
    FINISHED record has its page proxy and the scale it was rendered at. *)
Theorem X11_page_records_well_formed (s : System) :
  reachable s -> recordsOk s.
Proof.
  induction 1 as [n sc vp|s e s' _ IH Hstep];
    [apply loaded_recordsOk|exact (step_recordsOk _ _ _ IH Hstep)].
Qed.

Lemma X11_page_records_well_formed_witness :
  exists s, run (loaded 10 1%Qc view_4_6) scenario_events = Some s /\ recordsOk s.
Proof.
  eexists. split; [vm_compute; reflexivity|].
  apply X11_page_records_well_formed.
  apply (reachable_run (loaded 10 1%Qc view_4_6) scenario_events);
    [apply reach_loaded|vm_compute; reflexivity].
Defined.

(** X12. Starting a scheduling pass (a direct call, a resize, a scroll, a
    change of scale) discards nothing: every page record keeps its page
    proxy flag and the scale it was rendered at, and its state is kept or
    becomes RUNNING; at most the scale of the viewer changes. *)
Theorem X12_trigger_keeps_page_data (s s' : System) (e : Event) :
  isTrigger e = true -> step s e = Some s' ->
  pageCount s' = pageCount s /\
  forall p pd, pages s !! p = Some pd ->
    exists pd', pages s' !! p = Some pd' /\
                pageLoaded pd' = pageLoaded pd /\
                renderedScale pd' = renderedScale pd /\
                (renderingState pd' = renderingState pd \/ renderingState pd' = RUNNING).
Proof.
  intros Ht Hstep.
  assert (Hgen : forall vp s0, pages s0 = pages s -> pageCount s0 = pageCount s ->
            pageCount (renderHighestPriority vp s0) = pageCount s /\
            forall p pd, pages s !! p = Some pd ->
              exists pd', pages (renderHighestPriority vp s0) !! p = Some pd' /\
                pageLoaded pd' = pageLoaded pd /\ renderedScale pd' = renderedScale pd /\
                (renderingState pd' = renderingState pd \/ renderingState pd' = RUNNING)).
  { intros vp s0 Hp Hn.
    destruct (renderHighestPriority_pages vp s0) as (_ & Hn' & _ & _ & Hq).
    split; [congruence|]. intros p pd Hpd. rewrite <- Hp in Hpd.
    destruct (Hq p) as [->|(pd0 & Hpd0 & ->)].
    - exists pd. auto.
    - rewrite Hpd in Hpd0. injection Hpd0 as <-. eexists. split; [reflexivity|]. cbn. auto. }
  destruct e as [vp| |vp|sc|p|p|p|]; try discriminate; simpl in Hstep.
  - injection Hstep as <-. now apply Hgen.
  - injection Hstep as <-. now apply Hgen.
  - injection Hstep as <-. now apply Hgen.
  - case_bool_decide as Hsc; injection Hstep as <-; [|now apply Hgen].
    split; [reflexivity|]. intros p pd Hpd. exists pd. auto.
Qed.

Lemma X12_trigger_keeps_page_data_witness :
  pageCount (renderHighestPriority (Some (visible (with_displayScale (Qc_of_Z 2) (loaded 3 1%Qc view_1_2))))
               (with_displayScale (Qc_of_Z 2) (loaded 3 1%Qc view_1_2))) = 3.
Proof.
  apply (X12_trigger_keeps_page_data (loaded 3 1%Qc view_1_2) _ (SetScale (Qc_of_Z 2))).
  - reflexivity.
  - reflexivity.
Defined.

Lemma isPageRendered_ext s1 s2 p :
  pages s1 = pages s2 -> displayScale s1 = displayScale s2 ->
  isPageRendered s1 p = isPageRendered s2 p.
Proof. unfold isPageRendered. now intros -> ->. Qed.

Lemma getHighestPriorityPage_ext s1 s2 vp :
  pages s1 = pages s2 -> displayScale s1 = displayScale s2 ->
  pageCount s1 = pageCount s2 -> hasViewer s1 = hasViewer s2 ->
  visible s1 = visible s2 ->
  getHighestPriorityPage s1 vp = getHighestPriorityPage s2 vp.
Proof.
  intros Hp Hd Hn Hv Hvis.
  assert (Hr : forall p, isPageRendered s1 p = isPageRendered s2 p)
    by (intros p; now apply isPageRendered_ext).
  assert (Hup : forall n a b, scanUp s1 n a b = scanUp s2 n a b).
  { induction n as [|n IH]; intros a b; [reflexivity|]. cbn [scanUp]. now rewrite Hr, IH. }
  assert (Hdn : forall n a b, scanDown s1 n a b = scanDown s2 n a b).
  { induction n as [|n IH]; intros a b; [reflexivity|]. cbn [scanDown]. now rewrite Hr, IH. }
  assert (Haf : forall n a b, scanAfter s1 n a b = scanAfter s2 n a b).
  { induction n as [|n IH]; intros a b; [reflexivity|]. cbn [scanAfter].
    now rewrite Hr, Hn, IH. }
  assert (Hbf : forall n a b, scanBefore s1 n a b = scanBefore s2 n a b).
  { induction n as [|n IH]; intros a b; [reflexivity|]. cbn [scanBefore]. now rewrite Hr, IH. }
  unfold getHighestPriorityPage. rewrite Hv, Hvis.
  destruct (negb (hasViewer s2)); [reflexivity|].
  destruct (first _); [|reflexivity]. destruct (last _); [|reflexivity].
  now rewrite Hup, Hdn, Haf, Hbf.
Qed.

(** The selection as a search along the scan order. *)
Lemma selection_is_search s vp f l :
  hasViewer s = true -> first vp = Some f -> last vp = Some l ->
  1 <= f -> f <= l -> l <= pageCount s ->
  getHighestPriorityPage s (Some vp) =
  hd_error (duePages s f l (scrollDirection vp)).
Proof.
  intros Hv Hf Hl H1 Hfl Hn.
  assert (Hhd : forall (g : Z -> bool) w, hd_error (List.filter g w) = List.find g w).
  { intros g w. induction w as [|a w IH]; [reflexivity|]. cbn. now destruct (g a). }
  unfold duePages. rewrite Hhd.
  unfold getHighestPriorityPage, scanOrder. rewrite Hv, Hf, Hl. cbn [negb].
  rewrite !find_app_orElse.
  rewrite (scanAfter_find s l), (scanBefore_find s f) by lia.
  f_equal.
  destruct (String.eqb (scrollDirection vp) "down").
  - apply scanUp_find. reflexivity.
  - rewrite rev_range.
    replace (f + Z.of_nat (Z.to_nat (l - f + 1)) - 1) with l by lia.
    apply scanDown_find. reflexivity.
Qed.

Lemma in_scanOrder n f l dir p :
  1 <= f -> f <= l -> l <= n ->
  (In p (scanOrder n f l dir) <->
   f <= p <= l \/ (l < p <= l + 2 /\ p <= n) \/ (f - 2 <= p < f /\ 1 <= p)).
Proof.
  intros H1 Hfl Hn. unfold scanOrder.
  assert (Hvis : In p (if String.eqb dir "down"
                       then (fun i => f + Z.of_nat i) <$> seq 0 (Z.to_nat (l - f + 1))
                       else rev ((fun i => f + Z.of_nat i) <$> seq 0 (Z.to_nat (l - f + 1))))
                 <-> f <= p <= l).
  { destruct (String.eqb dir "down"); [|rewrite <- in_rev]; rewrite in_range; lia. }
  rewrite !in_app_iff, Hvis, !filter_In. unfold inDocument. cbn [In].
  rewrite !andb_true_iff, !Z.leb_le. lia.
Qed.

Lemma takeTask_single p ph : takeTask p [mkTask p ph] = Some (ph, []).
Proof. cbn. now rewrite bool_decide_eq_true_2. Qed.

Lemma System_ext (a b : System) :
  pages a = pages b -> pageCount a = pageCount b -> displayScale a = displayScale b ->
  visible a = visible b -> hasViewer a = hasViewer b ->
  highestPriorityPage a = highestPriorityPage b -> idleTimeout a = idleTimeout b ->
  idleCalls a = idleCalls b -> inflight a = inflight b -> renderLog a = renderLog b ->
  a = b.
Proof. destruct a, b. cbn. congruence. Qed.

Lemma renderHighestPriority_selected q p pd :
  hasViewer q = true -> getHighestPriorityPage q None = Some p ->
  isPageRendered q p = false -> pages q !! p = Some pd ->
  renderingState pd <> RUNNING ->
  renderHighestPriority None q =
  with_inflight
    (inflight q ++ [mkTask p (if pageLoaded pd then Drawing (displayScale q) else Fetching)])
    (log_render p (setRenderingState p RUNNING
                     (with_highest (Some p) (with_idleTimeout false q)))).
Proof.
  intros Hv Hsel Hdue Hpd Hnr.
  unfold renderHighestPriority. rewrite Hv. cbn [negb].
  rewrite (getHighestPriorityPage_ext _ q None) by reflexivity. rewrite Hsel.
  unfold isPageRendered in Hdue. rewrite Hpd in Hdue.
  unfold renderPage_begin. cbn [pages with_highest with_idleTimeout displayScale].
  rewrite Hpd. rewrite (bool_decide_eq_false_2 _ Hnr).
  assert (Hn : bool_decide (renderingState pd = FINISHED)
               && bool_decide (renderedScale pd = Some (displayScale q)) = false).
  { destruct (renderingState pd); try reflexivity; exact Hdue. }
  rewrite Hn. now destruct (pageLoaded pd).
Qed.

Lemma complete_selected q p :
  quiet q -> getHighestPriorityPage q None = Some p ->
  isPageRendered q p = false -> 1 <= p <= pageCount q ->
  exists q',
    completeNext (renderHighestPriority None q) = Some (renderHighestPriority None q') /\
    quiet q' /\ visible q' = visible q /\ pageCount q' = pageCount q /\
    displayScale q' = displayScale q /\ renderLog q' = renderLog q ++ [p] /\
    pages q' = <[p := mkPageData FINISHED (Some (displayScale q)) true]> (pages q).
Proof.
  intros (Hok & Hin & Hrun) Hsel Hdue Hp.
  destruct Hok as (Hv & Hdom & Hrec).
  destruct (proj2 (Hdom p) Hp) as [pd Hpd].
  pose proof (Hrun p pd Hpd) as Hnr.
  rewrite (renderHighestPriority_selected q p pd Hv Hsel Hdue Hpd Hnr).
  destruct q as [pg n sc vis hv hp it ic infl lg]. cbn in Hv, Hin, Hpd, Hp, Hdom, Hrec, Hrun.
  subst hv infl.
  exists (mkSystem (<[p := mkPageData FINISHED (Some sc) true]> pg) n sc vis true None
            false ic [] (lg ++ [p])).
  split.
  { unfold completeNext.
    destruct (pageLoaded pd); cbn -[renderHighestPriority insert lookup];
      rewrite ?bool_decide_eq_true_2 by reflexivity;
      cbn -[renderHighestPriority insert lookup];
      rewrite ?bool_decide_eq_true_2 by reflexivity;
      cbn -[renderHighestPriority insert lookup].
    all: apply (f_equal Some); apply (f_equal (renderHighestPriority None));
      apply System_ext; try reflexivity;
      cbn [pages with_highest with_inflight finishPage with_pages log_render
           setRenderingState with_idleTimeout markLoaded];
      rewrite Hpd; cbv beta iota;
      repeat (rewrite lookup_insert_eq; cbv beta iota);
      rewrite ?insert_insert_eq; reflexivity. }
  split; [|cbn; repeat split; reflexivity].
  unfold quiet, recordsOk. cbn [pages pageCount hasViewer inflight].
  split; [|split; [reflexivity|]].
  - split; [reflexivity|]. split.
    + intros r. destruct (decide (r = p)) as [->|Hne].
      * rewrite lookup_insert_eq. split; [now intros _|eauto].
      * rewrite lookup_insert_ne by congruence. apply Hdom.
    + intros r rd. destruct (decide (r = p)) as [->|Hne].
      * rewrite lookup_insert_eq. intros [= <-]. cbn. split; [discriminate|eauto].
      * rewrite lookup_insert_ne by congruence. apply Hrec.
  - intros r rd. destruct (decide (r = p)) as [->|Hne].
    + rewrite lookup_insert_eq. intros [= <-]. discriminate.
    + rewrite lookup_insert_ne by congruence. apply Hrun.
Qed.

Lemma scanOrder_NoDup n f l dir : f <= l -> List.NoDup (scanOrder n f l dir).
Proof.
  intros Hfl. unfold scanOrder.
  assert (Hvis : List.NoDup ((fun i => f + Z.of_nat i) <$> seq 0 (Z.to_nat (l - f + 1)))).
  { apply NoDup_ListNoDup, NoDup_fmap_2; [intros i j Hij; lia|apply NoDup_seq]. }
  assert (Hin : forall p,
             In p (if String.eqb dir "down"
                   then (fun i => f + Z.of_nat i) <$> seq 0 (Z.to_nat (l - f + 1))
                   else rev ((fun i => f + Z.of_nat i) <$> seq 0 (Z.to_nat (l - f + 1))))
             -> f <= p <= l).
  { intros p. destruct (String.eqb dir "down"); [|rewrite <- in_rev];
      rewrite in_range; lia. }
  apply List.NoDup_app.
  - destruct (String.eqb dir "down"); [exact Hvis|now apply List.NoDup_rev].
  - apply List.NoDup_app.
    + apply List.NoDup_filter. repeat constructor; cbn; lia.
    + apply List.NoDup_filter. repeat constructor; cbn; lia.
    + intros p. rewrite !filter_In. cbn [In]. lia.
  - intros p Hp. apply Hin in Hp. rewrite in_app_iff, !filter_In. cbn [In]. lia.
Qed.

Lemma filter_tail (g g' : Z -> bool) p : forall w rest,
  List.NoDup w -> List.filter g w = p :: rest ->
  (forall r, g' r = g r && negb (bool_decide (r = p))) ->
  List.filter g' w = rest.
Proof.
  induction w as [|a w IH]; intros rest Hnd Hf Hg; [discriminate|].
  inversion Hnd as [|? ? Ha Hw]; subst. cbn [List.filter] in *.
  rewrite (Hg a). destruct (g a); cbn [andb].
  - injection Hf as -> <-. rewrite bool_decide_eq_true_2 by reflexivity. cbn [negb].
    apply filter_ext_in. intros r Hr. rewrite Hg.
    rewrite bool_decide_eq_false_2 by (intros ->; contradiction).
    apply andb_true_r.
  - now apply IH.
Qed.

(** With nothing interfering, the pass renders the due pages in scan
    order and then arms the idle timer. *)
Lemma settle_renders_due f l : forall due q,
  quiet q -> first (visible q) = Some f -> last (visible q) = Some l ->
  1 <= f -> f <= l -> l <= pageCount q ->
  duePages q f l (scrollDirection (visible q)) = due ->
  let s' := settle (length due) (renderHighestPriority None q) in
  inflight s' = [] /\ idleTimeout s' = true /\
  renderLog s' = renderLog q ++ due /\
  displayScale s' = displayScale q /\
  (forall p, inWindow q f l p -> isPageRendered s' p = true) /\
  (forall p, ~ In p due -> pages s' !! p = pages q !! p).
Proof.
  induction due as [|p due IH]; intros q Hq Hf Hl H1 Hfl Hn Hdue;
    pose proof Hq as ((Hv & _ & _) & Hin & _);
    pose proof (selection_is_search q (visible q) f l Hv Hf Hl H1 Hfl Hn) as Hsel;
    change (getHighestPriorityPage q (Some (visible q)))
      with (getHighestPriorityPage q None) in Hsel;
    rewrite Hdue in Hsel; cbn [hd_error] in Hsel; cbn [length settle].
  - unfold renderHighestPriority. rewrite Hv. cbn [negb].
    rewrite (getHighestPriorityPage_ext _ q None) by reflexivity. rewrite Hsel.
    cbn. rewrite app_nil_r. repeat split; try assumption; try reflexivity.
    intros p Hw. rewrite (isPageRendered_ext _ q) by reflexivity.
    destruct (isPageRendered q p) eqn:Ep; [reflexivity|]. exfalso.
    assert (Hp : In p (duePages q f l (scrollDirection (visible q)))).
    { apply filter_In. split; [|now rewrite Ep]. apply in_scanOrder; assumption. }
    rewrite Hdue in Hp. exact Hp.
  - assert (Hp : In p (duePages q f l (scrollDirection (visible q))))
      by (rewrite Hdue; now left).
    apply filter_In in Hp as [Hw Hu]. apply negb_true_iff in Hu.
    apply in_scanOrder in Hw; [|assumption..].
    destruct (complete_selected q p Hq Hsel Hu ltac:(lia))
      as (q' & Hc & Hq' & Hvis & Hpc & Hsc & Hlog & Hpg).
    rewrite Hc.
    assert (Hdue' : duePages q' f l (scrollDirection (visible q')) = due).
    { unfold duePages. rewrite Hvis, Hpc.
      apply (filter_tail (fun r => negb (isPageRendered q r)) _ p);
        [now apply scanOrder_NoDup|exact Hdue|].
      intros r. unfold isPageRendered. rewrite Hpg, Hsc. case_bool_decide as Hr.
      - subst r. rewrite lookup_insert_eq. cbn.
        rewrite bool_decide_eq_true_2 by reflexivity. now rewrite andb_false_r.
      - rewrite lookup_insert_ne by congruence. now rewrite andb_true_r. }
    destruct (IH q' Hq' ltac:(now rewrite Hvis) ltac:(now rewrite Hvis) H1 Hfl
                ltac:(now rewrite Hpc) Hdue') as (Ha & Hb & Hc' & Hd & He & Hg).
    repeat split.
    + exact Ha.
    + exact Hb.
    + rewrite Hc', Hlog, <- app_assoc. reflexivity.
    + now rewrite Hd.
    + intros r Hr. apply He. unfold inWindow in *. now rewrite Hpc.
    + intros r Hr. rewrite Hg by (intros Hin'; apply Hr; now right).
      rewrite Hpg. apply lookup_insert_ne. intros ->. apply Hr. now left.
Qed.

Lemma reachable_quiet s : reachable s -> inflight s = [] -> quiet s.
Proof.
  intros Hr Hin. split; [|split; [exact Hin|]].
  - clear Hin. induction Hr as [n sc vp|s e s' _ IH Hstep];
      [apply loaded_recordsOk|exact (step_recordsOk _ _ _ IH Hstep)].
  - intros p pd Hpd Hrun. destruct (reachable_consistent s Hr) as [_ Hc].
    assert (Hp : running s p) by (unfold running; now rewrite Hpd, <- Hrun).
    apply Hc in Hp. unfold activePages in Hp. rewrite Hin in Hp.
    now apply elem_of_nil in Hp.
Qed.

(** X13. When nothing else happens, a scheduling pass started with no render
    awaited renders exactly the pages of the window that are not satisfied,
    each once and in scan order, leaves every other page record alone, and
    ends idle with every page of the window rendered at the display scale. *)
Theorem X13_pass_renders_the_window (s : System) (f l : Z) :
  reachable s -> inflight s = [] ->
  first (visible s) = Some f -> last (visible s) = Some l ->
  1 <= f -> f <= l -> l <= pageCount s ->
  exists s0, step s OnResize = Some s0 /\
    let due := duePages s f l (scrollDirection (visible s)) in
    let s' := settle (length due) s0 in
    inflight s' = [] /\ idleTimeout s' = true /\
    renderLog s' = renderLog s ++ due /\
    (forall p, inWindow s f l p -> isPageRendered s' p = true) /\
    (forall p, ~ In p due -> pages s' !! p = pages s !! p).
Proof.
  intros Hr Hin Hf Hl H1 Hfl Hn. eexists. split; [reflexivity|].
  change (renderHighestPriority (Some (visible s)) s)
    with (renderHighestPriority None s).
  destruct (settle_renders_due f l _ s (reachable_quiet s Hr Hin) Hf Hl H1 Hfl Hn eq_refl)
    as (Ha & Hb & Hc & _ & He & Hg).
  cbn zeta. auto.
Qed.

Lemma X13_pass_renders_the_window_witness :
  exists s0, step (loaded 10 1%Qc view_4_6) OnResize = Some s0 /\
    let due := duePages (loaded 10 1%Qc view_4_6) 4 6 "down" in
    let s' := settle (length due) s0 in
    inflight s' = [] /\ idleTimeout s' = true /\
    renderLog s' = renderLog (loaded 10 1%Qc view_4_6) ++ due /\
    (forall p, inWindow (loaded 10 1%Qc view_4_6) 4 6 p -> isPageRendered s' p = true) /\
    (forall p, ~ In p due ->
       pages s' !! p = pages (loaded 10 1%Qc view_4_6) !! p).
Proof.
  apply (X13_pass_renders_the_window (loaded 10 1%Qc view_4_6) 4 6);
    [apply reach_loaded|reflexivity|reflexivity|reflexivity|lia|lia|cbn; lia].
Defined.

End RenderMore.

(** ** The find controller over its whole life *)

Section FindMore.

Import Find.

(** *** The order of extraction *)

Lemma pageRange_In a b p : In p (pageRange a b) <-> a <= p <= b.
Proof. unfold pageRange. rewrite in_range. lia. Qed.

Lemma pageRange_NoDup a b : List.NoDup (pageRange a b).
Proof.
  unfold pageRange. apply NoDup_ListNoDup, NoDup_fmap_2; [intros i j Hij; lia|].
  apply NoDup_seq.
Qed.

Lemma extractionOrder_pages c :
  visibleInDocument c ->
  List.NoDup (extractionOrder c) /\
  forall p, In p (extractionOrder c) <-> 1 <= p <= numPages c.
Proof.
  unfold visibleInDocument, extractionOrder. intros Hv.
  destruct (visibleFirst c) as [f|], (visibleLast c) as [l|]; try contradiction.
  - destruct Hv as (H1 & Hfl & Hn).
    replace (f =? 0) with false by (symmetry; apply Z.eqb_neq; lia). split.
    + apply List.NoDup_app; [apply pageRange_NoDup| |].
      * apply List.NoDup_app; [apply pageRange_NoDup..|].
        intros p. rewrite !pageRange_In. lia.
      * intros p. rewrite in_app_iff, !pageRange_In. lia.
    + intros p. rewrite !in_app_iff, !pageRange_In. lia.
  - cbn [app]. split.
    + apply List.NoDup_app; [apply pageRange_NoDup..|].
      intros p. rewrite !pageRange_In. lia.
    + intros p. rewrite !in_app_iff, !pageRange_In. lia.
Qed.

(** X19. When the visible range lies in the document, or no page is
    visible, the extraction order names every page of the document exactly
    once, the visible pages first. *)
Theorem X19_extraction_order_covers_document (c : Controller) :
  visibleInDocument c ->
  List.NoDup (extractionOrder c) /\
  (forall p, In p (extractionOrder c) <-> 1 <= p <= numPages c) /\
  Permutation (extractionOrder c) (pageRange 1 (numPages c)) /\
  (forall f l, visibleFirst c = Some f -> visibleLast c = Some l ->
     firstn (Z.to_nat (l - f + 1)) (extractionOrder c) = pageRange f l).
Proof.
  intros Hv. destruct (extractionOrder_pages c Hv) as [Hnd Hin].
  split; [exact Hnd|]. split; [exact Hin|]. split.
  - apply Permutation.NoDup_Permutation; [exact Hnd|apply pageRange_NoDup|].
    intros p. rewrite Hin, pageRange_In. reflexivity.
  - intros f l Hf Hl. unfold extractionOrder. rewrite Hf, Hl.
    replace (Z.to_nat (l - f + 1)) with (length (pageRange f l) + 0)%nat
      by (unfold pageRange; rewrite length_fmap, length_seq; lia).
    rewrite firstn_app_2. cbn [firstn]. apply app_nil_r.
Qed.

Section Host.

Variable regexExecAll : string -> bool -> string -> option (list (Z * Z)).
Variable toLowerCase : string -> string.

Local Abbreviation find := (Find.find regexExecAll toLowerCase).
Local Abbreviation findNext := (Find.findNext regexExecAll toLowerCase).
Local Abbreviation findPrevious := (Find.findPrevious regexExecAll toLowerCase).
Local Abbreviation searchPage := (Find.searchPage regexExecAll toLowerCase).
Local Abbreviation searchExtractedPages := (Find.searchExtractedPages regexExecAll toLowerCase).
Local Abbreviation pageExtracted := (Find.pageExtracted regexExecAll toLowerCase).
Local Abbreviation reachable := (Find.reachable regexExecAll toLowerCase).
Local Abbreviation step := (Find.step regexExecAll toLowerCase).

Lemma pushMatches_eq pageNum pageText hits : forall ms nr,
  pushMatches pageNum pageText hits ms nr =
  (ms ++ newMatches pageNum pageText hits nr, (nr + length hits)%nat).
Proof.
  induction hits as [|[a len] hits IH]; intros ms nr; cbn [pushMatches newMatches length].
  - now rewrite app_nil_r, Nat.add_0_r.
  - rewrite IH, <- app_assoc. cbn [app]. f_equal. lia.
Qed.

(** [_searchPage] either leaves the controller alone or appends the match
    objects of one call of the host's [exec] loop. *)
Lemma searchPage_cases p c :
  searchPage p c = c \/
  exists pageText pattern ic searchText hits,
    pageContents c !! p = Some pageText /\
    regexExecAll pattern ic searchText = Some hits /\
    searchPage p c =
    with_matches (matches c ++ newMatches p pageText hits (nextRef c))
                 (currentMatchIndex c) (nextRef c + length hits)%nat c.
Proof.
  unfold Find.searchPage. destruct (pageContents c !! p) as [pageText|]; [|now left].
  match goal with
  | |- context [regexExecAll ?a ?b ?d] =>
      destruct (regexExecAll a b d) as [hits|] eqn:E; [|now left]
  end.
  right. rewrite pushMatches_eq. eauto 10.
Qed.

Lemma newMatches_length p t hits nr : length (newMatches p t hits nr) = length hits.
Proof.
  revert nr. induction hits as [|[a len] hits IH]; intros nr; cbn; [reflexivity|].
  now rewrite IH.
Qed.

Lemma newMatches_refs p t hits : forall nr,
  List.map ref (newMatches p t hits nr) = seq nr (length hits).
Proof.
  induction hits as [|[a len] hits IH]; intros nr; cbn; [reflexivity|].
  now rewrite IH.
Qed.

Lemma newMatches_In p t hits m : forall nr,
  In m (newMatches p t hits nr) ->
  pageNumber m = p /\
  text m = substring (Z.to_nat (startOffset m))
                     (Z.to_nat (endOffset m - startOffset m)) t /\
  In (startOffset m, endOffset m - startOffset m) hits.
Proof.
  induction hits as [|[a len] hits IH]; intros nr; cbn [newMatches In]; [intros []|].
  intros [<-|H].
  - cbn. repeat split. left. f_equal. lia.
  - destruct (IH _ H) as (H1 & H2 & H3). auto.
Qed.

(** The fields a search of pages does not touch. *)
Lemma searchPage_frame p c :
  pageContents (searchPage p c) = pageContents c /\
  currentMatchIndex (searchPage p c) = currentMatchIndex c /\
  pending (searchPage p c) = pending c /\
  (length (matches c) <= length (matches (searchPage p c)))%nat.
Proof.
  destruct (searchPage_cases p c) as [->|(t & pat & ic & st & hits & _ & _ & ->)];
    [auto|].
  cbn. rewrite length_app. repeat split; lia.
Qed.

Lemma searchPages_frame ps : forall c,
  pageContents (fold_left (fun c pageNum => searchPage pageNum c) ps c) = pageContents c /\
  currentMatchIndex (fold_left (fun c pageNum => searchPage pageNum c) ps c)
  = currentMatchIndex c /\
  pending (fold_left (fun c pageNum => searchPage pageNum c) ps c) = pending c.
Proof.
  induction ps as [|p ps IH]; intros c; [auto|]. cbn [fold_left].
  destruct (IH (searchPage p c)) as (-> & -> & ->).
  destruct (searchPage_frame p c) as (-> & -> & -> & _). auto.
Qed.

Lemma sort_fields c :
  pageContents (sortMatchesAndFixIndex c) = pageContents c /\
  pending (sortMatchesAndFixIndex c) = pending c /\
  nextRef (sortMatchesAndFixIndex c) = nextRef c /\
  matches (sortMatchesAndFixIndex c) = Array_sort compareMatches (matches c).
Proof.
  unfold sortMatchesAndFixIndex.
  now destruct (if currentMatchIndex c >=? 0 then _ else _).
Qed.

Lemma at_index_Some {A} (l : list A) i :
  0 <= i < Z.of_nat (length l) -> exists a, at_index l i = Some a.
Proof.
  intros Hi. unfold at_index.
  replace (i <? 0) with false by (symmetry; apply Z.ltb_ge; lia).
  destruct (nth_error l (Z.to_nat i)) eqn:E; [eauto|].
  apply nth_error_None in E. lia.
Qed.

Lemma at_index_range {A} (l : list A) i a :
  at_index l i = Some a -> 0 <= i < Z.of_nat (length l).
Proof.
  unfold at_index. destruct (Z.ltb_spec i 0) as [Hlt|Hge]; [discriminate|]. intros Hn.
  assert (Hl : (Z.to_nat i < length l)%nat) by (apply nth_error_Some; congruence). lia.
Qed.

Lemma sort_index_range c :
  -1 <= currentMatchIndex c < Z.of_nat (length (matches c)) ->
  -1 <= currentMatchIndex (sortMatchesAndFixIndex c)
     < Z.of_nat (length (matches (sortMatchesAndFixIndex c))).
Proof.
  intros Hi. unfold sortMatchesAndFixIndex.
  pose proof (Permutation_length (Array_sort_perm compareMatches (matches c))) as Hlen.
  destruct (Z.geb_spec (currentMatchIndex c) 0) as [Hge|Hlt].
  - destruct (at_index_Some (matches c) (currentMatchIndex c) ltac:(lia)) as [m Hm].
    rewrite Hm. cbn [currentMatchIndex matches with_matches].
    assert (Hin : In m (Array_sort compareMatches (matches c))).
    { apply (Permutation_in _ (Permutation_sym (Array_sort_perm _ _))).
      eapply at_index_In, Hm. }
    destruct (indexOf_found m _ (ex_intro _ m (conj Hin eq_refl))) as (m' & Hm' & _ & _).
    apply at_index_range in Hm'. lia.
  - cbn [currentMatchIndex matches with_matches]. lia.
Qed.

Lemma find_index_range q options c :
  -1 <= currentMatchIndex c < Z.of_nat (length (matches c)) ->
  -1 <= currentMatchIndex (find q options c)
     < Z.of_nat (length (matches (find q options c))).
Proof.
  intros Hi. unfold Find.find. destruct (isEmpty q); [cbn; lia|].
  match goal with
  | |- context [ensureTextExtraction ?x] => set (c1 := x)
  end.
  destruct (ensureTextExtraction_fields c1) as (_ & Hm1 & Hi1 & _).
  change (matches c1) with (matches c) in Hm1.
  change (currentMatchIndex c1) with (currentMatchIndex c) in Hi1.
  set (c2 := ensureTextExtraction c1) in *.
  destruct (_ || _).
  - destruct (Z.ltb_spec 0 (Z.of_nat (length (matches (searchExtractedPages (clearMatches c2))))));
      cbn [currentMatchIndex matches with_state with_index with_matches]; lia.
  - rewrite Hm1.
    destruct (Z.ltb_spec 0 (Z.of_nat (length (matches c)))); [|rewrite Hi1, Hm1; lia].
    destruct (default false (o_findPrevious options));
      cbn [currentMatchIndex with_index with_matches matches]; rewrite Hi1, Hm1.
    + destruct (Z.ltb_spec (currentMatchIndex c - 1) 0);
        cbn [matches with_state with_index with_matches currentMatchIndex];
        rewrite ?Hm1; lia.
    + destruct (Z.geb_spec (currentMatchIndex c + 1) (Z.of_nat (length (matches c))));
        cbn [matches with_state with_index with_matches currentMatchIndex];
        rewrite ?Hm1; lia.
Qed.

(** X14. In every state the controller can reach, [currentMatchIndex] is -1
    or the index of an entry of [matches]; in particular it is -1 whenever
    there is no match. *)
Theorem X14_current_index_in_range (c : Controller) :
  reachable c ->
  -1 <= currentMatchIndex c < Z.of_nat (length (matches c)).
Proof.
  induction 1 as [|c e c' Hr IH Hstep]; [cbn; lia|].
  destruct e as [n|f l|q options| | |items|]; cbn [Find.step] in Hstep.
  - injection Hstep as <-. cbn. lia.
  - injection Hstep as <-. exact IH.
  - injection Hstep as <-. now apply find_index_range.
  - injection Hstep as <-. now apply find_index_range.
  - injection Hstep as <-. now apply find_index_range.
  - unfold Find.pageExtracted in Hstep.
    destruct (pending c) as [|pageNum todo]; [discriminate|].
    injection Hstep as <-.
    match goal with
    | |- context [continueExtraction ?t ?x] =>
        destruct (continueExtraction_fields t x) as (_ & -> & -> & _)
    end.
    destruct (isEmpty _); [exact IH|].
    match goal with
    | |- context [searchPage ?p ?x] =>
        destruct (searchPage_frame p x) as (_ & Hi & _ & Hl);
        cbn [matches with_contents currentMatchIndex] in Hi, Hl
    end.
    destruct (_ <? _)%nat; [apply sort_index_range|]; rewrite Hi; lia.
  - unfold Find.pageExtractionFailed in Hstep.
    destruct (pending c) as [|pageNum todo]; [discriminate|].
    injection Hstep as <-.
    destruct (continueExtraction_fields todo c) as (_ & -> & -> & _). exact IH.
Qed.

Lemma continueExtraction_store todo c :
  pageContents (continueExtraction todo c) = pageContents c /\
  nextRef (continueExtraction todo c) = nextRef c /\
  pending (continueExtraction todo c) = skipExtracted (pageContents c) todo.
Proof.
  unfold continueExtraction. destruct (skipExtracted (pageContents c) todo) eqn:E;
    repeat split; reflexivity.
Qed.

Lemma skipExtracted_head pc todo p rest :
  skipExtracted pc todo = p :: rest -> pc !! p = None.
Proof.
  induction todo as [|a todo IH]; cbn [skipExtracted]; [discriminate|].
  case_bool_decide as Ha; [exact IH|].
  intros [= -> _]. destruct (pc !! p) eqn:E; [|reflexivity].
  exfalso. apply Ha. eauto.
Qed.

Lemma ensureTextExtraction_store c :
  pageContents (ensureTextExtraction c) = pageContents c /\
  nextRef (ensureTextExtraction c) = nextRef c /\
  (pending (ensureTextExtraction c) = pending c \/
   exists todo, pending (ensureTextExtraction c) = skipExtracted (pageContents c) todo).
Proof.
  unfold ensureTextExtraction.
  destruct (extracting c || extractionComplete c); [auto|].
  destruct (negb (hasDocument c)); [auto|].
  match goal with
  | |- context [continueExtraction ?t ?x] =>
      destruct (continueExtraction_store t x) as (-> & -> & ->)
  end.
  cbn. eauto.
Qed.

Lemma searchPage_refs p c : refsOk c -> refsOk (searchPage p c).
Proof.
  intros [Hnd Hlt].
  destruct (searchPage_cases p c) as [->|(t & pat & ic & st & hits & _ & _ & ->)];
    [now split|].
  split; cbn [matches nextRef with_matches].
  - rewrite List.map_app, newMatches_refs. apply List.NoDup_app.
    + exact Hnd.
    + apply List.seq_NoDup.
    + intros r Hr Hs. apply in_map_iff in Hr as (m & <- & Hm).
      apply Hlt in Hm. apply in_seq in Hs. lia.
  - intros m Hm. apply in_app_iff in Hm as [Hm|Hm].
    + apply Hlt in Hm. lia.
    + assert (Hr : In (ref m) (List.map ref (newMatches p t hits (nextRef c))))
        by now apply in_map.
      rewrite newMatches_refs in Hr. apply in_seq in Hr. lia.
Qed.

Lemma searchPages_refs ps : forall c,
  refsOk c -> refsOk (fold_left (fun c pageNum => searchPage pageNum c) ps c).
Proof.
  induction ps as [|p ps IH]; intros c Hc; [exact Hc|].
  cbn [fold_left]. now apply IH, searchPage_refs.
Qed.

Lemma sort_refs c : refsOk c -> refsOk (sortMatchesAndFixIndex c).
Proof.
  intros [Hnd Hlt]. destruct (sort_fields c) as (_ & _ & Hn & Hm).
  unfold refsOk. rewrite Hn, Hm.
  pose proof (Array_sort_perm compareMatches (matches c)) as Hp. split.
  - eapply Permutation_NoDup; [|exact Hnd].
    apply Permutation_map, Permutation_sym, Hp.
  - intros m Hin. apply Hlt. eapply Permutation_in; eassumption.
Qed.

Lemma refsOk_ext c c' :
  matches c' = matches c -> nextRef c' = nextRef c -> refsOk c -> refsOk c'.
Proof. unfold refsOk. now intros -> ->. Qed.

Lemma find_refs q options c : refsOk c -> refsOk (find q options c).
Proof.
  intros Hc. unfold Find.find.
  destruct (isEmpty q);
    [split; cbn; [constructor|intros m []]|].
  match goal with
  | |- context [ensureTextExtraction ?x] => set (c1 := x)
  end.
  destruct (ensureTextExtraction_fields c1) as (_ & Hm1 & _).
  destruct (ensureTextExtraction_store c1) as (_ & Hn1 & _).
  assert (Hc2 : refsOk (ensureTextExtraction c1))
    by (apply (refsOk_ext c); [exact Hm1|exact Hn1|exact Hc]).
  set (c2 := ensureTextExtraction c1) in *.
  destruct (_ || _).
  - assert (Hs : refsOk (searchExtractedPages (clearMatches c2))).
    { unfold Find.searchExtractedPages. apply searchPages_refs.
      split; cbn; [constructor|intros m []]. }
    destruct (0 <? _); (eapply refsOk_ext; [| |exact Hs]); reflexivity.
  - destruct (0 <? _); [|exact Hc2].
    destruct (default false (o_findPrevious options));
      match goal with
      | |- refsOk (if ?b then _ else _) => destruct b
      end; (eapply refsOk_ext; [| |exact Hc2]); reflexivity.
Qed.

(** Match objects stay distinct in every reachable state. *)
Lemma reachable_refs c : reachable c -> refsOk c.
Proof.
  induction 1 as [|c e c' Hr IH Hstep]; [split; cbn; [constructor|intros m []]|].
  destruct e as [n|f l|q options| | |items|]; cbn [Find.step] in Hstep.
  - injection Hstep as <-. split; cbn; [constructor|intros m []].
  - injection Hstep as <-. exact IH.
  - injection Hstep as <-. now apply find_refs.
  - injection Hstep as <-. now apply find_refs.
  - injection Hstep as <-. now apply find_refs.
  - unfold Find.pageExtracted in Hstep.
    destruct (pending c) as [|pageNum todo]; [discriminate|].
    injection Hstep as <-.
    match goal with
    | |- refsOk (continueExtraction ?t ?x) =>
        destruct (continueExtraction_fields t x) as (_ & Hm & _);
        destruct (continueExtraction_store t x) as (_ & Hn & _);
        apply (refsOk_ext x); [exact Hm|exact Hn|]
    end.
    destruct (isEmpty _); [exact IH|].
    destruct (_ <? _)%nat; [apply sort_refs|]; apply searchPage_refs; exact IH.
  - unfold Find.pageExtractionFailed in Hstep.
    destruct (pending c) as [|pageNum todo]; [discriminate|].
    injection Hstep as <-.
    destruct (continueExtraction_fields todo c) as (_ & Hm & _).
    destruct (continueExtraction_store todo c) as (_ & Hn & _).
    now apply (refsOk_ext c).
Qed.

(** X15. When the text of the awaited page arrives, no match is lost: the
    new list holds the old matches and the matches found on that page; the
    match that was current is current afterwards, and without a current
    match there is none afterwards either. *)
Theorem X15_page_arrival_keeps_current_match
  (c c' : Controller) (items : list TextItem) :
  reachable c -> step c (PageExtracted items) = Some c' ->
  exists p new,
    hd_error (pending c) = Some p /\
    Permutation (matches c') (matches c ++ new) /\
    List.Forall (fun m => pageNumber m = p) new /\
    (forall m, at_index (matches c) (currentMatchIndex c) = Some m ->
               at_index (matches c') (currentMatchIndex c') = Some m) /\
    (currentMatchIndex c = -1 -> currentMatchIndex c' = -1).
Proof.
  intros Hr Hstep. pose proof (reachable_refs c Hr) as Hrefs.
  cbn [Find.step] in Hstep. unfold Find.pageExtracted in Hstep.
  destruct (pending c) as [|p todo]; [discriminate|]. injection Hstep as <-.
  exists p.
  match goal with
  | |- context [continueExtraction ?t ?x] =>
      destruct (continueExtraction_fields t x) as (_ & Hm & Hi & _)
  end.
  setoid_rewrite Hm. setoid_rewrite Hi. clear Hm Hi.
  destruct (isEmpty _).
  { exists []. rewrite app_nil_r. cbn. repeat split; auto. }
  set (x := with_contents _ c).
  assert (Hx : refsOk x) by exact Hrefs.
  change (matches c) with (matches x). change (currentMatchIndex c) with (currentMatchIndex x).
  clearbody x. clear Hrefs.
  destruct (searchPage_cases p x) as [->|(t & pat & ic & st & hits & _ & _ & Hs)].
  { rewrite Nat.ltb_irrefl. exists []. rewrite app_nil_r. repeat split; auto. }
  pose proof (searchPage_refs p x Hx) as Hrefs. rewrite Hs in *.
  exists (newMatches p t hits (nextRef x)).
  assert (Hpg : List.Forall (fun m => pageNumber m = p) (newMatches p t hits (nextRef x))).
  { apply List.Forall_forall. intros m Hin. now apply newMatches_In in Hin. }
  cbn [matches with_matches].
  destruct (Nat.ltb_spec (length (matches x))
              (length (matches x ++ newMatches p t hits (nextRef x)))) as [Hlt|Hge].
  - set (y := with_matches _ _ _ x) in *.
    destruct (sort_fields y) as (_ & _ & _ & Hm). rewrite Hm.
    split; [reflexivity|]. split; [apply Array_sort_perm|].
    split; [exact Hpg|]. split.
    + intros m Hat.
      assert (Hy : at_index (matches y) (currentMatchIndex y) = Some m)
        by (cbn; now apply at_index_app).
      unfold sortMatchesAndFixIndex.
      replace (currentMatchIndex y >=? 0) with true
        by (symmetry; apply at_index_range in Hy; rewrite Z.geb_leb; apply Z.leb_le; lia).
      rewrite Hy. cbn [matches currentMatchIndex with_matches].
      assert (Hin : In m (Array_sort compareMatches (matches y))).
      { apply (Permutation_in _ (Permutation_sym (Array_sort_perm _ _))).
        eapply at_index_In, Hy. }
      destruct (indexOf_found m _ (ex_intro _ m (conj Hin eq_refl)))
        as (m' & Hm' & Href & _).
      rewrite Hm'. f_equal.
      apply (same_ref_same_match (matches y)); [apply Hrefs| | |exact Href].
      * apply (Permutation_in _ (Array_sort_perm compareMatches _)).
        eapply at_index_In, Hm'.
      * eapply at_index_In, Hy.
    + intros Hi. unfold sortMatchesAndFixIndex.
      replace (currentMatchIndex y >=? 0) with false
        by (cbn; rewrite Hi; reflexivity).
      exact Hi.
  - rewrite length_app in Hge.
    destruct (newMatches p t hits (nextRef x)) as [|m0 new0]; [|cbn in Hge; lia].
    rewrite app_nil_r. cbn. repeat split; auto.
Qed.

Lemma sorted_app {A} (R : A -> A -> Prop) (l k : list A) :
  StronglySorted R l -> StronglySorted R k ->
  (forall a b, In a l -> In b k -> R a b) ->
  StronglySorted R (l ++ k).
Proof.
  induction 1 as [|a l Hs IH Hall]; intros Hk Hlk; [exact Hk|].
  cbn [app]. constructor.
  - apply IH; [exact Hk|]. intros x y Hx Hy. apply Hlk; [now right|exact Hy].
  - apply List.Forall_app. split; [exact Hall|].
    apply List.Forall_forall. intros y Hy. apply Hlk; [now left|exact Hy].
Qed.

Lemma newMatches_sorted p t hits : forall nr,
  ascendingHits hits -> StronglySorted matchLe (newMatches p t hits nr).
Proof.
  unfold ascendingHits.
  induction hits as [|[a len] hits IH]; intros nr Hs; cbn [newMatches]; [constructor|].
  apply StronglySorted_inv in Hs as [Hs Hall]. constructor; [now apply IH|].
  apply List.Forall_forall. intros m Hm.
  apply newMatches_In in Hm as (Hp & _ & Hin).
  rewrite List.Forall_forall in Hall. specialize (Hall _ Hin). cbn in Hall.
  right. cbn. split; [now rewrite Hp|exact Hall].
Qed.

Lemma sortedInsert_Z_sorted a l :
  StronglySorted Z.le l -> StronglySorted Z.le (sortedInsert (fun a b => a - b) a l).
Proof.
  induction 1 as [|b l Hs IH Hall]; cbn [sortedInsert].
  - repeat constructor.
  - destruct (Z.leb_spec (a - b) 0) as [Hle|Hgt].
    + constructor; [now constructor|]. constructor; [lia|].
      eapply List.Forall_impl; [|exact Hall]. intros c Hc. cbn beta in Hc. lia.
    + constructor; [exact IH|].
      rewrite (sortedInsert_perm (fun a b => a - b) a l). constructor; [lia|exact Hall].
Qed.

Lemma Array_sort_Z_sorted l : StronglySorted Z.le (Array_sort (fun a b => a - b) l).
Proof.
  induction l as [|a l IH]; cbn [Array_sort]; [constructor|].
  now apply sortedInsert_Z_sorted.
Qed.

Section Ascending.

(** The host's [exec] walks the text from left to right. *)
Hypothesis exec_ascending : forall pattern ic searchText hits,
  regexExecAll pattern ic searchText = Some hits -> ascendingHits hits.

Lemma searchPages_sorted ps :
  StronglySorted Z.le ps -> List.NoDup ps ->
  forall c,
    StronglySorted matchLe (matches c) ->
    (forall m p, In m (matches c) -> In p ps -> pageNumber m < p) ->
    StronglySorted matchLe (matches (fold_left (fun c pageNum => searchPage pageNum c) ps c)).
Proof.
  induction 1 as [|p ps Hs IH Hall]; intros Hnd c Hc Hlt; [exact Hc|].
  cbn [fold_left]. apply List.NoDup_cons_iff in Hnd as [Hp Hnd].
  rewrite List.Forall_forall in Hall.
  destruct (searchPage_cases p c) as [->|(t & pat & ic & st & hits & _ & Hex & ->)].
  - apply IH; [exact Hnd|exact Hc|]. intros m q Hm Hq. apply Hlt; [exact Hm|now right].
  - apply IH; [exact Hnd| |]; cbn [matches with_matches].
    + apply sorted_app; [exact Hc|eapply newMatches_sorted, exec_ascending, Hex|].
      intros a b Ha Hb. apply newMatches_In in Hb as (Hb & _). left. rewrite Hb.
      apply Hlt; [exact Ha|now left].
    + intros m q Hm Hq. apply in_app_iff in Hm as [Hm|Hm].
      * apply Hlt; [exact Hm|now right].
      * apply newMatches_In in Hm as (-> & _).
        specialize (Hall q Hq). assert (p <> q) by (intros ->; contradiction). lia.
Qed.

Lemma searchExtractedPages_sorted c :
  StronglySorted matchLe (matches (searchExtractedPages c)).
Proof.
  unfold Find.searchExtractedPages. apply searchPages_sorted.
  - apply Array_sort_Z_sorted.
  - eapply Permutation_NoDup; [apply Permutation_sym, Array_sort_perm|].
    apply NoDup_ListNoDup, NoDup_fst_map_to_list.
  - constructor.
  - intros m p [].
Qed.

Lemma find_sorted q options c :
  StronglySorted matchLe (matches c) ->
  StronglySorted matchLe (matches (find q options c)).
Proof.
  intros Hc. unfold Find.find. destruct (isEmpty q); [constructor|].
  match goal with
  | |- context [ensureTextExtraction ?x] => set (c1 := x)
  end.
  destruct (ensureTextExtraction_fields c1) as (_ & Hm1 & _).
  change (matches c1) with (matches c) in Hm1.
  set (c2 := ensureTextExtraction c1) in *.
  destruct (_ || _).
  - pose proof (searchExtractedPages_sorted (clearMatches c2)) as Hs.
    destruct (0 <? _); exact Hs.
  - destruct (0 <? _); [|now rewrite Hm1].
    destruct (default false (o_findPrevious options));
      match goal with
      | |- StronglySorted _ (matches (if ?b then _ else _)) => destruct b
      end; cbn [matches with_state with_index with_matches]; now rewrite Hm1.
Qed.

(** X16. As long as the host's [exec] reports its results from left to
    right, the match list is sorted by page and then by start offset in
    every state the controller can reach. *)
Theorem X16_matches_stay_sorted (c : Controller) :
  reachable c -> StronglySorted matchLe (matches c).
Proof.
  induction 1 as [|c e c' Hr IH Hstep]; [constructor|].
  destruct e as [n|f l|q options| | |items|]; cbn [Find.step] in Hstep.
  - injection Hstep as <-. constructor.
  - injection Hstep as <-. exact IH.
  - injection Hstep as <-. now apply find_sorted.
  - injection Hstep as <-. now apply find_sorted.
  - injection Hstep as <-. now apply find_sorted.
  - unfold Find.pageExtracted in Hstep.
    destruct (pending c) as [|p todo]; [discriminate|].
    injection Hstep as <-.
    match goal with
    | |- context [continueExtraction ?t ?x] =>
        destruct (continueExtraction_fields t x) as (_ & -> & _)
    end.
    destruct (isEmpty _); [exact IH|].
    set (x := with_contents _ c).
    change (matches c) with (matches x) in IH |- *. clearbody x.
    destruct (Nat.ltb_spec (length (matches x)) (length (matches (searchPage p x))))
      as [Hlt|Hge].
    + destruct (sort_fields (searchPage p x)) as (_ & _ & _ & ->).
      apply Array_sort_sorted.
    + destruct (searchPage_cases p x) as [->|(t & pat & ic & st & hits & _ & _ & Hs)];
        [exact IH|].
      rewrite Hs in *. cbn [matches with_matches] in *. rewrite length_app in Hge.
      destruct (newMatches p t hits (nextRef x)); [|cbn in Hge; lia].
      now rewrite app_nil_r.
  - unfold Find.pageExtractionFailed in Hstep.
    destruct (pending c) as [|p todo]; [discriminate|].
    injection Hstep as <-.
    destruct (continueExtraction_fields todo c) as (_ & -> & _). exact IH.
Qed.

End Ascending.

Lemma matchInText_ext c c' m :
  pageContents c' = pageContents c -> matchInText c m -> matchInText c' m.
Proof. unfold matchInText. now intros ->. Qed.

Lemma searchPage_inText p c :
  (forall m, In m (matches c) -> matchInText c m) ->
  forall m, In m (matches (searchPage p c)) -> matchInText (searchPage p c) m.
Proof.
  intros Hc.
  destruct (searchPage_cases p c) as [->|(t & pat & ic & st & hits & Ht & _ & ->)];
    [exact Hc|].
  intros m Hm. cbn [matches with_matches] in Hm.
  apply (matchInText_ext c); [reflexivity|].
  apply in_app_iff in Hm as [Hm|Hm]; [now apply Hc|].
  apply newMatches_In in Hm as (Hp & Htxt & _).
  exists t. now rewrite Hp.
Qed.

Lemma searchPages_inText ps : forall c,
  (forall m, In m (matches c) -> matchInText c m) ->
  forall m, In m (matches (fold_left (fun c pageNum => searchPage pageNum c) ps c)) ->
            matchInText (fold_left (fun c pageNum => searchPage pageNum c) ps c) m.
Proof.
  induction ps as [|p ps IH]; intros c Hc; [exact Hc|].
  cbn [fold_left]. now apply IH, searchPage_inText.
Qed.

Lemma find_store q options c :
  pageContents (find q options c) = pageContents c /\
  (pending (find q options c) = pending c \/
   exists todo, pending (find q options c) = skipExtracted (pageContents c) todo).
Proof.
  unfold Find.find. destruct (isEmpty q); [auto|].
  match goal with
  | |- context [ensureTextExtraction ?x] => set (c1 := x)
  end.
  destruct (ensureTextExtraction_store c1) as (Hp1 & _ & Hq1).
  change (pageContents c1) with (pageContents c) in Hp1, Hq1.
  change (pending c1) with (pending c) in Hq1.
  set (c2 := ensureTextExtraction c1) in *.
  destruct (_ || _).
  - assert (HX : pageContents (searchExtractedPages (clearMatches c2)) = pageContents c2 /\
                 pending (searchExtractedPages (clearMatches c2)) = pending c2).
    { unfold Find.searchExtractedPages.
      match goal with
      | |- context [fold_left ?f ?ps ?x] =>
          destruct (searchPages_frame ps x) as (Hp & _ & Hq)
      end.
      rewrite Hp, Hq. split; reflexivity. }
    destruct HX as [Hp Hq].
    set (X := searchExtractedPages (clearMatches c2)) in *. clearbody X.
    destruct (0 <? _);
      cbn [pageContents pending with_state with_index with_matches];
      rewrite Hp, Hq; auto.
  - destruct (0 <? _); [|auto].
    destruct (default false (o_findPrevious options));
      match goal with
      | |- context [if ?b then _ else _] => destruct b
      end; cbn [pageContents pending with_state with_index with_matches]; auto.
Qed.

Lemma find_inText q options c :
  (forall m, In m (matches c) -> matchInText c m) ->
  forall m, In m (matches (find q options c)) -> matchInText (find q options c) m.
Proof.
  intros Hc m Hm. apply (matchInText_ext c); [apply find_store|].
  revert Hm. unfold Find.find. destruct (isEmpty q); [intros []|].
  match goal with
  | |- context [ensureTextExtraction ?x] => set (c1 := x)
  end.
  destruct (ensureTextExtraction_fields c1) as (_ & Hm1 & _).
  destruct (ensureTextExtraction_store c1) as (Hp1 & _).
  change (matches c1) with (matches c) in Hm1.
  change (pageContents c1) with (pageContents c) in Hp1.
  set (c2 := ensureTextExtraction c1) in *.
  destruct (_ || _).
  - assert (Hs : forall m, In m (matches (searchExtractedPages (clearMatches c2))) ->
                           matchInText c m).
    { intros m' Hm'. unfold Find.searchExtractedPages in Hm'.
      apply searchPages_inText in Hm'; [|intros ? []].
      revert Hm'. apply matchInText_ext.
      match goal with
      | |- context [fold_left ?f ?ps ?x] =>
          destruct (searchPages_frame ps x) as (Hp & _)
      end.
      rewrite Hp. cbn [pageContents with_matches clearMatches]. now rewrite Hp1. }
    destruct (0 <? _); apply Hs.
  - destruct (0 <? _); [|rewrite Hm1; apply Hc].
    destruct (default false (o_findPrevious options));
      match goal with
      | |- context [if ?b then _ else _] => destruct b
      end; cbn [matches with_state with_index with_matches]; rewrite Hm1; apply Hc.
Qed.

(** X17. In every state the controller can reach, each match lies on a
    page whose text has been extracted from the current document and
    carries the text found there between its offsets; and the page the
    extraction loop is waiting for has no text stored yet. *)
Theorem X17_matches_point_into_text (c : Controller) :
  reachable c ->
  (forall m, In m (matches c) -> matchInText c m) /\
  (forall p, hd_error (pending c) = Some p -> pageContents c !! p = None).
Proof.
  assert (Hskip : forall pc todo p,
             hd_error (skipExtracted pc todo) = Some p -> pc !! p = None).
  { intros pc todo p. destruct (skipExtracted pc todo) as [|a rest] eqn:E; [discriminate|].
    intros [= <-]. eapply skipExtracted_head, E. }
  induction 1 as [|c e c' Hr [IHm IHp] Hstep]; [split; [intros m []|discriminate]|].
  destruct e as [n|f l|q options| | |items|]; cbn [Find.step] in Hstep.
  - injection Hstep as <-. split; [intros m []|]. intros p _. apply lookup_empty.
  - injection Hstep as <-. split; [exact IHm|exact IHp].
  - injection Hstep as <-. split; [now apply find_inText|].
    destruct (find_store q options c) as (-> & [->|[todo ->]]); [exact IHp|apply Hskip].
  - injection Hstep as <-. split; [now apply find_inText|]. unfold Find.findNext.
    match goal with
    | |- context [Find.find _ _ ?q ?o c] =>
        destruct (find_store q o c) as (-> & [->|[todo ->]])
    end; [exact IHp|apply Hskip].
  - injection Hstep as <-. split; [now apply find_inText|]. unfold Find.findPrevious.
    match goal with
    | |- context [Find.find _ _ ?q ?o c] =>
        destruct (find_store q o c) as (-> & [->|[todo ->]])
    end; [exact IHp|apply Hskip].
  - unfold Find.pageExtracted in Hstep.
    destruct (pending c) as [|p todo]; [discriminate|].
    injection Hstep as <-.
    specialize (IHp p eq_refl).
    match goal with
    | |- context [continueExtraction ?t ?x] =>
        destruct (continueExtraction_fields t x) as (_ & Hm & _);
        destruct (continueExtraction_store t x) as (Hpc & _ & Hpd)
    end.
    split; [|intros r; rewrite Hpd, Hpc; apply Hskip].
    intros m. rewrite Hm. intros Hin.
    eapply matchInText_ext; [exact Hpc|]. revert m Hin. clear Hm Hpc Hpd.
    set (x := with_contents _ c).
    assert (Hx : forall m, In m (matches x) -> matchInText x m).
    { intros m Hin. destruct (IHm m Hin) as (t & Ht & Htxt).
      exists t. split; [|exact Htxt]. cbn [pageContents with_contents x].
      rewrite lookup_insert_ne; [exact Ht|]. intros Heq. rewrite <- Heq in Ht.
      congruence. }
    clearbody x. destruct (isEmpty _); [exact Hx|].
    pose proof (searchPage_inText p x Hx) as Hs.
    destruct (_ <? _)%nat; [|exact Hs].
    destruct (sort_fields (searchPage p x)) as (Hpc & _ & _ & Hm).
    intros m. rewrite Hm. intros Hin.
    eapply matchInText_ext; [exact Hpc|]. apply Hs.
    eapply Permutation_in; [apply Array_sort_perm|exact Hin].
  - unfold Find.pageExtractionFailed in Hstep.
    destruct (pending c) as [|p todo]; [discriminate|].
    injection Hstep as <-.
    destruct (continueExtraction_fields todo c) as (_ & Hm & _).
    destruct (continueExtraction_store todo c) as (Hpc & _ & Hpd).
    split; [|intros r; rewrite Hpd, Hpc; apply Hskip].
    intros m. rewrite Hm. intros Hin.
    eapply matchInText_ext; [exact Hpc|]. now apply IHm.
Qed.

(** X18. With a current match, [findPrevious] undoes [findNext] and
    [findNext] undoes [findPrevious]: the index is back where it was and
    the match list is untouched, also across the wrap at either end. *)
Theorem X18_previous_undoes_next (c : Controller) :
  isEmpty (query c) = false ->
  0 <= currentMatchIndex c < Z.of_nat (length (matches c)) ->
  currentMatchIndex (findPrevious (findNext c)) = currentMatchIndex c /\
  currentMatchIndex (findNext (findPrevious c)) = currentMatchIndex c /\
  matches (findPrevious (findNext c)) = matches c /\
  matches (findNext (findPrevious c)) = matches c.
Proof.
  intros Hq Hi.
  assert (Hm : matches c <> []) by (destruct (matches c); [cbn in Hi; lia|discriminate]).
  assert (Hstep : forall prev x,
             isEmpty (query x) = false -> matches x <> [] ->
             let x' := find (query x)
                         (mkOptions (Some (caseSensitive x)) (Some (entireWord x))
                                    (Some (highlightAll x)) (Some prev)) x in
             isEmpty (query x') = false /\ matches x' = matches x /\
             currentMatchIndex x' =
             (if prev
              then if currentMatchIndex x - 1 <? 0
                   then Z.of_nat (length (matches x)) - 1 else currentMatchIndex x - 1
              else if currentMatchIndex x + 1 >=? Z.of_nat (length (matches x))
                   then 0 else currentMatchIndex x + 1)).
  { intros prev x Hqx Hmx. cbn zeta.
    destruct (find_navigate regexExecAll toLowerCase prev x Hqx Hmx) as [H1 H2].
    pose proof (find_query regexExecAll toLowerCase (query x)
                  (mkOptions (Some (caseSensitive x)) (Some (entireWord x))
                             (Some (highlightAll x)) (Some prev)) x) as H3.
    rewrite Hqx in H3. rewrite H3. split; [exact Hqx|]. split; [exact H1|].
    destruct prev; match goal with
                   | H : if ?b then _ else _ |- _ => destruct b
                   end; tauto. }
  destruct (Hstep false c Hq Hm) as (Hq1 & Hm1 & Hi1).
  destruct (Hstep true c Hq Hm) as (Hq2 & Hm2 & Hi2).
  fold (findNext c) in Hq1, Hm1, Hi1. fold (findPrevious c) in Hq2, Hm2, Hi2.
  destruct (Hstep true (findNext c) Hq1 ltac:(now rewrite Hm1)) as (_ & Hm3 & Hi3).
  destruct (Hstep false (findPrevious c) Hq2 ltac:(now rewrite Hm2)) as (_ & Hm4 & Hi4).
  fold (findPrevious (findNext c)) in Hm3, Hi3.
  fold (findNext (findPrevious c)) in Hm4, Hi4.
  rewrite Hm3, Hm4, Hm1, Hm2, Hi3, Hi4, Hm1, Hm2, Hi1, Hi2.
  destruct (Z.geb_spec (currentMatchIndex c + 1) (Z.of_nat (length (matches c))));
    destruct (Z.ltb_spec (currentMatchIndex c - 1) 0);
    repeat split;
    repeat match goal with
           | |- context [?a <? ?b] => destruct (Z.ltb_spec a b)
           | |- context [?a >=? ?b] => destruct (Z.geb_spec a b)
           end; lia.
Qed.

(** *** The match list against a fresh search *)

Local Abbreviation foundOn := (Find.foundOn regexExecAll toLowerCase).

Lemma newMatches_keys p t hits : forall nr nr',
  List.map matchKey (newMatches p t hits nr) = List.map matchKey (newMatches p t hits nr').
Proof.
  induction hits as [|[a len] hits IH]; intros nr nr'; cbn; [reflexivity|].
  now rewrite (IH (S nr) (S nr')).
Qed.

Lemma sameSearch_refl c : sameSearch c c.
Proof. now split. Qed.

Lemma sameSearch_trans a b c : sameSearch a b -> sameSearch b c -> sameSearch a c.
Proof. unfold sameSearch. intros (-> & -> & ->) (-> & -> & ->). auto. Qed.

Lemma sameSearch_sym a b : sameSearch a b -> sameSearch b a.
Proof. unfold sameSearch. intros (-> & -> & ->). auto. Qed.

Lemma searchPage_same p c : sameSearch c (searchPage p c).
Proof.
  destruct (searchPage_cases p c) as [->|(t & pat & ic & st & hits & _ & _ & ->)];
    now split.
Qed.

Lemma sort_same c : sameSearch c (sortMatchesAndFixIndex c).
Proof.
  unfold sortMatchesAndFixIndex.
  now destruct (if currentMatchIndex c >=? 0 then _ else _).
Qed.

Lemma continueExtraction_same todo c : sameSearch c (continueExtraction todo c).
Proof. destruct (continueExtraction_fields todo c) as (? & _ & _ & ? & ? & _). now split. Qed.

Lemma ensureTextExtraction_same c : sameSearch c (ensureTextExtraction c).
Proof. destruct (ensureTextExtraction_fields c) as (? & _ & _ & ? & ? & _). now split. Qed.

(** What [_searchPage] appends depends on the query, the two options and
    the text of the page only. *)
Lemma searchPage_keys c c' p :
  sameSearch c c' -> pageContents c' !! p = pageContents c !! p ->
  exists new,
    List.map matchKey (matches (searchPage p c)) = List.map matchKey (matches c) ++ new /\
    List.map matchKey (matches (searchPage p c')) = List.map matchKey (matches c') ++ new.
Proof.
  intros (Hq & Hcs & Hew) Hpc. unfold Find.searchPage. rewrite Hpc, Hq, Hcs, Hew.
  destruct (pageContents c !! p) as [t|];
    [|exists []; now rewrite !app_nil_r].
  match goal with
  | |- context [regexExecAll ?a ?b ?d] =>
      destruct (regexExecAll a b d) as [hits|];
        [|exists []; now rewrite !app_nil_r]
  end.
  rewrite !pushMatches_eq. cbn [matches with_matches].
  exists (List.map matchKey (newMatches p t hits 0)).
  rewrite !List.map_app.
  now rewrite (newMatches_keys p t hits (nextRef c) 0),
              (newMatches_keys p t hits (nextRef c') 0).
Qed.

Lemma foundOn_keys c c' p :
  sameSearch c c' -> pageContents c' !! p = pageContents c !! p ->
  List.map matchKey (foundOn c' p) = List.map matchKey (foundOn c p).
Proof.
  intros Hs Hpc. unfold Find.foundOn. destruct Hs as (Hq & Hcs & Hew). rewrite Hq.
  destruct (isEmpty (query c)); [reflexivity|].
  destruct (searchPage_keys (clearMatches c) (clearMatches c') p) as (new & H1 & H2);
    [now split|exact Hpc|].
  rewrite H1, H2. reflexivity.
Qed.

Lemma searchPage_found p c :
  isEmpty (query c) = false ->
  List.map matchKey (matches (searchPage p c))
  = List.map matchKey (matches c) ++ List.map matchKey (foundOn c p).
Proof.
  intros Hq. unfold Find.foundOn. rewrite Hq.
  destruct (searchPage_keys c (clearMatches c) p) as (new & H1 & H2);
    [now split|reflexivity|].
  rewrite H1, H2. reflexivity.
Qed.

Lemma flat_map_keys_ext (f g : Z -> list (Z * Z * Z * string)) ps :
  (forall p, In p ps -> f p = g p) -> flat_map f ps = flat_map g ps.
Proof.
  induction ps as [|p ps IH]; intros H; [reflexivity|]. cbn [flat_map].
  rewrite (H p) by now left. rewrite IH; [reflexivity|]. intros r Hr. apply H. now right.
Qed.

Lemma searchPages_found ps : forall c,
  isEmpty (query c) = false ->
  List.map matchKey (matches (fold_left (fun c pageNum => searchPage pageNum c) ps c))
  = List.map matchKey (matches c)
    ++ flat_map (fun p => List.map matchKey (foundOn c p)) ps.
Proof.
  induction ps as [|p ps IH]; intros c Hq; cbn [fold_left flat_map];
    [now rewrite app_nil_r|].
  pose proof (searchPage_same p c) as Hs.
  rewrite IH by (destruct Hs as (-> & _); exact Hq).
  rewrite searchPage_found by exact Hq. rewrite <- app_assoc. do 2 f_equal.
  apply flat_map_keys_ext. intros r _. apply foundOn_keys; [exact Hs|].
  now destruct (searchPage_frame p c) as (-> & _).
Qed.

Lemma found_ext c c' :
  sameSearch c c' -> pageContents c' = pageContents c ->
  flat_map (fun p => List.map matchKey (foundOn c' p)) (extractedPages c')
  = flat_map (fun p => List.map matchKey (foundOn c p)) (extractedPages c).
Proof.
  intros Hs Hpc. unfold extractedPages. rewrite Hpc.
  apply flat_map_keys_ext. intros p _. apply foundOn_keys; [exact Hs|now rewrite Hpc].
Qed.

Lemma found_empty c ps :
  isEmpty (query c) = true ->
  flat_map (fun p => List.map matchKey (foundOn c p)) ps = [].
Proof.
  intros Hq. induction ps as [|p ps IH]; [reflexivity|]. cbn [flat_map].
  rewrite IH. unfold Find.foundOn. now rewrite Hq.
Qed.

Lemma searchPages_same ps : forall c,
  sameSearch c (fold_left (fun c pageNum => searchPage pageNum c) ps c).
Proof.
  induction ps as [|p ps IH]; intros c; [apply sameSearch_refl|]. cbn [fold_left].
  eapply sameSearch_trans; [apply searchPage_same|apply IH].
Qed.

Lemma found_transfer y c' :
  matches c' = matches y -> sameSearch y c' -> pageContents c' = pageContents y ->
  Permutation (List.map matchKey (matches y))
    (flat_map (fun p => List.map matchKey (foundOn y p)) (extractedPages y)) ->
  Permutation (List.map matchKey (matches c'))
    (flat_map (fun p => List.map matchKey (foundOn c' p)) (extractedPages c')).
Proof. intros -> Hs Hpc H. now rewrite (found_ext y c' Hs Hpc). Qed.

Lemma searchExtractedPages_found c :
  isEmpty (query c) = false ->
  Permutation (List.map matchKey (matches (searchExtractedPages c)))
    (flat_map (fun p => List.map matchKey (foundOn (searchExtractedPages c) p))
              (extractedPages (searchExtractedPages c))).
Proof.
  intros Hq. unfold Find.searchExtractedPages.
  set (x := with_matches [] (currentMatchIndex c) (nextRef c) c).
  set (ps := Array_sort _ _).
  rewrite (found_ext x (fold_left _ ps x));
    [|apply searchPages_same|now destruct (searchPages_frame ps x) as (-> & _)].
  rewrite searchPages_found by exact Hq. cbn [matches with_matches x List.map app].
  apply Permutation_flat_map. apply Array_sort_perm.
Qed.

Lemma find_found q options c :
  Permutation (List.map matchKey (matches c))
    (flat_map (fun p => List.map matchKey (foundOn c p)) (extractedPages c)) ->
  Permutation (List.map matchKey (matches (find q options c)))
    (flat_map (fun p => List.map matchKey (foundOn (find q options c) p))
              (extractedPages (find q options c))).
Proof.
  intros IH. unfold Find.find. destruct (isEmpty q) eqn:Hq.
  { rewrite found_empty by exact Hq. reflexivity. }
  match goal with
  | |- context [ensureTextExtraction ?x] => set (c1 := x)
  end.
  pose proof (ensureTextExtraction_same c1) as Hs2.
  destruct (ensureTextExtraction_fields c1) as (_ & Hm2 & _).
  destruct (ensureTextExtraction_store c1) as (Hp2 & _).
  change (matches c1) with (matches c) in Hm2.
  change (pageContents c1) with (pageContents c) in Hp2.
  set (c2 := ensureTextExtraction c1) in *.
  destruct (_ || _) eqn:Hch.
  - assert (HX : Permutation
                   (List.map matchKey (matches (searchExtractedPages (clearMatches c2))))
                   (flat_map (fun p => List.map matchKey
                                (foundOn (searchExtractedPages (clearMatches c2)) p))
                      (extractedPages (searchExtractedPages (clearMatches c2))))).
    { apply searchExtractedPages_found. destruct Hs2 as (Hq2 & _).
      cbn [query clearMatches with_matches]. now rewrite Hq2. }
    set (X := searchExtractedPages (clearMatches c2)) in *. clearbody X.
    destruct (0 <? _); (eapply found_transfer; [| | |exact HX]);
      first [reflexivity|repeat split; reflexivity].
  - apply orb_false_iff in Hch as [Hqc Hoc].
    apply orb_false_iff in Hoc as [Hcs Hew].
    apply negb_false_iff, String.eqb_eq in Hqc.
    apply negb_false_iff, bool_decide_eq_true in Hcs.
    apply negb_false_iff, bool_decide_eq_true in Hew.
    assert (Hs1 : sameSearch c c1).
    { split; [exact Hqc|]. cbn [caseSensitive entireWord with_search c1].
      rewrite Hcs, Hew. now split. }
    assert (Hc2 : Permutation (List.map matchKey (matches c2))
                    (flat_map (fun p => List.map matchKey (foundOn c2 p))
                       (extractedPages c2))).
    { apply (found_transfer c); [exact Hm2| |exact Hp2|exact IH].
      eapply sameSearch_trans; eassumption. }
    clearbody c2. clear IH.
    destruct (0 <? _); [|exact Hc2].
    destruct (default false (o_findPrevious options));
      match goal with
      | |- context [if ?b then _ else _] => destruct b
      end; (eapply found_transfer; [| | |exact Hc2]);
      first [reflexivity|repeat split; reflexivity].
Qed.

Lemma reachable_pending_fresh c p :
  reachable c -> hd_error (pending c) = Some p -> pageContents c !! p = None.
Proof.
  assert (Hskip : forall pc todo r,
             hd_error (skipExtracted pc todo) = Some r -> pc !! r = None).
  { intros pc todo r. destruct (skipExtracted pc todo) as [|a rest] eqn:E; [discriminate|].
    intros [= <-]. eapply skipExtracted_head, E. }
  intros Hr. revert p.
  induction Hr as [|c e c' Hr IHp Hstep]; [discriminate|].
  destruct e as [n|f l|q options| | |items|]; cbn [Find.step] in Hstep.
  - injection Hstep as <-. intros p _. apply lookup_empty.
  - injection Hstep as <-. exact IHp.
  - injection Hstep as <-. intros p.
    destruct (find_store q options c) as (-> & [->|[todo ->]]); [apply IHp|apply Hskip].
  - injection Hstep as <-. intros p. unfold Find.findNext.
    match goal with
    | |- context [Find.find _ _ ?q ?o c] =>
        destruct (find_store q o c) as (-> & [->|[todo ->]])
    end; [apply IHp|apply Hskip].
  - injection Hstep as <-. intros p. unfold Find.findPrevious.
    match goal with
    | |- context [Find.find _ _ ?q ?o c] =>
        destruct (find_store q o c) as (-> & [->|[todo ->]])
    end; [apply IHp|apply Hskip].
  - unfold Find.pageExtracted in Hstep.
    destruct (pending c) as [|p todo]; [discriminate|].
    injection Hstep as <-.
    match goal with
    | |- context [continueExtraction ?t ?x] =>
        destruct (continueExtraction_store t x) as (Hpc & _ & Hpd)
    end.
    intros r. rewrite Hpd, Hpc. apply Hskip.
  - unfold Find.pageExtractionFailed in Hstep.
    destruct (pending c) as [|p todo]; [discriminate|].
    injection Hstep as <-.
    destruct (continueExtraction_store todo c) as (Hpc & _ & Hpd).
    intros r. rewrite Hpd, Hpc. apply Hskip.
Qed.

(** X20. In every state the controller can reach, the match list holds,
    up to order and object identity, exactly what [_searchPage] finds for
    the current query and options on each extracted page taken alone:
    nothing is missed and nothing is listed twice, whatever the order in
    which pages arrived and searches were made. *)
Theorem X20_matches_are_the_hits_of_extracted_pages (c : Controller) :
  reachable c ->
  Permutation (List.map matchKey (matches c))
    (flat_map (fun p => List.map matchKey (foundOn c p)) (extractedPages c)).
Proof.
  induction 1 as [|c e c' Hr IH Hstep]; [reflexivity|].
  destruct e as [n|f l|q options| | |items|]; cbn [Find.step] in Hstep.
  - injection Hstep as <-. unfold extractedPages. cbn [pageContents setDocument].
    rewrite map_to_list_empty. reflexivity.
  - injection Hstep as <-.
    apply (found_transfer c); [reflexivity|repeat split; reflexivity|reflexivity|exact IH].
  - injection Hstep as <-. now apply find_found.
  - injection Hstep as <-. now apply find_found.
  - injection Hstep as <-. now apply find_found.
  - pose proof (reachable_pending_fresh c) as Hfresh.
    pose proof (reachable_query regexExecAll toLowerCase c Hr) as Hquery.
    unfold Find.pageExtracted in Hstep.
    destruct (pending c) as [|p todo]; [discriminate|].
    injection Hstep as <-. specialize (Hfresh p Hr eq_refl).
    match goal with
    | |- context [continueExtraction ?t ?y] =>
        apply (found_transfer y);
          [now destruct (continueExtraction_fields t y) as (_ & -> & _)
          |apply continueExtraction_same
          |now destruct (continueExtraction_store t y) as (-> & _)|]
    end.
    set (x := with_contents _ c).
    assert (Hx : Permutation
                   (flat_map (fun r => List.map matchKey (foundOn x r)) (extractedPages x))
                   (List.map matchKey (foundOn x p)
                    ++ flat_map (fun r => List.map matchKey (foundOn c r))
                         (extractedPages c))).
    { unfold extractedPages at 1. cbn [pageContents with_contents x].
      rewrite (map_to_list_insert _ _ _ Hfresh). cbn [fmap list_fmap fst flat_map].
      apply Permutation_app_head.
      rewrite (flat_map_keys_ext _ (fun r => List.map matchKey (foundOn c r)));
        [reflexivity|].
      intros r Hin. apply foundOn_keys; [now split|].
      cbn [pageContents with_contents x]. apply lookup_insert_ne.
      intros <-. apply list_elem_of_In, list_elem_of_fmap in Hin as ([r' t] & -> & Hin).
      apply elem_of_map_to_list in Hin. cbn in Hfresh. congruence. }
    destruct (isEmpty (query c)) eqn:Hq.
    + rewrite found_empty by exact Hq.
      change (matches x) with (matches c).
      destruct (matches c) as [|m ms] eqn:Hm; [reflexivity|].
      assert (Hne : m :: ms <> []) by discriminate.
      apply Hquery in Hne. discriminate.
    + assert (Hz : Permutation (List.map matchKey (matches (searchPage p x)))
                     (flat_map (fun r => List.map matchKey (foundOn (searchPage p x) r))
                        (extractedPages (searchPage p x)))).
      { rewrite (found_ext x (searchPage p x));
          [|apply searchPage_same|now destruct (searchPage_frame p x) as (-> & _)].
        rewrite searchPage_found by exact Hq. rewrite Hx.
        rewrite Permutation_app_comm. apply Permutation_app_head. exact IH. }
      destruct (_ <? _)%nat; [|exact Hz].
      destruct (sort_fields (searchPage p x)) as (Hpc & _ & _ & Hm).
      rewrite (found_ext (searchPage p x) (sortMatchesAndFixIndex (searchPage p x)));
        [|apply sort_same|exact Hpc].
      rewrite Hm. eapply Permutation_trans; [|exact Hz].
      apply Permutation_map, Array_sort_perm.
  - unfold Find.pageExtractionFailed in Hstep.
    destruct (pending c) as [|p todo]; [discriminate|].
    injection Hstep as <-.
    apply (found_transfer c);
      [now destruct (continueExtraction_fields todo c) as (_ & -> & _)
      |apply continueExtraction_same
      |now destruct (continueExtraction_store todo c) as (-> & _)|exact IH].
Qed.

(** *** The extraction loop runs to its end *)

Local Abbreviation extractAll := (Find.extractAll regexExecAll toLowerCase).

Lemma searchPage_extraction p c : extractionState (searchPage p c) = extractionState c.
Proof.
  destruct (searchPage_cases p c) as [->|(t & pat & ic & st & hits & _ & _ & ->)];
    reflexivity.
Qed.

Lemma searchPages_extraction ps : forall c,
  extractionState (fold_left (fun c pageNum => searchPage pageNum c) ps c)
  = extractionState c.
Proof.
  induction ps as [|p ps IH]; intros c; [reflexivity|]. cbn [fold_left].
  now rewrite IH, searchPage_extraction.
Qed.

Lemma sort_extraction c : extractionState (sortMatchesAndFixIndex c) = extractionState c.
Proof.
  unfold sortMatchesAndFixIndex.
  now destruct (if currentMatchIndex c >=? 0 then _ else _).
Qed.

Lemma find_extraction q options c :
  isEmpty q = false ->
  extractionState (find q options c) = extractionState (ensureTextExtraction c).
Proof.
  intros Hq. unfold Find.find. rewrite Hq.
  match goal with
  | |- context [ensureTextExtraction ?x] => set (c1 := x)
  end.
  assert (H1 : extractionState (ensureTextExtraction c1)
               = extractionState (ensureTextExtraction c)).
  { unfold ensureTextExtraction, continueExtraction.
    cbn [extracting extractionComplete hasDocument with_search c1 pageContents
         with_extraction].
    change (extractionOrder c1) with (extractionOrder c).
    destruct (extracting c || extractionComplete c); [reflexivity|].
    destruct (negb (hasDocument c)); [reflexivity|].
    now destruct (skipExtracted (pageContents c) (extractionOrder c)). }
  rewrite <- H1. set (c2 := ensureTextExtraction c1). clearbody c2.
  destruct (_ || _).
  - assert (HX : extractionState (searchExtractedPages (clearMatches c2))
                 = extractionState c2).
    { unfold Find.searchExtractedPages. now rewrite searchPages_extraction. }
    set (X := searchExtractedPages (clearMatches c2)) in *. clearbody X.
    now destruct (0 <? _).
  - destruct (0 <? _); [|reflexivity].
    destruct (default false (o_findPrevious options));
      match goal with
      | |- context [if ?b then _ else _] => now destruct b
      end.
Qed.

Lemma skipExtracted_covers pc todo p :
  In p todo -> is_Some (pc !! p) \/ In p (skipExtracted pc todo).
Proof.
  induction todo as [|a todo IH]; [intros []|]. cbn [skipExtracted].
  case_bool_decide as Ha; [|now right].
  intros [<-|Hin]; [now left|now apply IH].
Qed.

Lemma skipExtracted_length pc todo :
  (length (skipExtracted pc todo) <= length todo)%nat.
Proof.
  induction todo as [|a todo IH]; [reflexivity|]. cbn [skipExtracted].
  case_bool_decide; cbn [length]; lia.
Qed.

(** Where the loop stands after its head has run. *)
Lemma continueExtraction_state todo c :
  pending (continueExtraction todo c) = skipExtracted (pageContents c) todo /\
  pageContents (continueExtraction todo c) = pageContents c /\
  (pending (continueExtraction todo c) = [] ->
   extractionComplete (continueExtraction todo c) = true /\
   extracting (continueExtraction todo c) = false).
Proof.
  unfold continueExtraction.
  destruct (skipExtracted (pageContents c) todo) eqn:E; cbn; auto.
  repeat split; discriminate.
Qed.

Lemma pageExtracted_state items c p todo :
  pending c = p :: todo ->
  exists c', pageExtracted items c = Some c' /\
    pending c' = skipExtracted (<[p := pageTextOf items]> (pageContents c)) todo /\
    pageContents c' = <[p := pageTextOf items]> (pageContents c) /\
    (pending c' = [] -> extractionComplete c' = true /\ extracting c' = false).
Proof.
  intros Hp. unfold Find.pageExtracted. rewrite Hp. eexists. split; [reflexivity|].
  match goal with
  | |- context [continueExtraction ?t ?y] =>
      assert (Hy : pageContents y = <[p := pageTextOf items]> (pageContents c));
        [|destruct (continueExtraction_state t y) as (H1 & H2 & H3);
          rewrite H1 in H3; rewrite H1, H2, Hy; rewrite Hy in H3; auto]
  end.
  set (x := with_contents _ c).
  assert (Hx : extractionState x
               = (extracting c, extractionComplete c, pending c,
                  <[p := pageTextOf items]> (pageContents c))) by reflexivity.
  clearbody x.
  assert (Hgoal : forall y, extractionState y = extractionState x ->
                            pageContents y = <[p := pageTextOf items]> (pageContents c)).
  { intros y Hy. rewrite Hx in Hy. now injection Hy. }
  apply Hgoal. destruct (isEmpty _); [reflexivity|].
  destruct (_ <? _)%nat; rewrite ?sort_extraction; apply searchPage_extraction.
Qed.

Lemma extractAll_completes texts (order : list Z) (pc0 : gmap Z string) : forall k c,
  (length (pending c) <= k)%nat ->
  (forall p, In p order -> is_Some (pageContents c !! p) \/ In p (pending c)) ->
  (pending c = [] -> extractionComplete c = true /\ extracting c = false) ->
  (forall p, hd_error (pending c) = Some p -> pageContents c !! p = None) ->
  (forall p, pageContents c !! p = pc0 !! p \/
             (pc0 !! p = None /\ pageContents c !! p = Some (pageTextOf (texts p)))) ->
  let c' := extractAll texts k c in
  pending c' = [] /\ extractionComplete c' = true /\ extracting c' = false /\
  (forall p, In p order -> is_Some (pageContents c' !! p)) /\
  (forall p, pageContents c' !! p = pc0 !! p \/
             (pc0 !! p = None /\ pageContents c' !! p = Some (pageTextOf (texts p)))).
Proof.
  assert (Hdone : forall c,
             pending c = [] ->
             (forall p, In p order -> is_Some (pageContents c !! p) \/ In p (pending c)) ->
             forall p, In p order -> is_Some (pageContents c !! p)).
  { intros c Hnil Hcov p Hin. destruct (Hcov p Hin) as [H|H]; [exact H|].
    rewrite Hnil in H. destruct H. }
  induction k as [|k IH]; intros c Hlen Hcov Hend Hfresh Hold; cbn zeta.
  - assert (Hnil : pending c = []) by (destruct (pending c); [reflexivity|cbn in Hlen; lia]).
    cbn [Find.extractAll]. destruct (Hend Hnil). eauto 10.
  - cbn [Find.extractAll]. destruct (pending c) as [|p todo] eqn:Hp.
    { destruct (Hend eq_refl). rewrite Hp. split; [reflexivity|]. split; [assumption|].
      split; [assumption|]. split; [|exact Hold].
      apply Hdone; [exact Hp|]. now rewrite Hp. }
    destruct (pageExtracted_state (texts p) c p todo Hp) as (c1 & -> & Hp1 & Hpc1 & Hend1).
    specialize (Hfresh p eq_refl).
    apply IH.
    + rewrite Hp1. pose proof (skipExtracted_length (pageContents c1) todo) as Hl.
      rewrite Hpc1 in Hl. cbn [length] in Hlen. lia.
    + intros r Hr. rewrite Hp1, Hpc1.
      destruct (Hcov r Hr) as [Hs|[<-|Hin]].
      * left. destruct (decide (r = p)) as [->|Hne];
          [rewrite lookup_insert_eq; eauto|now rewrite lookup_insert_ne].
      * left. rewrite lookup_insert_eq. eauto.
      * now apply skipExtracted_covers.
    + exact Hend1.
    + intros r. rewrite Hp1, Hpc1.
      destruct (skipExtracted _ todo) as [|a rest] eqn:E; [discriminate|].
      intros [= <-]. eapply skipExtracted_head, E.
    + intros r. rewrite Hpc1. destruct (decide (r = p)) as [->|Hne].
      * right. rewrite lookup_insert_eq. split; [|reflexivity].
        destruct (Hold p) as [H|[H _]]; [now rewrite <- H|exact H].
      * rewrite lookup_insert_ne by congruence. apply Hold.
Qed.

(** X21. A search started on a document whose text is not being extracted
    starts the extraction loop; once the text of each page the loop asks for
    has arrived, the loop has ended, extraction is marked complete, and
    every page of the document has its text stored: the text that arrived
    for it, or the text that was stored before. *)
Theorem X21_extraction_completes
  (texts : Z -> list TextItem) (q : string) (options : FindOptions) (c : Controller) :
  hasDocument c = true -> extracting c = false -> extractionComplete c = false ->
  isEmpty q = false -> visibleInDocument c ->
  let c' := extractAll texts (Z.to_nat (numPages c)) (find q options c) in
  pending c' = [] /\ extractionComplete c' = true /\ extracting c' = false /\
  forall p, 1 <= p <= numPages c ->
    pageContents c' !! p
    = Some (default (pageTextOf (texts p)) (pageContents c !! p)).
Proof.
  intros Hdoc Hex Hdone Hq Hvis. cbn zeta.
  destruct (extractionOrder_pages c Hvis) as [Hnd Hin].
  pose proof (find_extraction q options c Hq) as Hst.
  unfold ensureTextExtraction in Hst. rewrite Hex, Hdone, Hdoc in Hst.
  cbn [orb negb] in Hst.
  match type of Hst with
  | _ = extractionState (continueExtraction ?t ?y) =>
      destruct (continueExtraction_state t y) as (H1 & H2 & H3);
      set (c1 := continueExtraction t y) in *
  end.
  cbn [pageContents with_extraction] in H1, H2.
  injection Hst as Hst1 Hst2 Hst3 Hst4. clearbody c1.
  set (c0 := find q options c) in *. clearbody c0.
  destruct (extractAll_completes texts (extractionOrder c) (pageContents c)
              (Z.to_nat (numPages c)) c0) as (Ha & Hb & Hc & Hd & He).
  - rewrite Hst3, H1.
    pose proof (skipExtracted_length (pageContents c) (extractionOrder c)) as Hl.
    assert (Hlen : length (extractionOrder c) = Z.to_nat (numPages c)).
    { rewrite (Permutation_length
                 (Permutation.NoDup_Permutation Hnd (pageRange_NoDup 1 (numPages c))
                    (fun p => iff_trans (Hin p) (iff_sym (pageRange_In 1 (numPages c) p))))).
      unfold pageRange. rewrite length_fmap, length_seq. lia. }
    lia.
  - intros p Hp. rewrite Hst3, Hst4, H1, H2. now apply skipExtracted_covers.
  - rewrite Hst1, Hst2, Hst3. exact H3.
  - intros p. rewrite Hst3, Hst4, H1, H2.
    destruct (skipExtracted _ _) as [|a rest] eqn:E; [discriminate|].
    intros [= <-]. eapply skipExtracted_head, E.
  - intros p. left. now rewrite Hst4, H2.
  - split; [exact Ha|]. split; [exact Hb|]. split; [exact Hc|].
    intros p Hp. apply Hin in Hp. destruct (Hd p Hp) as [t Ht].
    destruct (He p) as [H|[H1' H2']].
    + rewrite H in Ht |- *. now rewrite Ht.
    + now rewrite H2', H1'.
Qed.

End Host.

Lemma X14_current_index_in_range_witness :
  exists c,
    run_events literalExecAll asciiLowerCase created two_page_search = Some c /\
    -1 <= currentMatchIndex c < Z.of_nat (length (matches c)).
Proof.
  eexists. split; [vm_compute; reflexivity|].
  apply (X14_current_index_in_range literalExecAll asciiLowerCase).
  apply (reachable_run_events literalExecAll asciiLowerCase two_page_search created);
    [apply reach_created|vm_compute; reflexivity].
Defined.

Lemma reachable_default_run es c :
  Find.reachable literalExecAll asciiLowerCase c ->
  Find.reachable literalExecAll asciiLowerCase
    (default c (run_events literalExecAll asciiLowerCase c es)).
Proof.
  intros Hr. destruct (run_events literalExecAll asciiLowerCase c es) as [c'|] eqn:E;
    [|exact Hr].
  exact (reachable_run_events literalExecAll asciiLowerCase es c c' Hr E).
Qed.

Lemma page_2_searched_reachable :
  Find.reachable literalExecAll asciiLowerCase page_2_searched.
Proof. apply reachable_default_run, reach_created. Qed.

Lemma X15_page_arrival_keeps_current_match_witness :
  exists p new,
    hd_error (pending page_2_searched) = Some p /\
    Permutation (matches both_pages_searched) (matches page_2_searched ++ new) /\
    List.Forall (fun m => pageNumber m = p) new /\
    (forall m, at_index (matches page_2_searched) (currentMatchIndex page_2_searched)
               = Some m ->
               at_index (matches both_pages_searched)
                        (currentMatchIndex both_pages_searched) = Some m) /\
    (currentMatchIndex page_2_searched = -1 -> currentMatchIndex both_pages_searched = -1).
Proof.
  exact (X15_page_arrival_keeps_current_match literalExecAll asciiLowerCase
           page_2_searched both_pages_searched page_1_items
           page_2_searched_reachable ltac:(vm_compute; reflexivity)).
Defined.

Lemma both_pages_searched_reachable :
  Find.reachable literalExecAll asciiLowerCase both_pages_searched.
Proof.
  apply (reach_step literalExecAll asciiLowerCase page_2_searched
           (PageExtracted page_1_items));
    [exact page_2_searched_reachable|vm_compute; reflexivity].
Qed.

Lemma literalScan_ascending pat s : forall pos skip,
  ascendingHits (literalScan pat s pos skip) /\
  List.Forall (fun h => pos <= fst h) (literalScan pat s pos skip).
Proof.
  unfold ascendingHits.
  induction s as [|ch s IH]; intros pos skip; cbn [literalScan];
    [split; constructor|].
  assert (Hw : forall k, List.Forall (fun h => pos <= fst h)
                           (literalScan pat s (pos + 1) k)).
  { intros k. destruct (IH (pos + 1) k) as [_ H].
    eapply List.Forall_impl; [|exact H]. intros h Hh. cbn beta in Hh. lia. }
  destruct skip as [|k]; [|split; [apply IH|apply Hw]].
  destruct (String.prefix pat (String ch s)); [|split; [apply IH|apply Hw]].
  split.
  - constructor; [apply IH|apply Hw].
  - constructor; [cbn; lia|apply Hw].
Qed.

Lemma literalExecAll_ascending pattern ic searchText hits :
  literalExecAll pattern ic searchText = Some hits -> ascendingHits hits.
Proof. intros [= <-]. apply literalScan_ascending. Qed.

Lemma X16_matches_stay_sorted_witness :
  StronglySorted matchLe (matches both_pages_searched).
Proof.
  exact (X16_matches_stay_sorted literalExecAll asciiLowerCase
           literalExecAll_ascending both_pages_searched both_pages_searched_reachable).
Defined.

Lemma X17_matches_point_into_text_witness :
  (forall m, In m (matches both_pages_searched) -> matchInText both_pages_searched m) /\
  (forall p, hd_error (pending both_pages_searched) = Some p ->
             pageContents both_pages_searched !! p = None).
Proof.
  exact (X17_matches_point_into_text literalExecAll asciiLowerCase
           both_pages_searched both_pages_searched_reachable).
Defined.

Lemma X20_matches_are_the_hits_of_extracted_pages_witness :
  Permutation (List.map matchKey (matches both_pages_searched))
    (flat_map (fun p => List.map matchKey
                 (Find.foundOn literalExecAll asciiLowerCase both_pages_searched p))
              (extractedPages both_pages_searched)).
Proof.
  exact (X20_matches_are_the_hits_of_extracted_pages literalExecAll asciiLowerCase
           both_pages_searched both_pages_searched_reachable).
Defined.

Lemma X18_previous_undoes_next_witness :
  currentMatchIndex (Find.findPrevious literalExecAll asciiLowerCase
                       (Find.findNext literalExecAll asciiLowerCase both_pages_searched))
  = currentMatchIndex both_pages_searched /\
  currentMatchIndex (Find.findNext literalExecAll asciiLowerCase
                       (Find.findPrevious literalExecAll asciiLowerCase both_pages_searched))
  = currentMatchIndex both_pages_searched /\
  matches (Find.findPrevious literalExecAll asciiLowerCase
             (Find.findNext literalExecAll asciiLowerCase both_pages_searched))
  = matches both_pages_searched /\
  matches (Find.findNext literalExecAll asciiLowerCase
             (Find.findPrevious literalExecAll asciiLowerCase both_pages_searched))
  = matches both_pages_searched.
Proof.
  apply (X18_previous_undoes_next literalExecAll asciiLowerCase both_pages_searched).
  - vm_compute. reflexivity.
  - split; [apply Z.leb_le|apply Z.ltb_lt]; vm_compute; reflexivity.
Defined.

Lemma X19_extraction_order_covers_document_witness :
  List.NoDup (extractionOrder page_2_searched) /\
  (forall p, In p (extractionOrder page_2_searched) <-> 1 <= p <= numPages page_2_searched) /\
  Permutation (extractionOrder page_2_searched) (pageRange 1 (numPages page_2_searched)) /\
  (forall f l, visibleFirst page_2_searched = Some f -> visibleLast page_2_searched = Some l ->
     firstn (Z.to_nat (l - f + 1)) (extractionOrder page_2_searched) = pageRange f l).
Proof.
  apply (X19_extraction_order_covers_document page_2_searched).
  vm_compute. repeat split; discriminate.
Defined.

Lemma X21_extraction_completes_witness :
  let c' := Find.extractAll literalExecAll asciiLowerCase same_text_everywhere
              (Z.to_nat (numPages three_page_document))
              (Find.find literalExecAll asciiLowerCase "ab" plainOptions
                 three_page_document) in
  pending c' = [] /\ extractionComplete c' = true /\ extracting c' = false /\
  forall p, 1 <= p <= numPages three_page_document ->
    pageContents c' !! p
    = Some (default (pageTextOf (same_text_everywhere p))
                    (pageContents three_page_document !! p)).
Proof.
  apply (X21_extraction_completes literalExecAll asciiLowerCase same_text_everywhere
           "ab" plainOptions three_page_document); try reflexivity.
  repeat split; cbn; lia.
Defined.

(** *** Patterns and page text *)

(** X22. The pattern made by [_escapeRegExp] is a literal pattern: it
    holds no special character without a backslash in front of it, and
    dropping the backslashes gives the query back. It is at most twice as
    long as the query. *)
Theorem X22_escaped_pattern_is_literal (q : string) :
  literalOf (escapeRegExp q) = Some q /\
  (String.length q <= String.length (escapeRegExp q) <= 2 * String.length q)%nat.
Proof.
  induction q as [|ch q [IH Hlen]]; [split; [reflexivity|cbn; lia]|].
  cbn [escapeRegExp]. destruct (isRegExpSpecial ch) eqn:Hs.
  - cbn [literalOf]. rewrite Ascii.eqb_refl, Hs, IH. split; [reflexivity|cbn; lia].
  - cbn [literalOf]. rewrite Hs, IH.
    destruct (Ascii.eqb_spec ch "\"%char) as [->|Hne]; [discriminate Hs|].
    split; [reflexivity|cbn; lia].
Qed.

Lemma append_cons (ch : ascii) (a b : string) :
  (String ch a ++ b)%string = String ch (a ++ b).
Proof. reflexivity. Qed.

Lemma append_nil_l (a : string) : ("" ++ a)%string = a.
Proof. reflexivity. Qed.

Lemma append_assoc (a b c : string) : ((a ++ b) ++ c = a ++ (b ++ c))%string.
Proof.
  induction a as [|ch a IH]; [reflexivity|]. now rewrite !append_cons, IH.
Qed.

Lemma append_empty_r (a : string) : (a ++ "")%string = a.
Proof.
  induction a as [|ch a IH]; [reflexivity|]. now rewrite append_cons, IH.
Qed.

Lemma length_append (a b : string) :
  String.length (a ++ b) = (String.length a + String.length b)%nat.
Proof.
  induction a as [|ch a IH]; [reflexivity|].
  rewrite append_cons. cbn [String.length]. now rewrite IH.
Qed.

Lemma substring_0_append (b c : string) :
  substring 0 (String.length b) (b ++ c) = b.
Proof.
  induction b as [|ch b IH]; [rewrite append_nil_l; now destruct c|].
  rewrite append_cons. cbn [String.length substring]. now rewrite IH.
Qed.

Lemma substring_skip_append (a b : string) (m : nat) :
  substring (String.length a) m (a ++ b) = substring 0 m b.
Proof.
  induction a as [|ch a IH]; [reflexivity|].
  rewrite append_cons. cbn [String.length substring]. exact IH.
Qed.

Lemma js_substring_plain (s : string) (a b : Z) :
  0 <= a -> a <= b -> b <= strlen s ->
  js_substring s a b = substring (Z.to_nat a) (Z.to_nat (b - a)) s.
Proof.
  intros Ha Hab Hb. unfold js_substring.
  rewrite (Z.min_l a), (Z.min_l b), (Z.max_r 0 a), (Z.max_r 0 b) by lia.
  now rewrite Z.min_l, Z.max_r by lia.
Qed.

Lemma located_here (pt s rest : string) :
  s <> EmptyString ->
  located ((pt ++ s) ++ rest) (mkPositioned s (strlen pt) (strlen pt + strlen s)).
Proof.
  intros Hs. unfold located, strlen. cbn [ti_start ti_end ti_str].
  rewrite !length_append. repeat split; try lia; [exact Hs|].
  rewrite js_substring_plain by (unfold strlen; rewrite ?length_append; lia).
  rewrite append_assoc, Nat2Z.id, substring_skip_append.
  replace (Z.to_nat _) with (String.length s) by lia.
  apply substring_0_append.
Qed.

Lemma extractItems_spec items : forall pt ti,
  fst (extractItems items pt ti) = (pt ++ pageTextOf items)%string /\
  exists new,
    snd (extractItems items pt ti) = ti ++ new /\
    List.map ti_str new = List.filter (fun s => negb (isEmpty s)) (List.map str items) /\
    List.Forall (located (fst (extractItems items pt ti))) new /\
    List.Forall (fun it => strlen pt <= ti_start it) new /\
    StronglySorted (fun a b => ti_end a <= ti_start b) new.
Proof.
  induction items as [|item items IH]; intros pt ti;
    cbn [extractItems pageTextOf List.map List.filter].
  - rewrite append_empty_r. split; [reflexivity|]. exists [].
    rewrite app_nil_r. repeat split; constructor.
  - destruct (str item) as [|ch s0] eqn:Hitem; cbn [isEmpty negb].
    + rewrite append_nil_l.
      destruct (IH (if hasEOL item then (pt ++ " ")%string else pt) ti)
        as (Hpt & new & Hti & Hstr & Hloc & Hge & Hs).
      split.
      * rewrite Hpt. destruct (hasEOL item); [now rewrite append_assoc|reflexivity].
      * exists new. repeat split; try assumption.
        eapply List.Forall_impl; [|exact Hge]. intros it Hit. cbn beta in Hit.
        unfold strlen in *. destruct (hasEOL item); rewrite ?length_append in Hit; lia.
    + set (s := String ch s0) in *.
      set (it0 := mkPositioned s (strlen pt) (strlen pt + strlen s)).
      destruct (IH (if hasEOL item then ((pt ++ s) ++ " ")%string
                    else (pt ++ s)%string) (ti ++ [it0]))
        as (Hpt & new & Hti & Hstr & Hloc & Hge & Hs).
      assert (Hpt' : fst (extractItems items
                            (if hasEOL item then ((pt ++ s) ++ " ")%string
                             else (pt ++ s)%string) (ti ++ [it0]))
                     = ((pt ++ s)
                        ++ ((if hasEOL item then " " else "") ++ pageTextOf items))%string).
      { rewrite Hpt. destruct (hasEOL item); [now rewrite append_assoc|reflexivity]. }
      split; [now rewrite Hpt', append_assoc|].
      exists (it0 :: new). rewrite Hti, <- app_assoc. split; [reflexivity|].
      cbn [List.map]. rewrite Hstr. split; [reflexivity|].
      assert (Hge' : List.Forall (fun it => ti_end it0 <= ti_start it) new).
      { eapply List.Forall_impl; [|exact Hge]. intros it Hit. cbn beta in Hit.
        cbn [ti_end it0]. unfold strlen in *.
        destruct (hasEOL item); rewrite ?length_append in Hit; lia. }
      split; [|split].
      * constructor; [|exact Hloc]. rewrite Hpt'. apply located_here. discriminate.
      * constructor; [cbn; lia|].
        eapply List.Forall_impl; [|exact Hge']. intros it Hit. cbn beta in Hit.
        cbn [ti_end it0] in Hit. unfold strlen in *. lia.
      * constructor; assumption.
Qed.

(** X23. [_extractPage] builds the page string of the controller, and its
    [textItems] are the items with text, in order: each entry names the
    place of its text in the page string, so that the substring between its
    offsets is its text, and the entries do not overlap. *)
Theorem X23_text_items_locate_their_text (items : list TextItem) :
  fst (extractPage items) = pageTextOf items /\
  List.map ti_str (snd (extractPage items))
  = List.filter (fun s => negb (isEmpty s)) (List.map str items) /\
  List.Forall (located (fst (extractPage items))) (snd (extractPage items)) /\
  StronglySorted (fun a b => ti_end a <= ti_start b) (snd (extractPage items)).
Proof.
  unfold extractPage.
  destruct (extractItems_spec items EmptyString []) as (Hpt & new & Hti & Hstr & Hloc & _ & Hs).
  rewrite Hti. cbn [app]. auto.
Qed.

(** *** Highlights in the text layer *)

Lemma chars_substring s : forall n m,
  list_ascii_of_string (substring n m s) = take m (drop n (list_ascii_of_string s)).
Proof.
  induction s as [|ch s IH]; intros n m.
  - destruct n, m; reflexivity.
  - destruct n as [|n]; [destruct m as [|m]|]; cbn [substring list_ascii_of_string].
    + reflexivity.
    + cbn [drop take]. now rewrite IH.
    + cbn [drop]. apply IH.
Qed.

Lemma chars_length s : length (list_ascii_of_string s) = String.length s.
Proof. induction s as [|ch s IH]; cbn; [reflexivity|now rewrite IH]. Qed.

Lemma chars_js_substring s a b :
  0 <= a -> a <= b -> b <= strlen s ->
  list_ascii_of_string (js_substring s a b)
  = take (Z.to_nat (b - a)) (drop (Z.to_nat a) (list_ascii_of_string s)).
Proof.
  intros Ha Hab Hb. rewrite js_substring_plain by assumption. apply chars_substring.
Qed.

Lemma marks_optional_text s :
  marks (if isEmpty s then [] else [TextNode s])
  = (fun ch => (ch, Plain)) <$> list_ascii_of_string s.
Proof. destruct s; [reflexivity|]. cbn [isEmpty marks flat_map marksOf]. apply app_nil_r. Qed.

Lemma marks_app a b : marks (a ++ b) = marks a ++ marks b.
Proof. unfold marks. apply flat_map_app. Qed.

(** A stretch of plain characters on which the test of [markRange] is
    constant. *)
Lemma imap_markRange_const start end_ sel (k : nat) (b : bool) (l : list ascii) :
  (forall i, (i < length l)%nat ->
     (start <=? Z.of_nat (k + i)) && (Z.of_nat (k + i) <? end_) = b) ->
  imap (fun i => markRange start end_ sel (k + i)) ((fun ch => (ch, Plain)) <$> l)
  = (fun ch => (ch, if b then Marked sel else Plain)) <$> l.
Proof.
  revert k. induction l as [|ch l IH]; intros k H; [reflexivity|].
  cbn [fmap list_fmap]. rewrite imap_cons. f_equal.
  - unfold markRange. cbn [snd fst]. rewrite (H 0%nat) by (cbn; lia). now destruct b.
  - rewrite <- (IH (S k)).
    + apply imap_ext. intros i x _. cbn. f_equal. lia.
    + intros i Hi. replace (S k + i)%nat with (k + S i)%nat by lia.
      apply H. cbn. lia.
Qed.

Lemma wrapTextNode_marks s (off : nat) start end_ sel :
  marks (wrapTextNode s (Z.of_nat off) start end_ sel)
  = imap (fun i => markRange start end_ sel (off + i))
         ((fun ch => (ch, Plain)) <$> list_ascii_of_string s).
Proof.
  assert (Hplain : forall (l : list ascii),
             (forall i, (i < length l)%nat ->
                (start <=? Z.of_nat (off + i)) && (Z.of_nat (off + i) <? end_) = false) ->
             marks [TextNode (string_of_list_ascii l)]
             = imap (fun i => markRange start end_ sel (off + i))
                    ((fun ch => (ch, Plain)) <$> l)).
  { intros l H. rewrite (imap_markRange_const start end_ sel off false l H).
    cbn [marks flat_map marksOf]. rewrite list_ascii_of_string_of_list_ascii.
    apply app_nil_r. }
  set (L := list_ascii_of_string s).
  assert (HL : length L = String.length s) by apply chars_length.
  assert (Hs : s = string_of_list_ascii L)
    by (symmetry; apply string_of_list_ascii_of_string).
  unfold wrapTextNode, strlen.
  destruct (Z.gtb_spec (Z.of_nat off + Z.of_nat (String.length s)) start) as [H1|H1];
    destruct (Z.ltb_spec (Z.of_nat off) end_) as [H2|H2]; cbn [andb];
    try (rewrite Hs at 1; apply Hplain; intros i Hi;
         apply andb_false_iff; rewrite Z.leb_gt, Z.ltb_ge; lia).
  destruct (Z.ltb_spec (Z.max 0 (start - Z.of_nat off))
              (Z.min (Z.of_nat (String.length s)) (end_ - Z.of_nat off))) as [H3|H3];
    [|rewrite Hs at 1; apply Hplain; intros i Hi;
      apply andb_false_iff; rewrite Z.leb_gt, Z.ltb_ge; lia].
  set (hs := Z.max 0 (start - Z.of_nat off)) in *.
  set (he := Z.min (Z.of_nat (String.length s)) (end_ - Z.of_nat off)) in *.
  rewrite !marks_app, !marks_optional_text. cbn [marks flat_map marksOf]. rewrite app_nil_r.
  rewrite !chars_js_substring by (unfold strlen; lia).
  fold L. rewrite Z.sub_0_r. cbn [Z.to_nat drop].
  replace (Z.to_nat (Z.of_nat (String.length s) - he)) with (length L - Z.to_nat he)%nat
    by lia.
  rewrite (take_ge (drop (Z.to_nat he) L)) by (rewrite length_drop; lia).
  rewrite <- (take_drop (Z.to_nat hs) L) at 4.
  rewrite <- (take_drop (Z.to_nat (he - hs)) (drop (Z.to_nat hs) L)) at 2.
  rewrite drop_drop. replace (Z.to_nat hs + Z.to_nat (he - hs))%nat with (Z.to_nat he) by lia.
  rewrite !fmap_app, !imap_app. rewrite !length_fmap, !length_take, !length_drop.
  f_equal; [|f_equal].
  - rewrite (imap_markRange_const start end_ sel off false); [reflexivity|].
    intros i Hi. rewrite length_take in Hi.
    apply andb_false_iff. rewrite Z.leb_gt, Z.ltb_ge. lia.
  - symmetry. etransitivity;
      [|apply (imap_markRange_const start end_ sel (off + Z.to_nat hs) true)].
    + apply imap_ext. intros i x _. cbn beta. f_equal. lia.
    + intros i Hi. rewrite length_take, length_drop in Hi.
      apply andb_true_iff. rewrite Z.leb_le, Z.ltb_lt. lia.
  - symmetry. etransitivity;
      [|apply (imap_markRange_const start end_ sel (off + Z.to_nat he) false)].
    + apply imap_ext. intros i x _. cbn beta. f_equal. lia.
    + intros i Hi. rewrite length_drop in Hi.
      apply andb_false_iff. rewrite Z.leb_gt, Z.ltb_ge. lia.
Qed.

Lemma imap_markRange_kept start end_ sel (k : nat) (m : Mark) (l : list ascii) :
  m <> Plain ->
  imap (fun i => markRange start end_ sel (k + i)) ((fun ch => (ch, m)) <$> l)
  = (fun ch => (ch, m)) <$> l.
Proof.
  intros Hm. revert k. induction l as [|ch l IH]; intros k; [reflexivity|].
  cbn [fmap list_fmap]. rewrite imap_cons. f_equal.
  - unfold markRange. cbn [snd]. now destruct m.
  - etransitivity; [|apply (IH (S k))].
    apply imap_ext. intros i x _. cbn. f_equal. lia.
Qed.

Lemma wrapNodes_marks nodes start end_ sel : forall off : nat,
  marks (wrapNodes nodes (Z.of_nat off) start end_ sel)
  = imap (fun i => markRange start end_ sel (off + i)) (marks nodes).
Proof.
  induction nodes as [|n nodes IH]; intros off; [reflexivity|].
  assert (Hrest : forall s,
             marks (wrapNodes nodes (Z.of_nat off + strlen s) start end_ sel)
             = imap (fun i => markRange start end_ sel
                                (off + (length (list_ascii_of_string s) + i)))
                    (marks nodes)).
  { intros s. unfold strlen. rewrite <- Nat2Z.inj_add, IH, chars_length.
    apply imap_ext. intros i x _. f_equal. lia. }
  destruct n as [s|[b|] s|]; cbn [wrapNodes marks flat_map marksOf].
  - fold (marks (TextNode s :: nodes)). cbn [marks flat_map marksOf].
    fold (marks nodes). rewrite marks_app, wrapTextNode_marks, imap_app, length_fmap.
    f_equal. apply Hrest.
  - change (ElementNode (Some b) s :: ?r) with ([ElementNode (Some b) s] ++ r).
    fold (marks nodes). rewrite imap_app, length_fmap, imap_markRange_kept by discriminate.
    change (flat_map marksOf (wrapNodes nodes ?o start end_ sel))
      with (marks (wrapNodes nodes o start end_ sel)).
    f_equal. apply Hrest.
  - fold (marks nodes). rewrite imap_app, length_fmap, imap_markRange_kept by discriminate.
    change (flat_map marksOf (wrapNodes nodes ?o start end_ sel))
      with (marks (wrapNodes nodes o start end_ sel)).
    f_equal. apply Hrest.
  - fold (marks nodes).
    change (flat_map marksOf (wrapNodes nodes ?o start end_ sel))
      with (marks (wrapNodes nodes o start end_ sel)).
    rewrite IH. reflexivity.
Qed.

(** X24. [_wrapTextInHighlight] keeps the characters of the span and the
    way each of them is shown, except that the plain characters at the
    positions from [start] up to [end] come to lie in a highlight wrapper
    with the given selection; characters already wrapped, or inside another
    element, stay as they are. This holds for any two integers [start] and
    [end]. *)
Theorem X24_wrap_marks_the_range (span : list Node) (start end_ : Z) (sel : bool) :
  marks (wrapTextInHighlight span start end_ sel)
  = imap (markRange start end_ sel) (marks span).
Proof. apply (wrapNodes_marks span start end_ sel 0). Qed.

Lemma normalize_cons n nodes : normalize (n :: nodes) = joinNode n (normalize nodes).
Proof.
  destruct n as [s|h s|]; try reflexivity. cbn [normalize joinNode].
  destruct (isEmpty s); [reflexivity|].
  now destruct (normalize nodes) as [|[s'|h s'|] rest].
Qed.

Lemma normalize_app_r a : forall b b',
  normalize b = normalize b' -> normalize (a ++ b) = normalize (a ++ b').
Proof.
  induction a as [|n a IH]; intros b b' H; [exact H|].
  cbn [app]. rewrite !normalize_cons. f_equal. now apply IH.
Qed.

Lemma isEmpty_append a b : isEmpty (a ++ b) = isEmpty a && isEmpty b.
Proof. destruct a; reflexivity. Qed.

Lemma joinNode_text a b rest :
  joinNode (TextNode a) (joinNode (TextNode b) rest) = joinNode (TextNode (a ++ b)) rest.
Proof.
  cbn [joinNode]. rewrite isEmpty_append.
  destruct a as [|ca a]; [reflexivity|]. cbn [isEmpty andb].
  destruct b as [|cb b].
  - cbn [isEmpty]. rewrite append_empty_r. reflexivity.
  - cbn [isEmpty]. destruct rest as [|[s'|h s'|] rest]; try reflexivity.
    now rewrite append_assoc.
Qed.

Lemma normalize_join a b nodes :
  normalize (TextNode a :: TextNode b :: nodes) = normalize (TextNode (a ++ b) :: nodes).
Proof. rewrite !normalize_cons. apply joinNode_text. Qed.

Lemma unwrapAll_cons n nodes :
  unwrapAll (n :: nodes)
  = match n with ElementNode (Some _) s => TextNode s | _ => n end :: unwrapAll nodes.
Proof. reflexivity. Qed.

Lemma joinNode_nonempty s rest :
  isEmpty s = false ->
  joinNode (TextNode s) rest
  = match rest with
    | TextNode s' :: rest' => TextNode (s ++ s') :: rest'
    | _ => TextNode s :: rest
    end.
Proof. intros Hs. cbn [joinNode]. now rewrite Hs. Qed.

Lemma normalize_unwrapAll_normalize nodes :
  normalize (unwrapAll (normalize nodes)) = normalize (unwrapAll nodes).
Proof.
  induction nodes as [|n nodes IH]; [reflexivity|].
  rewrite unwrapAll_cons, (normalize_cons _ (unwrapAll nodes)), <- IH.
  rewrite (normalize_cons n nodes).
  destruct n as [s|[b|] s|].
  - destruct (isEmpty s) eqn:Hs; [cbn [joinNode]; now rewrite Hs|].
    rewrite (joinNode_nonempty s (normalize nodes) Hs).
    destruct (normalize nodes) as [|[s'|h s'|] rest];
      rewrite !unwrapAll_cons, ?normalize_cons; try reflexivity.
    now rewrite joinNode_text.
  - cbn [joinNode]. rewrite unwrapAll_cons, normalize_cons. reflexivity.
  - cbn [joinNode]. rewrite unwrapAll_cons, normalize_cons. reflexivity.
  - cbn [joinNode]. rewrite unwrapAll_cons, normalize_cons. reflexivity.
Qed.

Lemma filter_joinNode n nodes :
  List.filter isHighlight (joinNode n nodes) = List.filter isHighlight (n :: nodes).
Proof.
  destruct n as [s|h s|]; try reflexivity. cbn [joinNode List.filter isHighlight].
  destruct (isEmpty s); [reflexivity|].
  now destruct nodes as [|[s'|h s'|] rest].
Qed.

Lemma filter_normalize nodes :
  List.filter isHighlight (normalize nodes) = List.filter isHighlight nodes.
Proof.
  induction nodes as [|n nodes IH]; [reflexivity|].
  rewrite normalize_cons, filter_joinNode. cbn [List.filter]. now rewrite IH.
Qed.

Lemma filter_unwrapFirst nodes k :
  length (List.filter isHighlight nodes) = S k ->
  length (List.filter isHighlight (unwrapFirst nodes)) = k.
Proof.
  induction nodes as [|n nodes IH]; [discriminate|].
  destruct n as [s|[b|] s|]; cbn [unwrapFirst List.filter isHighlight length];
    try exact IH.
  now intros [= ->].
Qed.

Lemma unwrapAll_unwrapFirst nodes : unwrapAll (unwrapFirst nodes) = unwrapAll nodes.
Proof.
  induction nodes as [|n nodes IH]; [reflexivity|].
  destruct n as [s|[b|] s|]; cbn [unwrapFirst]; rewrite !unwrapAll_cons, ?IH; reflexivity.
Qed.

Lemma unwrapAll_plain nodes :
  List.filter isHighlight nodes = [] -> unwrapAll nodes = nodes.
Proof.
  induction nodes as [|n nodes IH]; [reflexivity|].
  destruct n as [s|[b|] s|]; cbn [List.filter isHighlight]; try discriminate;
    intros H; rewrite unwrapAll_cons, IH by exact H; reflexivity.
Qed.

Lemma filter_unwrapAll nodes : List.filter isHighlight (unwrapAll nodes) = [].
Proof.
  induction nodes as [|n nodes IH]; [reflexivity|].
  rewrite unwrapAll_cons. now destruct n as [s|[b|] s|]; cbn [List.filter isHighlight].
Qed.

Lemma clear_all k : forall nodes,
  length (List.filter isHighlight nodes) = S k ->
  Nat.iter (S k) (fun nodes => normalize (unwrapFirst nodes)) nodes
  = normalize (unwrapAll nodes).
Proof.
  induction k as [|k IH]; intros nodes Hk.
  - cbn [Nat.iter nat_rect]. apply filter_unwrapFirst in Hk.
    rewrite <- (unwrapAll_unwrapFirst nodes), unwrapAll_plain; [reflexivity|].
    now destruct (List.filter isHighlight (unwrapFirst nodes)).
  - rewrite Nat.iter_succ_r, IH.
    + now rewrite normalize_unwrapAll_normalize, unwrapAll_unwrapFirst.
    + rewrite filter_normalize. now apply filter_unwrapFirst.
Qed.

Lemma clearHighlights_cases span :
  clearHighlights span
  = match List.filter isHighlight span with
    | [] => span
    | _ => normalize (unwrapAll span)
    end.
Proof.
  unfold clearHighlights.
  destruct (List.filter isHighlight span) as [|n l] eqn:E; [reflexivity|].
  apply clear_all. now rewrite E.
Qed.

Lemma chars_append a b :
  list_ascii_of_string (a ++ b) = list_ascii_of_string a ++ list_ascii_of_string b.
Proof.
  induction a as [|ch a IH]; [reflexivity|].
  rewrite append_cons. cbn [list_ascii_of_string app]. now rewrite IH.
Qed.

Lemma marks_joinNode n nodes : marks (joinNode n nodes) = marks (n :: nodes).
Proof.
  destruct n as [s|h s|]; try reflexivity. cbn [joinNode].
  destruct s as [|ch s]; [reflexivity|]. cbn [isEmpty].
  destruct nodes as [|[s'|h s'|] rest]; try reflexivity.
  cbn [marks flat_map marksOf]. now rewrite chars_append, fmap_app, <- app_assoc.
Qed.

Lemma marks_cons n nodes : marks (n :: nodes) = marksOf n ++ marks nodes.
Proof. reflexivity. Qed.

Lemma marks_normalize nodes : marks (normalize nodes) = marks nodes.
Proof.
  induction nodes as [|n nodes IH]; [reflexivity|].
  now rewrite normalize_cons, marks_joinNode, !marks_cons, IH.
Qed.

Lemma marks_unwrapAll nodes : marks (unwrapAll nodes) = unmark <$> marks nodes.
Proof.
  induction nodes as [|n nodes IH]; [reflexivity|].
  rewrite unwrapAll_cons, !marks_cons, fmap_app, IH. f_equal.
  destruct n as [s|[b|] s|]; cbn [marksOf]; rewrite <- ?list_fmap_compose; reflexivity.
Qed.

Lemma marks_plain nodes :
  List.filter isHighlight nodes = [] -> unmark <$> marks nodes = marks nodes.
Proof.
  intros H. rewrite <- marks_unwrapAll. now rewrite unwrapAll_plain.
Qed.

Lemma isNormal_joinNode n nodes :
  isNormal nodes = true -> isNormal (joinNode n nodes) = true.
Proof.
  intros H. destruct n as [s|h s|]; try exact H. cbn [joinNode].
  destruct s as [|ch s]; [exact H|]. cbn [isEmpty].
  destruct nodes as [|[s'|h s'|] rest]; try exact H.
  cbn [isNormal] in *. rewrite append_cons. cbn [isEmpty negb andb].
  apply andb_true_iff in H as [H1 H2]. apply andb_true_iff in H1 as [_ H1].
  now rewrite H1, H2.
Qed.

Lemma isNormal_normalize nodes : isNormal (normalize nodes) = true.
Proof.
  induction nodes as [|n nodes IH]; [reflexivity|].
  rewrite normalize_cons. now apply isNormal_joinNode.
Qed.

Lemma normalize_normal nodes : isNormal nodes = true -> normalize nodes = nodes.
Proof.
  induction nodes as [|n nodes IH]; [reflexivity|]. intros H.
  rewrite normalize_cons. destruct n as [s|h s|]; cbn [isNormal] in H.
  - apply andb_true_iff in H as [H1 H2]. apply andb_true_iff in H1 as [H0 H1].
    rewrite IH by exact H2. apply negb_true_iff in H0.
    rewrite joinNode_nonempty by exact H0.
    now destruct nodes as [|[s'|h s'|] rest].
  - cbn [joinNode]. now rewrite IH.
  - cbn [joinNode]. now rewrite IH.
Qed.

(** X25. [_clearPageHighlights] leaves no highlight wrapper in a span and
    keeps its characters, in order, all those that were wrapped being plain
    text again; characters inside other elements are not touched. A span
    without wrappers is left as it is, any other comes out normalized. *)
Theorem X25_clear_removes_every_highlight (span : list Node) :
  List.filter isHighlight (clearHighlights span) = [] /\
  marks (clearHighlights span) = unmark <$> marks span /\
  (List.filter isHighlight span = [] -> clearHighlights span = span) /\
  (List.filter isHighlight span <> [] -> isNormal (clearHighlights span) = true).
Proof.
  rewrite clearHighlights_cases.
  destruct (List.filter isHighlight span) as [|n l] eqn:E.
  - split; [exact E|]. split; [now rewrite marks_plain|]. split; [reflexivity|].
    intros H. now destruct H.
  - split; [now rewrite filter_normalize, filter_unwrapAll|].
    split; [now rewrite marks_normalize, marks_unwrapAll|].
    split; [discriminate|]. intros _. apply isNormal_normalize.
Qed.

Lemma chars_inj a b : list_ascii_of_string a = list_ascii_of_string b -> a = b.
Proof.
  intros H. rewrite <- (string_of_list_ascii_of_string a),
    <- (string_of_list_ascii_of_string b). now rewrite H.
Qed.

Lemma substring_concat s hs he :
  0 <= hs -> hs <= he -> he <= strlen s ->
  (js_substring s 0 hs ++ js_substring s hs he ++ js_substring s he (strlen s))%string = s.
Proof.
  intros H0 H1 H2. apply chars_inj.
  rewrite !chars_append, !chars_js_substring by lia.
  set (L := list_ascii_of_string s).
  assert (HL : Z.of_nat (length L) = strlen s)
    by (unfold strlen, L; now rewrite chars_length).
  rewrite Z.sub_0_r. cbn [Z.to_nat drop].
  rewrite (take_ge (drop (Z.to_nat he) L)) by (rewrite length_drop; lia).
  rewrite <- (take_drop (Z.to_nat hs) L) at 4. f_equal.
  rewrite <- (take_drop (Z.to_nat (he - hs)) (drop (Z.to_nat hs) L)) at 2. f_equal.
  rewrite drop_drop. f_equal. lia.
Qed.

Lemma unwrapAll_app a b : unwrapAll (a ++ b) = unwrapAll a ++ unwrapAll b.
Proof. apply List.map_app. Qed.

Lemma normalize_optional s nodes :
  normalize ((if isEmpty s then [] else [TextNode s]) ++ nodes)
  = joinNode (TextNode s) (normalize nodes).
Proof.
  destruct (isEmpty s) eqn:Hs; [cbn [app joinNode]; now rewrite Hs|].
  cbn [app]. apply normalize_cons.
Qed.

Lemma wrapTextNode_unwrap s off start end_ sel nodes :
  normalize (unwrapAll (wrapTextNode s off start end_ sel) ++ nodes)
  = normalize (TextNode s :: nodes).
Proof.
  unfold wrapTextNode.
  destruct ((off + strlen s >? start) && (off <? end_)); [|reflexivity].
  destruct (Z.ltb_spec (Z.max 0 (start - off)) (Z.min (strlen s) (end_ - off)))
    as [H|H]; [|reflexivity].
  set (hs := Z.max 0 (start - off)) in *. set (he := Z.min (strlen s) (end_ - off)) in *.
  rewrite !unwrapAll_app.
  assert (Hopt : forall t, unwrapAll (if isEmpty t then [] else [TextNode t])
                           = if isEmpty t then [] else [TextNode t])
    by (intros t; now destruct (isEmpty t)).
  rewrite !Hopt, <- !app_assoc, normalize_optional.
  cbn [unwrapAll List.map app]. rewrite normalize_cons, normalize_optional.
  rewrite !joinNode_text, normalize_cons.
  rewrite append_assoc, substring_concat by lia. reflexivity.
Qed.

Lemma wrapNodes_unwrap nodes start end_ sel : forall off,
  normalize (unwrapAll (wrapNodes nodes off start end_ sel)) = normalize (unwrapAll nodes).
Proof.
  induction nodes as [|n nodes IH]; intros off; [reflexivity|].
  destruct n as [s|h s|]; cbn [wrapNodes].
  - rewrite unwrapAll_app, wrapTextNode_unwrap, unwrapAll_cons, !normalize_cons.
    now rewrite IH.
  - rewrite !unwrapAll_cons, !normalize_cons. now rewrite IH.
  - rewrite !unwrapAll_cons, !normalize_cons. now rewrite IH.
Qed.

Lemma wrapNodes_unchanged nodes start end_ sel : forall off,
  List.filter isHighlight (wrapNodes nodes off start end_ sel) = [] ->
  wrapNodes nodes off start end_ sel = nodes.
Proof.
  induction nodes as [|n nodes IH]; intros off; [reflexivity|].
  destruct n as [s|h s|]; cbn [wrapNodes].
  - rewrite List.filter_app. intros H. apply app_eq_nil in H as [H1 H2].
    rewrite (IH _ H2).
    assert (Hw : wrapTextNode s off start end_ sel = [TextNode s]); [|now rewrite Hw].
    revert H1. unfold wrapTextNode.
    destruct (_ && _); [|reflexivity]. destruct (_ <? _); [|reflexivity].
    rewrite !List.filter_app. cbn [List.filter isHighlight].
    intros H. apply app_eq_nil in H as [_ H]. discriminate.
  - cbn [List.filter]. destruct (isHighlight (ElementNode h s)); [discriminate|].
    intros H. now rewrite (IH _ H).
  - cbn [List.filter isHighlight]. intros H. now rewrite (IH _ H).
Qed.

(** X26. On a normalized span without highlight wrappers, clearing after
    wrapping any range gives the span back, node for node. *)
Theorem X26_clear_undoes_wrap (span : list Node) (start end_ : Z) (sel : bool) :
  isNormal span = true -> List.filter isHighlight span = [] ->
  clearHighlights (wrapTextInHighlight span start end_ sel) = span.
Proof.
  intros Hn Hp. rewrite clearHighlights_cases. unfold wrapTextInHighlight.
  destruct (List.filter isHighlight (wrapNodes span 0 start end_ sel)) eqn:E.
  - now apply wrapNodes_unchanged.
  - rewrite wrapNodes_unwrap, unwrapAll_plain by exact Hp. now apply normalize_normal.
Qed.

Lemma X26_clear_undoes_wrap_witness :
  clearHighlights
    (wrapTextInHighlight [TextNode "find me here"; ElementNode None "x"; TextNode "too"]
                         5 7 true)
  = [TextNode "find me here"; ElementNode None "x"; TextNode "too"].
Proof.
  apply (X26_clear_undoes_wrap
           [TextNode "find me here"; ElementNode None "x"; TextNode "too"] 5 7 true);
    reflexivity.
Defined.

(** The first of the matches [ms] that covers [pos], as a mark. *)
Lemma highlightInSpan_marks (cur : Match -> bool) (ms : list Match) (m : Match)
  (item : PositionedItem) (span : list Node) :
  ti_end item = ti_start item + strlen (ti_str item) ->
  marks span
  = shownAs (fun pos => match List.find (covers pos) ms with
                        | Some m' => Marked (cur m') | None => Plain end) item ->
  marks (highlightInSpan m (cur m) item span)
  = shownAs (fun pos => match List.find (covers pos) (ms ++ [m]) with
                        | Some m' => Marked (cur m') | None => Plain end) item.
Proof.
  intros Hend Hspan. unfold shownAs in *.
  set (L := list_ascii_of_string (ti_str item)) in *.
  assert (HL : Z.of_nat (length L) = strlen (ti_str item))
    by (unfold strlen, L; now rewrite chars_length).
  assert (Hpoint : forall hs he,
             (forall j, (j < length L)%nat ->
                (hs <=? Z.of_nat j) && (Z.of_nat j <? he)
                = covers (ti_start item + Z.of_nat j) m) ->
             imap (markRange hs he (cur m)) (marks span)
             = imap (fun j ch =>
                       (ch, match List.find (covers (ti_start item + Z.of_nat j)) (ms ++ [m])
                            with Some m' => Marked (cur m') | None => Plain end)) L).
  { intros hs he H. rewrite Hspan. apply list_eq. intros j.
    rewrite !list_lookup_imap. destruct (L !! j) as [ch|] eqn:Hj; [|reflexivity].
    cbn [fmap option_fmap option_map]. f_equal.
    assert (Hlt : (j < length L)%nat) by (apply lookup_lt_is_Some; eauto).
    unfold markRange. cbn [snd fst]. rewrite find_app_orElse.
    destruct (List.find _ ms); [reflexivity|]. cbn [Render.orElse List.find].
    rewrite (H j Hlt). now destruct (covers _ m). }
  unfold highlightInSpan.
  destruct (Z.gtb_spec (ti_end item) (startOffset m)) as [H1|H1];
    destruct (Z.ltb_spec (ti_start item) (endOffset m)) as [H2|H2]; cbn [andb].
  - unfold wrapTextInHighlight. rewrite (wrapNodes_marks span _ _ _ 0).
    apply Hpoint. intros j Hj. unfold covers.
    destruct (Z.leb_spec (startOffset m) (ti_start item + Z.of_nat j));
      destruct (Z.ltb_spec (ti_start item + Z.of_nat j) (endOffset m));
      cbn [andb]; apply andb_true_iff || apply andb_false_iff;
      rewrite ?Z.leb_le, ?Z.ltb_lt, ?Z.leb_gt, ?Z.ltb_ge; lia.
  - rewrite <- (Hpoint 0 0).
    + rewrite Hspan. apply list_eq. intros j. rewrite !list_lookup_imap.
      destruct (L !! j); [|reflexivity]. cbn. unfold markRange. cbn [snd].
      destruct (List.find _ ms); [reflexivity|].
      replace ((0 <=? Z.of_nat j) && (Z.of_nat j <? 0)) with false
        by (symmetry; apply andb_false_iff; rewrite Z.ltb_ge; lia).
      reflexivity.
    + intros j Hj. unfold covers. symmetry.
      replace ((0 <=? Z.of_nat j) && (Z.of_nat j <? 0)) with false
        by (symmetry; apply andb_false_iff; rewrite Z.ltb_ge; lia).
      apply andb_false_iff. rewrite Z.leb_gt, Z.ltb_ge. lia.
  - rewrite <- (Hpoint 0 0).
    + rewrite Hspan. apply list_eq. intros j. rewrite !list_lookup_imap.
      destruct (L !! j); [|reflexivity]. cbn. unfold markRange. cbn [snd].
      destruct (List.find _ ms); [reflexivity|].
      replace ((0 <=? Z.of_nat j) && (Z.of_nat j <? 0)) with false
        by (symmetry; apply andb_false_iff; rewrite Z.ltb_ge; lia).
      reflexivity.
    + intros j Hj. unfold covers. symmetry.
      replace ((0 <=? Z.of_nat j) && (Z.of_nat j <? 0)) with false
        by (symmetry; apply andb_false_iff; rewrite Z.ltb_ge; lia).
      apply andb_false_iff. rewrite Z.leb_gt, Z.ltb_ge. lia.
  - rewrite <- (Hpoint 0 0).
    + rewrite Hspan. apply list_eq. intros j. rewrite !list_lookup_imap.
      destruct (L !! j); [|reflexivity]. cbn. unfold markRange. cbn [snd].
      destruct (List.find _ ms); [reflexivity|].
      replace ((0 <=? Z.of_nat j) && (Z.of_nat j <? 0)) with false
        by (symmetry; apply andb_false_iff; rewrite Z.ltb_ge; lia).
      reflexivity.
    + intros j Hj. unfold covers. symmetry.
      replace ((0 <=? Z.of_nat j) && (Z.of_nat j <? 0)) with false
        by (symmetry; apply andb_false_iff; rewrite Z.ltb_ge; lia).
      apply andb_false_iff. rewrite Z.leb_gt, Z.ltb_ge. lia.
Qed.

Lemma highlightMatch_Forall2 (P Q : PositionedItem -> list Node -> Prop)
  (E : PositionedItem -> Prop) m cur textItems spans :
  (forall it sp, E it -> P it sp -> Q it (highlightInSpan m cur it sp)) ->
  List.Forall E textItems -> Forall2 P textItems spans ->
  Forall2 Q textItems (highlightMatch m cur textItems spans).
Proof.
  intros Hstep HE H. induction H as [|it sp textItems spans Hp H IH];
    cbn [highlightMatch]; [constructor|].
  apply List.Forall_cons_iff in HE as [He HE]. constructor; [now apply Hstep|now apply IH].
Qed.

Lemma marks_clearHighlights span : marks (clearHighlights span) = unmark <$> marks span.
Proof.
  rewrite clearHighlights_cases.
  destruct (List.filter isHighlight span) eqn:E; [now rewrite marks_plain|].
  now rewrite marks_normalize, marks_unwrapAll.
Qed.

Lemma find_filter {A} (f g : A -> bool) (l : list A) :
  List.find g (List.filter f l) = List.find (fun a => f a && g a) l.
Proof.
  induction l as [|a l IH]; [reflexivity|]. cbn [List.filter List.find].
  destruct (f a); cbn [List.find andb]; [now rewrite IH|exact IH].
Qed.

(** X27. On a page whose text is extracted, with a query and
    [highlightAll] on, [_updateHighlights] shows every character of every
    span as the match list says: inside a highlight wrapper exactly when a
    match of the page covers its place in the page text, the wrapper being
    the selected one exactly when the first such match is the current match.
    The spans are taken to hold the text of their text items, whatever
    wrappers earlier calls left in them. *)
Theorem X27_highlights_show_the_matches
  (c : Controller) (pageNum : Z) (textItems : list PositionedItem)
  (spans : list (list Node)) (pageText : string) :
  highlightAll c = true -> isEmpty (query c) = false ->
  pageContents c !! pageNum = Some pageText ->
  List.Forall (fun it => ti_end it = ti_start it + strlen (ti_str it)) textItems ->
  Forall2 (fun it span => unmark <$> marks span = shownAs (fun _ => Plain) it)
          textItems spans ->
  Forall2 (fun it span => marks span = shownAs (markAt c pageNum) it)
          textItems (updateHighlights c pageNum textItems spans).
Proof.
  intros Hall Hq Hpage Hend Hspans. unfold updateHighlights.
  rewrite Hall, Hq, Hpage. cbn [negb orb].
  set (cur := fun m => indexOf m (matches c) =? currentMatchIndex c).
  set (firstOf := fun (ms : list Match) (pos : Z) =>
                    match List.find (covers pos) ms with
                    | Some m' => Marked (cur m') | None => Plain end).
  assert (Hfold : forall pm done sps,
             Forall2 (fun it sp => marks sp = shownAs (firstOf done) it) textItems sps ->
             Forall2 (fun it sp => marks sp = shownAs (firstOf (done ++ pm)) it) textItems
               (fold_left (fun sps m => highlightMatch m (cur m) textItems sps) pm sps)).
  { induction pm as [|m pm IH]; intros done sps H; cbn [fold_left].
    - now rewrite app_nil_r.
    - replace (done ++ m :: pm) with ((done ++ [m]) ++ pm) by now rewrite <- app_assoc.
      apply IH.
      apply (highlightMatch_Forall2
               (fun it sp => marks sp = shownAs (firstOf done) it)
               (fun it sp => marks sp = shownAs (firstOf (done ++ [m])) it)
               (fun it => ti_end it = ti_start it + strlen (ti_str it)));
        [|exact Hend|exact H].
      intros it sp He Hsp. now apply (highlightInSpan_marks cur done m it sp). }
  assert (H0 : Forall2 (fun it sp => marks sp = shownAs (firstOf []) it) textItems
                 (clearHighlights <$> spans)).
  { apply Forall2_fmap_r. eapply list.Forall2_impl; [exact Hspans|].
    intros it sp H. cbn beta. unfold compose. rewrite marks_clearHighlights. exact H. }
  apply (Hfold (List.filter (fun m => pageNumber m =? pageNum) (matches c))) in H0.
  cbn [app] in H0. eapply list.Forall2_impl; [exact H0|].
  intros it sp Hsp. cbn beta in Hsp. rewrite Hsp. unfold shownAs. apply imap_ext. intros j ch _. f_equal.
  unfold firstOf, markAt. now rewrite find_filter.
Qed.

Lemma X27_highlights_show_the_matches_witness :
  Forall2 (fun it span => marks span = shownAs (markAt both_pages_searched 1) it)
          page_1_text_items
          (updateHighlights both_pages_searched 1 page_1_text_items page_1_spans).
Proof.
  apply (X27_highlights_show_the_matches both_pages_searched 1 page_1_text_items
           page_1_spans "Ab cab").
  - reflexivity.
  - reflexivity.
  - vm_compute. reflexivity.
  - repeat constructor.
  - repeat constructor.
Defined.


End FindMore.

(** ** The page layout *)

Section ViewportFacts.

Import Viewport.

Ltac qc_to_q :=
  unfold Qcle, Qclt, Qcminus, Qcdiv in *;
  repeat match goal with
  | |- @eq Qc _ _ => apply Qc_is_canon
  | H : @eq Qc ?a ?b |- _ => apply (f_equal this) in H
  end;
  cbn [this Qcplus Qcmult Qcopp Q2Qc] in *;
  rewrite ?Qred_correct in *.

(** Once a first visible page is known, the loop runs to the end of the
    run of visible pages. *)
Lemma visibleLoop_run (v : Container) (f : Z) : forall (n : nat) (pageNum : Z),
  (forall p, pageNum <= p < pageNum + Z.of_nat n -> is_Some (pages v !! p)) ->
  exists l,
    visibleLoop v n pageNum (Some f) (Some (pageNum - 1)) = (Some f, Some l) /\
    pageNum - 1 <= l < pageNum + Z.of_nat n /\
    (forall p, pageNum <= p <= l -> inView v p = true) /\
    (l + 1 < pageNum + Z.of_nat n -> inView v (l + 1) = false).
Proof.
  induction n as [|n IH]; intros pageNum Hdom.
  - exists (pageNum - 1). cbn [visibleLoop]. repeat split; intros; lia.
  - cbn [visibleLoop]. destruct (Hdom pageNum ltac:(lia)) as [pd Hpd]. rewrite Hpd.
    destruct (intersects v pd) eqn:Hi.
    + destruct (IH (pageNum + 1)) as (l & Hl & Hr & Hin & Hout);
        [intros p Hp; apply Hdom; lia|].
      replace (pageNum + 1 - 1) with pageNum in Hl by lia.
      exists l. split; [exact Hl|]. split; [lia|]. split.
      * intros p Hp. destruct (decide (p = pageNum)) as [->|Hne];
          [unfold inView; now rewrite Hpd|apply Hin; lia].
      * intros H. apply Hout. lia.
    + exists (pageNum - 1). split; [reflexivity|]. split; [lia|]. split; [intros; lia|].
      intros _. replace (pageNum - 1 + 1) with pageNum by lia.
      unfold inView. now rewrite Hpd.
Qed.

(** Before that, it looks for the first visible page. *)
Lemma visibleLoop_seek (v : Container) : forall (n : nat) (pageNum : Z),
  (forall p, pageNum <= p < pageNum + Z.of_nat n -> is_Some (pages v !! p)) ->
  (visibleLoop v n pageNum None None = (None, None) /\
   forall p, pageNum <= p < pageNum + Z.of_nat n -> inView v p = false) \/
  exists f l,
    visibleLoop v n pageNum None None = (Some f, Some l) /\
    pageNum <= f /\ f <= l /\ l < pageNum + Z.of_nat n /\
    (forall p, pageNum <= p < f -> inView v p = false) /\
    (forall p, f <= p <= l -> inView v p = true) /\
    (l + 1 < pageNum + Z.of_nat n -> inView v (l + 1) = false).
Proof.
  induction n as [|n IH]; intros pageNum Hdom.
  - left. split; [reflexivity|]. intros; lia.
  - cbn [visibleLoop]. destruct (Hdom pageNum ltac:(lia)) as [pd Hpd]. rewrite Hpd.
    destruct (intersects v pd) eqn:Hi.
    + right. destruct (visibleLoop_run v pageNum n (pageNum + 1)) as (l & Hl & Hr & Hin & Hout);
        [intros p Hp; apply Hdom; lia|].
      replace (pageNum + 1 - 1) with pageNum in Hl by lia.
      exists pageNum, l. split; [exact Hl|]. repeat split; try lia.
      * intros p Hp. destruct (decide (p = pageNum)) as [->|Hne];
          [unfold inView; now rewrite Hpd|apply Hin; lia].
      * intros H. apply Hout. lia.
    + destruct (IH (pageNum + 1)) as [[Hnone Hall]|(f & l & Hfl & H1 & H2 & H3 & H4 & H5 & H6)];
        [intros p Hp; apply Hdom; lia| |].
      * left. split; [exact Hnone|]. intros p Hp.
        destruct (decide (p = pageNum)) as [->|Hne];
          [unfold inView; now rewrite Hpd|apply Hall; lia].
      * right. exists f, l. split; [exact Hfl|]. repeat split; try lia.
        -- intros p Hp. destruct (decide (p = pageNum)) as [->|Hne];
             [unfold inView; now rewrite Hpd|apply H4; lia].
        -- exact H5.
        -- intros H. apply H6. lia.
Qed.

(** X28. With a container for each page of a document of at least one
    page, [getVisiblePages] answers a range [first <= last] of pages of the
    document. When some page meets the visible area, [first] is the first
    such page and the range is the run of such pages that starts there; for
    pages lying one below the other it is exactly the set of pages that meet
    the visible area. When the container has no height, or no page meets the
    visible area, the range is page 1 alone. *)
Theorem X28_visible_pages_are_a_page_range (v : Container) :
  (forall p, is_Some (pages v !! p) <-> 1 <= p <= pageCount v) ->
  1 <= pageCount v ->
  exists f l,
    getVisiblePages v = Render.mkVisible (Some f) (Some l) (scrollDirection v) /\
    1 <= f /\ f <= l /\ l <= pageCount v /\
    (height v <> 0%Qc -> (exists p, inView v p = true) ->
       (forall p, f <= p <= l -> inView v p = true) /\
       (forall p, p < f -> inView v p = false) /\
       inView v (l + 1) = false /\
       (stacked v -> forall p, inView v p = true <-> f <= p <= l)) /\
    ((height v = 0%Qc \/ forall p, inView v p = false) -> f = 1 /\ l = 1).
Proof.
  intros Hdom Hn. unfold getVisiblePages.
  assert (Hout : forall p, ~ 1 <= p <= pageCount v -> inView v p = false).
  { intros p Hp. unfold inView. destruct (pages v !! p) eqn:E; [|reflexivity].
    exfalso. apply Hp, Hdom. eauto. }
  case_bool_decide as Hh.
  { exists 1, 1. split; [reflexivity|]. split; [lia|]. split; [lia|]. split; [lia|].
    split; [intros H; contradiction|intros _; split; reflexivity]. }
  destruct (visibleLoop_seek v (Z.to_nat (pageCount v)) 1)
    as [[Hnone Hall]|(f & l & Hfl & H1 & H2 & H3 & H4 & H5 & H6)];
    [intros p Hp; apply Hdom; lia| |].
  - rewrite Hnone. exists 1, 1. split; [reflexivity|].
    split; [lia|]. split; [lia|]. split; [lia|].
    split; [|intros _; split; reflexivity].
    intros _ [p Hp]. exfalso.
    destruct (decide (1 <= p <= pageCount v)) as [Hin|Hno].
    + rewrite Hall in Hp by lia. discriminate.
    + rewrite Hout in Hp by exact Hno. discriminate.
  - rewrite Hfl. exists f, l. split; [reflexivity|].
    assert (Hbefore : forall p, p < f -> inView v p = false).
    { intros p Hp. destruct (decide (1 <= p)); [apply H4; lia|apply Hout; lia]. }
    assert (Hafter : inView v (l + 1) = false).
    { destruct (decide (l + 1 <= pageCount v)); [apply H6; lia|apply Hout; lia]. }
    split; [lia|]. split; [lia|]. split; [lia|]. split.
    + intros _ _. split; [exact H5|]. split; [exact Hbefore|]. split; [exact Hafter|].
      intros [Hpos Hstack] p. split; [|apply H5].
      intros Hp. destruct (decide (p < f)) as [Hlt|Hge];
        [rewrite Hbefore in Hp by exact Hlt; discriminate|].
      split; [lia|]. destruct (decide (p <= l)) as [Hle|Hgt]; [exact Hle|]. exfalso.
      destruct (decide (p = l + 1)) as [->|Hne]; [congruence|].
      pose proof (H5 l ltac:(lia)) as Hl. unfold inView in Hl, Hafter, Hp.
      destruct (pages v !! l) as [ld|] eqn:El; [|discriminate].
      destruct (pages v !! p) as [pd|] eqn:Ep; [|discriminate].
      assert (Hs : is_Some (pages v !! (l + 1))).
      { apply Hdom. assert (Hps : is_Some (pages v !! p)) by eauto.
        apply Hdom in Hps. lia. }
      destruct Hs as [nd En]. rewrite En in Hafter.
      pose proof (Hstack l (l + 1) ld nd El En ltac:(lia)) as S1.
      pose proof (Hstack (l + 1) p nd pd En Ep ltac:(lia)) as S2.
      pose proof (Hpos _ _ En) as P1.
      unfold intersects, Geom.ltb in Hl, Hafter, Hp.
      apply andb_true_iff in Hl as [L1 L2]. apply andb_true_iff in Hp as [Q1 Q2].
      apply bool_decide_eq_true in L1, L2, Q1, Q2.
      apply andb_false_iff in Hafter as [A|A]; apply bool_decide_eq_false in A;
        apply A; qc_to_q; lra.
    + intros [H|H]; [contradiction|]. pose proof (H5 f ltac:(lia)) as Hf.
      rewrite H in Hf. discriminate.
Qed.

Lemma X28_visible_pages_are_a_page_range_witness :
  exists f l,
    getVisiblePages three_pages = Render.mkVisible (Some f) (Some l) (scrollDirection three_pages) /\
    1 <= f /\ f <= l /\ l <= pageCount three_pages /\
    (height three_pages <> 0%Qc -> (exists p, inView three_pages p = true) ->
       (forall p, f <= p <= l -> inView three_pages p = true) /\
       (forall p, p < f -> inView three_pages p = false) /\
       inView three_pages (l + 1) = false /\
       (stacked three_pages -> forall p, inView three_pages p = true <-> f <= p <= l)) /\
    ((height three_pages = 0%Qc \/ forall p, inView three_pages p = false) -> f = 1 /\ l = 1).
Proof.
  apply (X28_visible_pages_are_a_page_range three_pages); [|cbn; lia].
  intros p. cbn [pages three_pages pageCount].
  destruct (decide (p = 1)) as [->|H1]; [split; [intros _; lia|intros _; eauto]|].
  rewrite lookup_insert_ne by congruence.
  destruct (decide (p = 2)) as [->|H2]; [split; [intros _; lia|intros _; eauto]|].
  rewrite lookup_insert_ne by congruence.
  destruct (decide (p = 3)) as [->|H3]; [split; [intros _; lia|intros _; eauto]|].
  rewrite lookup_insert_ne by congruence. rewrite lookup_empty.
  split; [intros [x Hx]; discriminate|lia].
Defined.

Lemma visibleHeight_nonneg (r : Rects) (pr : Qc * Qc) : (0 <= visibleHeight r pr)%Qc.
Proof.
  unfold visibleHeight, Geom.Math_max, Geom.Math_min.
  repeat case_bool_decide; qc_to_q; lra.
Qed.

Lemma shown_nonneg (r : Rects) (p : Z) : (0 <= shown r p)%Qc.
Proof.
  unfold shown. destruct (pageRects r !! p); [apply visibleHeight_nonneg|].
  apply Qcle_refl.
Qed.

(** A page that starts below the container shows nothing. *)
Lemma visibleHeight_below (r : Rects) (pr : Qc * Qc) :
  (containerBottom r < fst pr)%Qc -> visibleHeight r pr = 0%Qc.
Proof.
  unfold visibleHeight, Geom.Math_max, Geom.Math_min. intros H.
  repeat case_bool_decide; try reflexivity; exfalso; qc_to_q; lra.
Qed.

Lemma currentLoop_finish (r : Rects) (pageNum bestPage : Z) (best : Qc) :
  bestSoFar r pageNum bestPage best ->
  (forall q, pageNum <= q \/ q < 1 -> shown r q = 0%Qc) ->
  1 <= bestPage /\ bestPage <= Z.max 1 (pageNum - 1) /\
  (forall p, (shown r p <= shown r bestPage)%Qc) /\
  (forall p, 1 <= p < bestPage -> (shown r p < shown r bestPage)%Qc).
Proof.
  intros (H0 & Hle & Hbest) Hrest.
  assert (Hall : forall p, (shown r p <= best)%Qc).
  { intros p. destruct (decide (pageNum <= p \/ p < 1)) as [Hp|Hp];
      [now rewrite Hrest|apply Hle; lia]. }
  destruct Hbest as [[-> ->]|(Hb & Hs & Hpos & Hfirst)].
  - split; [lia|]. split; [lia|]. split; [|intros p Hp; lia].
    intros p. eapply Qcle_trans; [apply Hall|apply shown_nonneg].
  - rewrite Hs. split; [lia|]. split; [lia|]. split; [exact Hall|exact Hfirst].
Qed.

Lemma currentLoop_best (r : Rects) (N : Z) :
  (forall p, is_Some (pageRects r !! p) <-> 1 <= p <= N) -> descending r ->
  forall (n : nat) (pageNum bestPage : Z) (best : Qc),
    1 <= pageNum -> pageNum + Z.of_nat n = N + 1 ->
    bestSoFar r pageNum bestPage best ->
    let c := currentLoop r n pageNum bestPage best in
    1 <= c /\ c <= Z.max 1 N /\
    (forall p, (shown r p <= shown r c)%Qc) /\
    (forall p, 1 <= p < c -> (shown r p < shown r c)%Qc).
Proof.
  intros Hdom Hdesc.
  assert (Hout : forall q, ~ 1 <= q <= N -> shown r q = 0%Qc).
  { intros q Hq. unfold shown. destruct (pageRects r !! q) eqn:E; [|reflexivity].
    exfalso. apply Hq, Hdom. eauto. }
  induction n as [|n IH]; intros pageNum bestPage best H1 HN Hinv; cbn zeta.
  - cbn [currentLoop]. replace N with (pageNum - 1) by lia.
    apply (currentLoop_finish r pageNum bestPage best Hinv).
    intros q Hq. apply Hout. lia.
  - cbn [currentLoop]. destruct (proj2 (Hdom pageNum) ltac:(lia)) as [pr Hpr].
    rewrite Hpr. cbn zeta.
    assert (Hshown : shown r pageNum = visibleHeight r pr) by (unfold shown; now rewrite Hpr).
    set (h := visibleHeight r pr) in *.
    assert (Hh : (0 <= h)%Qc) by apply visibleHeight_nonneg.
    destruct Hinv as (H0 & Hle & Hbest).
    assert (Hinv' : bestSoFar r (pageNum + 1)
                      (if Geom.ltb best h then pageNum else bestPage)
                      (if Geom.ltb best h then h else best)).
    { unfold Geom.ltb. case_bool_decide as Hb.
      - split; [exact Hh|]. split.
        + intros p Hp. destruct (decide (p = pageNum)) as [->|Hne];
            [rewrite Hshown; apply Qcle_refl|].
          eapply Qcle_trans; [apply Hle; lia|apply Qclt_le_weak, Hb].
        + right. split; [lia|]. split; [exact Hshown|]. split.
          * eapply Qcle_lt_trans; [exact H0|exact Hb].
          * intros p Hp. eapply Qcle_lt_trans; [apply Hle; lia|exact Hb].
      - apply Qcnot_lt_le in Hb. split; [exact H0|]. split.
        + intros p Hp. destruct (decide (p = pageNum)) as [->|Hne];
            [now rewrite Hshown|apply Hle; lia].
        + destruct Hbest as [Hz|(Hb1 & Hb2 & Hb3 & Hb4)]; [now left|].
          right. split; [lia|]. auto. }
    destruct (Geom.ltb (containerBottom r) (fst pr)) eqn:Hbreak.
    + unfold Geom.ltb in Hbreak. apply bool_decide_eq_true in Hbreak.
      destruct (currentLoop_finish r (pageNum + 1) _ _ Hinv') as (A & B & C & D).
      * intros q [Hq|Hq]; [|apply Hout; lia].
        destruct (decide (q <= N)) as [HqN|HqN]; [|apply Hout; lia].
        destruct (proj2 (Hdom q) ltac:(lia)) as [qr Hqr].
        unfold shown. rewrite Hqr. apply visibleHeight_below.
        eapply Qclt_le_trans; [exact Hbreak|].
        apply (Hdesc pageNum q pr qr Hpr Hqr). lia.
      * split; [exact A|]. split; [lia|]. split; assumption.
    + apply IH; [lia|lia|exact Hinv'].
Qed.

(** X29. With a document loaded and the page rectangles coming from top
    to bottom, [getCurrentPage] answers a page of which no other page shows
    more in the container, and the first page of the document that shows
    that much; it answers page 1 when no page shows anything. *)
Theorem X29_current_page_shows_most (r : Rects) :
  (forall p, is_Some (pageRects r !! p) <-> 1 <= p <= r_pageCount r) ->
  descending r -> hasDocument r = true ->
  let c := getCurrentPage r in
  1 <= c /\ c <= Z.max 1 (r_pageCount r) /\
  (forall p, (shown r p <= shown r c)%Qc) /\
  (forall p, 1 <= p < c -> (shown r p < shown r c)%Qc) /\
  ((forall p, shown r p = 0%Qc) -> c = 1).
Proof.
  intros Hdom Hdesc Hdoc. cbn zeta. unfold getCurrentPage. rewrite Hdoc. cbn [negb orb].
  assert (Hinit : bestSoFar r 1 1 0%Qc).
  { split; [apply Qcle_refl|]. split; [intros p Hp; lia|]. now left. }
  assert (Hcore : 1 <= r_pageCount r ->
            let c := currentLoop r (Z.to_nat (r_pageCount r)) 1 1 0%Qc in
            1 <= c /\ c <= Z.max 1 (r_pageCount r) /\
            (forall p, (shown r p <= shown r c)%Qc) /\
            (forall p, 1 <= p < c -> (shown r p < shown r c)%Qc)).
  { intros Hn. apply (currentLoop_best r (r_pageCount r) Hdom Hdesc); [lia|lia|exact Hinit]. }
  destruct (Z.eqb_spec (r_pageCount r) 0) as [Hz|Hnz].
  - assert (Hnone : forall p, shown r p = 0%Qc).
    { intros p. unfold shown. destruct (pageRects r !! p) eqn:E; [|reflexivity].
      assert (Hs : is_Some (pageRects r !! p)) by eauto. apply Hdom in Hs. lia. }
    split; [lia|]. split; [lia|]. split; [intros p; rewrite !Hnone; apply Qcle_refl|].
    split; [intros p Hp; lia|reflexivity].
  - destruct (decide (1 <= r_pageCount r)) as [Hn|Hn].
    + destruct (Hcore Hn) as (A & B & C & D).
      split; [exact A|]. split; [exact B|]. split; [exact C|]. split; [exact D|].
      intros Hnone.
      set (c := currentLoop r (Z.to_nat (r_pageCount r)) 1 1 0%Qc) in *.
      destruct (decide (c = 1)) as [Hc|Hc]; [exact Hc|]. exfalso.
      specialize (D 1 ltac:(lia)). rewrite !Hnone in D. now apply (Qclt_not_eq 0 0).
    + replace (Z.to_nat (r_pageCount r)) with 0%nat by lia. cbn [currentLoop].
      assert (Hnone : forall p, shown r p = 0%Qc).
      { intros p. unfold shown. destruct (pageRects r !! p) eqn:E; [|reflexivity].
        assert (Hs : is_Some (pageRects r !! p)) by eauto. apply Hdom in Hs. lia. }
      split; [lia|]. split; [lia|]. split; [intros p; rewrite !Hnone; apply Qcle_refl|].
      split; [intros p Hp; lia|reflexivity].
Qed.

Lemma three_rects_pages p :
  is_Some (pageRects three_rects !! p) <-> 1 <= p <= r_pageCount three_rects.
Proof.
  cbn [pageRects three_rects r_pageCount].
  destruct (decide (p = 1)) as [->|H1]; [split; [intros _; lia|intros _; eauto]|].
  rewrite lookup_insert_ne by congruence.
  destruct (decide (p = 2)) as [->|H2]; [split; [intros _; lia|intros _; eauto]|].
  rewrite lookup_insert_ne by congruence.
  destruct (decide (p = 3)) as [->|H3]; [split; [intros _; lia|intros _; eauto]|].
  rewrite lookup_insert_ne by congruence. rewrite lookup_empty.
  split; [intros [x Hx]; discriminate|lia].
Qed.

Lemma three_rects_descending : descending three_rects.
Proof.
  intros p q pr qr Hp Hq Hlt. cbn [pageRects three_rects] in Hp, Hq.
  rewrite !lookup_insert_Some, lookup_empty in Hp, Hq.
  destruct Hp as [[<- <-]|[? [[<- <-]|[? [[<- <-]|[? ?]]]]]]; try discriminate;
    destruct Hq as [[<- <-]|[? [[<- <-]|[? [[<- <-]|[? ?]]]]]]; try discriminate;
    try lia; cbn [fst]; vm_compute; discriminate.
Qed.

Lemma X29_current_page_shows_most_witness :
  getCurrentPage three_rects = 2 /\
  1 <= getCurrentPage three_rects /\
  getCurrentPage three_rects <= Z.max 1 (r_pageCount three_rects) /\
  (forall p, (shown three_rects p <= shown three_rects (getCurrentPage three_rects))%Qc) /\
  (forall p, 1 <= p < getCurrentPage three_rects ->
     (shown three_rects p < shown three_rects (getCurrentPage three_rects))%Qc) /\
  ((forall p, shown three_rects p = 0%Qc) -> getCurrentPage three_rects = 1).
Proof.
  split; [vm_compute; reflexivity|].
  apply (X29_current_page_shows_most three_rects three_rects_pages three_rects_descending).
  reflexivity.
Defined.



End ViewportFacts.
